(** * collect_mc_metrics: memcached statistics collector

    A shallow embedding of [collect_mc_metrics.py] and the properties of
    its protocol client, statistics normaliser and instance collector.

    Conventions of the embedding.
    - Text ([str]) is a [string], one [ascii] per character: the code
      points below 256. The protocol is ASCII; the classes [\s] and [\d],
      [strip] and [float] are Python's on these code points.
    - A [dict] is an association list in insertion order, as Python's.
    - A [float] is a binary64 value of the Standard Library's [SpecFloat],
      computed on integers with rounding to nearest even.
    - What the operating system and the network answer (process listing,
      host name, clock, peers, HTTP sink) is a [World]; every library call
      that can fail returns its value or raises an exception of [exn], and
      a call that waits on a peer may never return ([Blocked]). *)

From Stdlib Require Import ZArith String Ascii List Lia Bool.
From Stdlib Require Import Floats.SpecFloat.
From stdpp Require Import base tactics option list gmap strings.

Import ListNotations.
Local Open Scope string_scope.
Local Open Scope Z_scope.
Local Open Scope list_scope.

(** ** Text *)

Module Text.

Definition nl : ascii := "010"%char.
Definition cr : ascii := "013"%char.

Definition CRLF : string := String cr (String nl "").

Definition is_digit (c : ascii) : bool :=
  let n := nat_of_ascii c in ((48 <=? n) && (n <=? 57))%nat.

(** [str.isspace], which is also [\s]: tab to carriage return, the four
    separators and the blank, the next-line control and the no-break
    space. *)
Definition is_space (c : ascii) : bool :=
  let n := nat_of_ascii c in
  (((9 <=? n) && (n <=? 13)) || ((28 <=? n) && (n <=? 32)) ||
   (n =? 133) || (n =? 160))%nat.

(** The blanks [float] takes around a literal: those of [str.isspace]
    less the four separators. *)
Definition is_float_space (c : ascii) : bool :=
  let n := nat_of_ascii c in
  (((9 <=? n) && (n <=? 13)) || (n =? 32) || (n =? 133) || (n =? 160))%nat.

Definition lower (c : ascii) : ascii :=
  let n := nat_of_ascii c in
  if ((65 <=? n) && (n <=? 90))%nat then ascii_of_nat (n + 32) else c.

Fixpoint all_chars (p : ascii -> bool) (s : string) : bool :=
  match s with
  | "" => true
  | String c s' => p c && all_chars p s'
  end.

Fixpoint map_chars (f : ascii -> ascii) (s : string) : string :=
  match s with
  | "" => ""
  | String c s' => String (f c) (map_chars f s')
  end.

Fixpoint lstrip (s : string) : string :=
  match s with
  | String c s' => if is_space c then lstrip s' else s
  | "" => ""
  end.

(** [rstrip] keeps a character when it is not a blank or when something
    is kept after it. *)
Fixpoint rstrip (s : string) : string :=
  match s with
  | "" => ""
  | String c s' =>
      match rstrip s' with
      | "" => if is_space c then "" else String c ""
      | r => String c r
      end
  end.

(** [s.strip()] *)
Definition strip (s : string) : string := rstrip (lstrip s).

(** Stripping the characters of a set at both ends. *)
Fixpoint lstrip_of (p : ascii -> bool) (s : string) : string :=
  match s with
  | String c s' => if p c then lstrip_of p s' else s
  | "" => ""
  end.

Fixpoint rstrip_of (p : ascii -> bool) (s : string) : string :=
  match s with
  | "" => ""
  | String c s' =>
      match rstrip_of p s' with
      | "" => if p c then "" else String c ""
      | r => String c r
      end
  end.

Definition strip_of (p : ascii -> bool) (s : string) : string :=
  rstrip_of p (lstrip_of p s).

(** [s.endswith(suffix)] for a one-character suffix. *)
Fixpoint ends_with_char (c : ascii) (s : string) : bool :=
  match s with
  | "" => false
  | String a "" => Ascii.eqb a c
  | String _ s' => ends_with_char c s'
  end.

(** [s.split(sep)] for a one-character separator: never empty. *)
Fixpoint split_char (sep : ascii) (s : string) : list string :=
  match s with
  | "" => [""]
  | String c s' =>
      if Ascii.eqb c sep then "" :: split_char sep s'
      else match split_char sep s' with
           | [] => [String c ""]
           | l :: ls => String c l :: ls
           end
  end.

(** [sep.join(l)] *)
Fixpoint join (sep : string) (l : list string) : string :=
  match l with
  | [] => ""
  | [x] => x
  | x :: xs => x +:+ sep +:+ join sep xs
  end.

(** Comparison of strings by code point, Python's [<] on [str]. *)
Fixpoint ltb (a b : string) : bool :=
  match a, b with
  | "", "" => false
  | "", String _ _ => true
  | String _ _, "" => false
  | String x a', String y b' =>
      if (nat_of_ascii x <? nat_of_ascii y)%nat then true
      else if (nat_of_ascii y <? nat_of_ascii x)%nat then false
      else ltb a' b'
  end.

(** Decimal rendering of an integer, [str(n)]. *)
Definition digit_char (d : Z) : ascii := ascii_of_nat (48 + Z.to_nat d).

Fixpoint digits_fuel (fuel : nat) (n : Z) (acc : string) : string :=
  match fuel with
  | O => acc
  | S f =>
      let acc' := String (digit_char (n mod 10)) acc in
      if n <? 10 then acc' else digits_fuel f (n / 10) acc'
  end.

Definition str_of_nonneg (n : Z) : string :=
  digits_fuel (S (Z.to_nat (Z.log2 n))) n "".

Definition str_of_int (n : Z) : string :=
  if n <? 0 then String "-" (str_of_nonneg (- n)) else str_of_nonneg n.

(** Value of a string of decimal digits, [int(s)] on such a string. *)
Definition digit_val (c : ascii) : Z := Z.of_nat (nat_of_ascii c) - 48.

Fixpoint int_of_digits_acc (acc : Z) (s : string) : Z :=
  match s with
  | "" => acc
  | String c s' => int_of_digits_acc (10 * acc + digit_val c) s'
  end.

Definition int_of_digits (s : string) : Z := int_of_digits_acc 0 s.

End Text.

(** ** Regular expressions

    The fragment of Python's [re] the program uses: a pattern is a sequence
    of character sets, each taken once or under one of the greedy
    quantifiers [?], [*], [+], with capture groups around runs of them.
    Matching is by backtracking; [match_here] lists every way the pattern
    matches a prefix of the text in the order the backtracking matcher
    tries them, so its first element is the match [re] reports. *)

Module Re.

Definition cset := ascii -> bool.

Definition lit (c : ascii) : cset := Ascii.eqb c.
(** A literal under [re.IGNORECASE]. *)
Definition lit_i (c : ascii) : cset := fun a => Ascii.eqb (Text.lower a) (Text.lower c).
(** [.] without [re.DOTALL]: anything but a newline. *)
Definition dot : cset := fun a => negb (Ascii.eqb a Text.nl).
(** [[0-9]] and [\d]. *)
Definition digit : cset := Text.is_digit.
(** [\s]. *)
Definition space : cset := Text.is_space.

Inductive quant := Once | Opt | Star | Plus.

Inductive piece := Piece (cs : cset) (q : quant).

Inductive node :=
| Lit (p : piece)
| Group (ps : list piece).

Definition regex := list node.

(** A literal string, one [Lit] per character. *)
Fixpoint lits (s : string) : regex :=
  match s with
  | "" => []
  | String c s' => Lit (Piece (lit c) Once) :: lits s'
  end.

(** Every split of [s] into a run of [cs] characters and the rest, the
    longest run first. *)
Fixpoint star_splits (cs : cset) (s : string) : list (string * string) :=
  match s with
  | String c s' =>
      if cs c
      then map (fun mr => (String c mr.1, mr.2)) (star_splits cs s') ++ [("", s)]
      else [("", s)]
  | "" => [("", "")]
  end.

Definition piece_splits (p : piece) (s : string) : list (string * string) :=
  let 'Piece cs q := p in
  match q with
  | Once =>
      match s with
      | String c s' => if cs c then [(String c "", s')] else []
      | "" => []
      end
  | Opt =>
      match s with
      | String c s' => if cs c then [(String c "", s'); ("", s)] else [("", s)]
      | "" => [("", "")]
      end
  | Star => star_splits cs s
  | Plus =>
      match s with
      | String c s' =>
          if cs c then map (fun mr => (String c mr.1, mr.2)) (star_splits cs s') else []
      | "" => []
      end
  end.

Fixpoint pieces_splits (ps : list piece) (s : string) : list (string * string) :=
  match ps with
  | [] => [("", s)]
  | p :: ps' =>
      flat_map (fun mr1 =>
                  map (fun mr2 => (mr1.1 +:+ mr2.1, mr2.2)) (pieces_splits ps' mr1.2))
               (piece_splits p s)
  end.

(** The matches of [re] at the start of [s]: the text of each group and
    what is left of [s]. *)
Fixpoint match_here (re : regex) (s : string) : list (list string * string) :=
  match re with
  | [] => [([], s)]
  | Lit p :: re' => flat_map (fun mr => match_here re' mr.2) (piece_splits p s)
  | Group ps :: re' =>
      flat_map (fun mr =>
                  map (fun gr => (mr.1 :: gr.1, gr.2)) (match_here re' mr.2))
               (pieces_splits ps s)
  end.

Definition match_at (re : regex) (s : string) : option (list string * string) :=
  head (match_here re s).

(** [re.search]: the groups of the leftmost match. *)
Fixpoint search (re : regex) (s : string) : option (list string) :=
  match match_at re s with
  | Some (gs, _) => Some gs
  | None =>
      match s with
      | String _ s' => search re s'
      | "" => None
      end
  end.

(** [re.findall]: the groups of the successive matches, left to right
    and without overlap. [skip] counts the characters of the last match
    still to step over; after an empty match the scan moves on by one
    character. *)
Fixpoint findall_from (re : regex) (skip : nat) (s : string) : list (list string) :=
  match skip with
  | S k =>
      match s with
      | String _ s' => findall_from re k s'
      | "" => []
      end
  | O =>
      match match_at re s with
      | Some (gs, rest) =>
          gs :: match s with
                | String _ s' =>
                    findall_from re (String.length s - String.length rest - 1) s'
                | "" => []
                end
      | None =>
          match s with
          | String _ s' => findall_from re 0 s'
          | "" => []
          end
      end
  end.

Definition findall (re : regex) (s : string) : list (list string) :=
  findall_from re 0 s.

End Re.

(** ** Exceptions

    What ends a computation without a value. The last, [Blocked], is no
    exception: it stands for a call that never returns, such as a read
    on a connection whose peer neither answers nor closes. Nothing runs
    after it, no handler and no [finally] clause. *)

Inductive exn :=
| KeyError (key : string)
| ZeroDivisionError
| ValueError
| ConnectionRefusedError
| TimeoutError
| EOFError
| OSError
| Blocked.

(** [int(s)] on a string of digits: a string of more than 4300 digits is
    refused with [ValueError] (the default limit on the length of decimal
    integers of CPython, from 3.11 on). *)
Definition int_of_str (s : string) : exn + Z :=
  if 4300 <? Z.of_nat (String.length s) then inl ValueError
  else inr (Text.int_of_digits s).

(** ** Floating point

    Python's [float] is IEEE 754 binary64. [of_string] is [float(s)] on a
    [str], [repr] is [str(x)], and the arithmetic is that of the operators
    [*], [+] and [/]. *)

Module Float.

Definition prec : Z := 53.
Definition emax : Z := 1024.

Definition float := spec_float.

Definition mul : float -> float -> float := SFmul prec emax.
Definition add : float -> float -> float := SFadd prec emax.

Definition is_zero (x : float) : bool :=
  match x with S754_zero _ => true | _ => false end.

(** [x / y] raises on a zero divisor of either sign. *)
Definition truediv (x y : float) : exn + float :=
  if is_zero y then inl ZeroDivisionError else inr (SFdiv prec emax x y).

Definition eqb_repr (x y : float) : bool :=
  match x, y with
  | S754_zero a, S754_zero b => Bool.eqb a b
  | S754_infinity a, S754_infinity b => Bool.eqb a b
  | S754_nan, S754_nan => true
  | S754_finite a m e, S754_finite b m' e' => Bool.eqb a b && (m =? m')%positive && (e =? e')
  | _, _ => false
  end.

(** The binary64 nearest to [m * 10 ^ e], ties to even: the value of a
    decimal literal. *)
Definition of_decimal (neg : bool) (m e : Z) : float :=
  if m <=? 0 then S754_zero neg
  else if 0 <=? e then binary_normalize prec emax (if neg then - (m * 10 ^ e) else m * 10 ^ e) 0 neg
  else
    let '(q, e', l) := SFdiv_core_binary prec emax m 0 (10 ^ (- e)) 0 in
    binary_round_aux prec emax neg q e' l.

Definition of_int (n : Z) : float := of_decimal (n <? 0) (Z.abs n) 0.

(** *** Reading a decimal literal *)

(** A run of digits, single underscores allowed between two digits:
    the digits without the underscores, and the rest. *)
Fixpoint span_digits (s : string) : string * string :=
  match s with
  | String c s' =>
      if Text.is_digit c then
        let '(ds, r) :=
          match s' with
          | String u s'' =>
              if Ascii.eqb u "_" then
                match s'' with
                | String d _ => if Text.is_digit d then span_digits s'' else ("", s')
                | "" => ("", s')
                end
              else span_digits s'
          | "" => ("", "")
          end in
        (String c ds, r)
      else ("", s)
  | "" => ("", "")
  end.

(** An optional sign: whether it is a minus, and the rest. *)
Definition split_sign (s : string) : bool * string :=
  match s with
  | String c r =>
      if Ascii.eqb c "-" then (true, r)
      else if Ascii.eqb c "+" then (false, r)
      else (false, s)
  | "" => (false, "")
  end.

(** The exponent part: [e] or [E], an optional sign, digits. Absent, the
    exponent is 0; begun and not finished, the literal is refused. *)
Definition parse_exponent (s : string) : option (Z * string) :=
  match s with
  | String c s' =>
      if Ascii.eqb (Text.lower c) "e" then
        let '(neg, s'') := split_sign s' in
        match span_digits s'' with
        | ("", _) => None
        | (ds, r) =>
            let v := Text.int_of_digits ds in
            Some (if neg then - v else v, r)
        end
      else Some (0, s)
  | "" => Some (0, "")
  end.

(** The fraction part: a point and digits, if there is a point. *)
Definition split_fraction (s : string) : string * string :=
  match s with
  | String c r => if Ascii.eqb c "." then span_digits r else ("", s)
  | "" => ("", "")
  end.

(** Mantissa digits and decimal exponent of a whole literal: at least
    one digit before or after the point, nothing after the exponent. *)
Definition parse_decimal (s : string) : option (Z * Z) :=
  let '(ip, s1) := span_digits s in
  let '(fp, s2) := split_fraction s1 in
  match ip +:+ fp with
  | "" => None
  | ds =>
      match parse_exponent s2 with
      | Some (e, "") => Some (Text.int_of_digits ds, e - Z.of_nat (String.length fp))
      | _ => None
      end
  end.

(** [float(s)]: [None] is [ValueError]. The blanks around the literal
    are those of [is_float_space]: a separator (code 28 to 31), which
    [strip] would take, is refused here. *)
Definition of_string (s : string) : option float :=
  let '(neg, s1) := split_sign (Text.strip_of Text.is_float_space s) in
  let low := Text.map_chars Text.lower s1 in
  if String.eqb low "inf" || String.eqb low "infinity" then Some (S754_infinity neg)
  else if String.eqb low "nan" then Some S754_nan
  else
    match parse_decimal s1 with
    | Some (m, e) => Some (of_decimal neg m e)
    | None => None
    end.

(** *** Printing: the shortest decimal that reads back as the value *)

(** The decimal point position of the positive rational [num / den]:
    the [k] with [10 ^ (k - 1) <= num / den < 10 ^ k]. The estimate from
    the binary logarithms is off by less than two, and is adjusted. *)
Definition scaled_lt (num den k : Z) : bool :=
  (* num / den < 10 ^ k *)
  if 0 <=? k then num <? den * 10 ^ k else num * 10 ^ (- k) <? den.

Fixpoint adjust_up (fuel : nat) (num den k : Z) : Z :=
  match fuel with
  | O => k
  | S f => if scaled_lt num den k then k else adjust_up f num den (k + 1)
  end.

Fixpoint adjust_down (fuel : nat) (num den k : Z) : Z :=
  match fuel with
  | O => k
  | S f => if scaled_lt num den (k - 1) then adjust_down f num den (k - 1) else k
  end.

Definition decimal_point (num den : Z) : Z :=
  let k0 := (Z.log2 num - Z.log2 den) * 30103 / 100000 in
  adjust_up 4 num den (adjust_down 4 num den k0).

(** [num / den * 10 ^ (n - k)] as a fraction: its integer part has [n]
    digits when [k] is the decimal point position. *)
Definition scale (num den k : Z) (n : Z) : Z * Z :=
  if 0 <=? n - k then (num * 10 ^ (n - k), den) else (num, den * 10 ^ (k - n)).

(** The digits and decimal exponent of the shortest decimal that
    [of_decimal] reads back as [x]. With [n] digits the candidates are the
    decimals just below and just above [x]; when both read back as [x]
    the nearer one is taken. 17 digits always suffice for a binary64. *)
Fixpoint shortest (fuel : nat) (n : Z) (x : float) (num den k : Z) : Z * Z :=
  let '(N, D) := scale num den k n in
  let lo := N / D in
  let r := N mod D in
  let hi := lo + 1 in
  let up := (D <? 2 * r) || ((D =? 2 * r) && Z.odd lo) in
  let ok_lo := eqb_repr (of_decimal false lo (k - n)) x in
  let ok_hi := eqb_repr (of_decimal false hi (k - n)) x in
  match fuel with
  | O => (if up then hi else lo, k - n)
  | S f =>
      if ok_lo && ok_hi then (if up then hi else lo, k - n)
      else if ok_lo then (lo, k - n)
      else if ok_hi then (hi, k - n)
      else shortest f (n + 1) x num den k
  end.

Fixpoint strip_zeros (fuel : nat) (c e : Z) : Z * Z :=
  match fuel with
  | O => (c, e)
  | S f => if (c mod 10 =? 0) && (0 <? c) then strip_zeros f (c / 10) (e + 1) else (c, e)
  end.

Fixpoint zeros (n : nat) : string :=
  match n with
  | O => ""
  | S k => String "0" (zeros k)
  end.

(** [digits] with the decimal point after its first [decpt] characters,
    as [repr] lays it out: plain between 1e-4 and 1e16, with an exponent
    of at least two digits outside. *)
Definition layout (digits : string) (decpt : Z) : string :=
  let n := Z.of_nat (String.length digits) in
  if (-4 <? decpt) && (decpt <=? 16) then
    if decpt <=? 0 then "0." +:+ zeros (Z.to_nat (- decpt)) +:+ digits
    else if n <=? decpt
         then digits +:+ zeros (Z.to_nat (decpt - n)) +:+ ".0"
         else substring 0 (Z.to_nat decpt) digits +:+ "." +:+
              substring (Z.to_nat decpt) (Z.to_nat (n - decpt)) digits
  else
    let e := decpt - 1 in
    let es := Text.str_of_nonneg (Z.abs e) in
    let es := if Z.abs e <? 10 then String "0" es else es in
    substring 0 1 digits +:+
    (if 1 <? n then "." +:+ substring 1 (Z.to_nat (n - 1)) digits else "") +:+
    "e" +:+ (if e <? 0 then "-" else "+") +:+ es.

Definition repr_finite (m : positive) (e : Z) : string :=
  let num := if 0 <=? e then Z.pos m * 2 ^ e else Z.pos m in
  let den := if 0 <=? e then 1 else 2 ^ (- e) in
  let k := decimal_point num den in
  let '(c, ce) := shortest 16 1 (S754_finite false m e) num den k in
  let '(c, ce) := strip_zeros 17 c ce in
  let digits := Text.str_of_nonneg c in
  layout digits (ce + Z.of_nat (String.length digits)).

(** [repr(x)], which is also [str(x)]. *)
Definition repr (x : float) : string :=
  match x with
  | S754_nan => "nan"
  | S754_infinity false => "inf"
  | S754_infinity true => "-inf"
  | S754_zero false => "0.0"
  | S754_zero true => "-0.0"
  | S754_finite false m e => repr_finite m e
  | S754_finite true m e => String "-" (repr_finite m e)
  end.

End Float.

(** ** Dictionaries

    A Python [dict] from [str] to [str]: the items in insertion order, no
    key twice. Assigning to a key that is present keeps its place. *)

Module Dict.

Definition dict := list (string * string).

Fixpoint get (k : string) (d : dict) : option string :=
  match d with
  | [] => None
  | (k', v) :: d' => if String.eqb k k' then Some v else get k d'
  end.

(** [k in d] *)
Definition mem (k : string) (d : dict) : bool :=
  match get k d with Some _ => true | None => false end.

(** [d[k] = v] *)
Fixpoint set (k v : string) (d : dict) : dict :=
  match d with
  | [] => [(k, v)]
  | (k', v') :: d' => if String.eqb k k' then (k, v) :: d' else (k', v') :: set k v d'
  end.

(** What [del d[k]] leaves when [k] is present. *)
Fixpoint remove (k : string) (d : dict) : dict :=
  match d with
  | [] => []
  | (k', v) :: d' => if String.eqb k k' then remove k d' else (k', v) :: remove k d'
  end.

(** [dict(pairs)]: a later pair overrides an earlier one with its key. *)
Definition of_pairs (l : list (string * string)) : dict :=
  fold_left (fun d kv => set kv.1 kv.2 d) l [].

Definition keys (d : dict) : list string := map fst d.

End Dict.

Abbreviation dict := Dict.dict.

(** ** Computations that mutate a state, log, and may raise

    [M S A]: from a state, an exception or a value, the state left behind
    and the events emitted on the way (log records, HTTP posts). An
    exception keeps the mutations and the events that came before it. *)

Inductive level := DEBUG | WARNING | ERROR.

Inductive event :=
| Logged (l : level) (msg : string)
| Posted (url : string) (data : string).

Definition M (S A : Type) : Type := S -> (exn + A) * S * list event.

Definition ret {S A} (a : A) : M S A := fun s => (inr a, s, []).

Definition bind {S A B} (m : M S A) (k : A -> M S B) : M S B :=
  fun s =>
    match m s with
    | (inr a, s', t) => let '(r, s'', t') := k a s' in (r, s'', t ++ t')
    | (inl e, s', t) => (inl e, s', t)
    end.

Definition raise {S A} (e : exn) : M S A := fun s => (inl e, s, []).

Definition get_state {S} : M S S := fun s => (inr s, s, []).

Definition modify {S} (f : S -> S) : M S unit := fun s => (inr tt, f s, []).

Definition emit {S} (ev : event) : M S unit := fun s => (inr tt, s, [ev]).

(** [try: m  except <e taken by h>: h e]; an exception the handler does
    not take goes on, and so does [Blocked], which no handler sees. *)
Definition try_except {S A} (m : M S A) (h : exn -> option (M S A)) : M S A :=
  fun s =>
    match m s with
    | (inr a, s', t) => (inr a, s', t)
    | (inl Blocked, s', t) => (inl Blocked, s', t)
    | (inl e, s', t) =>
        match h e with
        | Some k => let '(r, s'', t') := k s' in (r, s'', t ++ t')
        | None => (inl e, s', t)
        end
    end.

(** The value or the exception of a pure operation. *)
Definition lift_result {S A} (r : exn + A) : M S A := fun s => (r, s, []).

Definition lift_option {S A} (e : exn) (o : option A) : M S A :=
  match o with
  | Some a => ret a
  | None => raise e
  end.

Declare Scope py_scope.
Delimit Scope py_scope with py.
Notation "x <- m ;; k" := (bind m (fun x => k))
  (at level 100, m at next level, right associativity) : py_scope.
Notation "m ;;; k" := (bind m (fun _ => k))
  (at level 100, right associativity) : py_scope.
Local Open Scope py_scope.

(** [float(s)] *)
Definition float {S} (s : string) : M S Float.float :=
  lift_option ValueError (Float.of_string s).

(** [logging.debug], [logging.warning]; [logging.exception] logs at
    level [ERROR]. *)
Definition logging {S} (l : level) (msg : string) : M S unit := emit (Logged l msg).

(** ** The statistics normaliser *)

Module Normalizer.

(** [stats[k]] *)
Definition getitem (k : string) : M dict string :=
  fun d =>
    match Dict.get k d with
    | Some v => (inr v, d, [])
    | None => (inl (KeyError k), d, [])
    end.

(** [stats[k] = v] *)
Definition setitem (k v : string) : M dict unit := modify (Dict.set k v).

(** [del stats[k]] *)
Definition delitem (k : string) : M dict unit :=
  fun d => if Dict.mem k d then (inr tt, Dict.remove k d, []) else (inl (KeyError k), d, []).

Definition hundred : Float.float := Float.of_int 100.

(** [stats['usage'] = str(100 * float(stats['bytes']) /
                           float(stats['limit_maxbytes']))] *)
Definition usage_block : M dict unit :=
  b <- getitem "bytes" ;;
  fb <- float b ;;
  l <- getitem "limit_maxbytes" ;;
  fl <- float l ;;
  q <- lift_result (Float.truediv (Float.mul hundred fb) fl) ;;
  setitem "usage" (Float.repr q).

(** One of the four blocks
    [try: stats[r] = str(100 * float(stats[h]) /
                         (float(stats[h]) + float(stats[m])))
     except ZeroDivisionError: stats[r] = '0.0'] *)
Definition ratio_block (h m r : string) : M dict unit :=
  try_except
    (h1 <- getitem h ;;
     fh1 <- float h1 ;;
     h2 <- getitem h ;;
     fh2 <- float h2 ;;
     m1 <- getitem m ;;
     fm <- float m1 ;;
     q <- lift_result (Float.truediv (Float.mul hundred fh1) (Float.add fh2 fm)) ;;
     setitem r (Float.repr q))
    (fun e => match e with
              | ZeroDivisionError => Some (setitem r "0.0")
              | _ => None
              end).

(** The body of the outer [try]. *)
Definition wrap_stats_body : M dict unit :=
  delitem "pid" ;;;
  delitem "time" ;;;
  usage_block ;;;
  ratio_block "get_hits" "get_misses" "get_hit_ratio" ;;;
  ratio_block "incr_hits" "incr_misses" "incr_hit_ratio" ;;;
  ratio_block "decr_hits" "decr_misses" "decr_hit_ratio" ;;;
  ratio_block "delete_hits" "delete_misses" "delete_hit_ratio".

(** [wrap_stats]: the body mutates [stats] in place; a [KeyError] is
    logged; [finally: return stats] then returns the dictionary as the
    body left it and drops whatever exception was on its way. *)
Definition wrap_stats {S} (stats : dict) : M S dict :=
  fun s =>
    match wrap_stats_body stats with
    | (inl (KeyError _), stats', t) =>
        (inr stats', s, t ++ [Logged ERROR "access key not exists"])
    | (inl Blocked, _, t) => (inl Blocked, s, t)
    | (_, stats', t) => (inr stats', s, t)
    end.

End Normalizer.

(** ** The protocol client *)

(** What a [telnetlib.Telnet] object has been asked so far. *)
Inductive tn_op :=
| TnWrite (data : string)
| TnRead (expected : string).

(** The peer behind one [(host, port)]: whether connecting raises, and
    what each operation on the connection does given the operations before
    it. [write] returns nothing. [read_until] is called without a
    timeout: it returns the text read up to and including [expected],
    decoded; when the stream ends before [expected] it returns what was
    read, or raises [EOFError] when nothing was; and it is [Blocked] when
    the peer neither sends [expected] nor ends the stream. *)
Record Peer := {
  peer_open : option exn;
  peer_write : list tn_op -> string -> option exn;
  peer_read_until : list tn_op -> string -> exn + string;
}.

Definition Network := string -> Z -> Peer.

Module MemcachedStats.

Definition bin_name : string := "memcached".

(** The patterns of the class, written with < > for the parentheses of
    a group. [_key_regex] is  ITEM <.*> \[<.*>; <.*>\]  *)
Definition _key_regex : Re.regex :=
  Re.lits "ITEM " ++ [Re.Group [Re.Piece Re.dot Re.Star]] ++
  Re.lits " [" ++ [Re.Group [Re.Piece Re.dot Re.Star]] ++
  Re.lits "; " ++ [Re.Group [Re.Piece Re.dot Re.Star]] ++
  Re.lits "]".

(** [_slab_regex] is  STAT items:<.*>:number  *)
Definition _slab_regex : Re.regex :=
  Re.lits "STAT items:" ++ [Re.Group [Re.Piece Re.dot Re.Star]] ++ Re.lits ":number".

(** [_stat_regex] is  STAT <.*> <[0-9]+\.?[0-9]*>\r  *)
Definition _stat_regex : Re.regex :=
  Re.lits "STAT " ++ [Re.Group [Re.Piece Re.dot Re.Star]] ++
  Re.lits " " ++
  [Re.Group [Re.Piece Re.digit Re.Plus; Re.Piece (Re.lit ".") Re.Opt;
             Re.Piece Re.digit Re.Star]] ++
  [Re.Lit (Re.Piece (Re.lit Text.cr) Re.Once)].

(** ["\-p\s+(?P<port>\d+)"] with [re.IGNORECASE] *)
Definition _port_regex : Re.regex :=
  [Re.Lit (Re.Piece (Re.lit_i "-") Re.Once);
   Re.Lit (Re.Piece (Re.lit_i "p") Re.Once);
   Re.Lit (Re.Piece Re.space Re.Plus);
   Re.Group [Re.Piece Re.digit Re.Plus]].

(** The attributes set by [__init__]. *)
Record t := {
  _host : string;
  _port : Z;
  _timeout : Float.float;
}.

(** The mutable attribute [_client]: [None], or the connection with
    what has been done on it. *)
Definition state := option (list tn_op).

(** [get_instances], on the output of the process listing. The
    [ValueError] of [int] is not caught: it ends the loop and the
    call. *)
Definition get_instances (ps_output : string) : exn + gset Z :=
  fold_left
    (fun result line =>
       match result with
       | inl e => inl e
       | inr ports =>
           match Re.search _port_regex (Text.strip line) with
           | Some m =>
               match int_of_str (hd "" m) with
               | inr port => inr ({[ port ]} ∪ ports)
               | inl e => inl e
               end
           | None => inr ports
           end
       end)
    (Text.split_char Text.nl ps_output) (inr ∅).

Section Methods.
Variable net : Network.
Variable self : t.

(** The property [client]: connects on first use. *)
Definition client : M state (list tn_op) :=
  c <- get_state ;;
  match c with
  | None =>
      logging DEBUG ("create connection " +:+ _host self +:+ ":" +:+
                     Text.str_of_int (_port self)) ;;;
      match peer_open (net (_host self) (_port self)) with
      | Some e => raise e
      | None => modify (fun _ => Some []) ;;; ret []
      end
  | Some h => ret h
  end.

(** [Telnet.write] and [Telnet.read_until] on the connection [h]. *)
Definition telnet_write (h : list tn_op) (data : string) : M state (option string) :=
  match peer_write (net (_host self) (_port self)) h data with
  | Some e => raise e
  | None => modify (fun _ => Some (h ++ [TnWrite data])) ;;; ret None
  end.

Definition telnet_read_until (h : list tn_op) (expected : string) : M state string :=
  match peer_read_until (net (_host self) (_port self)) h expected with
  | inl e => raise e
  | inr text => modify (fun _ => Some (h ++ [TnRead expected])) ;;; ret text
  end.

Definition _write (cmd : string) : M state (option string) :=
  let cmd := if Text.ends_with_char Text.nl cmd then cmd else cmd +:+ String Text.nl "" in
  h <- client ;;
  resp <- telnet_write h cmd ;;
  match resp with
  | Some (String _ _ as r) => ret (Some r)
  | _ => ret None
  end.

Definition _read_until (token : string) : M state string :=
  h <- client ;;
  telnet_read_until h token.

Definition command (cmd : string) : M state string :=
  logging DEBUG ("issue command " +:+ cmd) ;;;
  _write cmd ;;;
  _read_until "END".

Definition close : M state (option string) := _write "quit".

Definition slab_ids : M state (list string) :=
  text <- command "stats items" ;;
  ret (map (hd "") (Re.findall _slab_regex text)).

(** Python's [<] on tuples of strings. *)
Fixpoint tuple_ltb (a b : list string) : bool :=
  match a, b with
  | [], [] => false
  | [], _ :: _ => true
  | _ :: _, [] => false
  | x :: a', y :: b' =>
      if Text.ltb x y then true
      else if Text.ltb y x then false
      else tuple_ltb a' b'
  end.

(** [sorted]: stable, by [<]. *)
Fixpoint insert_sorted (x : list string) (l : list (list string)) : list (list string) :=
  match l with
  | [] => [x]
  | y :: l' => if tuple_ltb y x then y :: insert_sorted x l' else x :: l
  end.

Definition sorted (l : list (list string)) : list (list string) :=
  fold_right insert_sorted [] l.

(** The comprehension of [key_details]: one command per slab id. *)
Fixpoint cachedumps (ids : list string) (limit : Z) : M state (list (list string)) :=
  match ids with
  | [] => ret []
  | id :: ids' =>
      text <- command ("stats cachedump " +:+ id +:+ " " +:+ Text.str_of_int limit) ;;
      rest <- cachedumps ids' limit ;;
      ret (Re.findall _key_regex text ++ rest)
  end.

Definition key_details (sort : bool) (limit : Z) : M state (list (list string)) :=
  ids <- slab_ids ;;
  keys <- cachedumps ids limit ;;
  if sort then ret (sorted keys) else ret keys.

Definition keys (sort : bool) (limit : Z) : M state (list string) :=
  details <- key_details sort limit ;;
  ret (map (hd "") details).

(** A match of a pattern with two groups is a pair. *)
Definition as_pair (gs : list string) : string * string :=
  (nth 0 gs "", nth 1 gs "").

Definition stats : M state dict :=
  text <- command "stats" ;;
  ret (Dict.of_pairs (map as_pair (Re.findall _stat_regex text))).

End Methods.

End MemcachedStats.

(** ** The instance collector *)

Inductive counter_type := GAUGE | COUNTER.

(** The dictionary [i] built for each statistic. *)
Record MetricPoint := {
  metric : string;
  endpoint : string;
  timestamp : Z;
  step : Z;
  value : Float.float;
  counterType : counter_type;
  tags : string;
}.

(** All that the program asks of its environment: the output of the
    process listing, the host name, the clock in whole seconds, the peers
    on the network, the order in which a set of integers is walked, the
    JSON encoder and the HTTP sink ([Some e]: the post raises [e]). *)
Record World := {
  ps_output : string;
  hostname : string;
  time_now : Z;
  network : Network;
  set_iter : gset Z -> list Z;
  set_iter_perm : forall s, set_iter s ≡ₚ elements s;
  json_dumps : list MetricPoint -> string;
  requests_post : string -> string -> Float.float -> option exn;
}.

Module Collector.

Definition gauges : list string :=
  [ "get_hit_ratio";
    "incr_hit_ratio";
    "decr_hit_ratio";
    "delete_hit_ratio";
    "usage";
    "curr_connections";
    "total_connections";
    "bytes";
    "pointer_size";
    "uptime";
    "limit_maxbytes";
    "threads";
    "curr_items";
    "total_items";
    "connection_structures" ].

(** [key in gauges] *)
Definition is_gauge (key : string) : bool := existsb (String.eqb key) gauges.

Section Collect.
Variable w : World.
Variable timeout : Float.float.

Definition metric_prefix : string := "mc".

(** A computation on a fresh [MemcachedStats] object, which is dropped
    afterwards. *)
Definition with_instance {A} (m : M MemcachedStats.state A) : M unit A :=
  fun s => let '(r, _, t) := m None in (r, s, t).

(** The body of the [try] of the loop:
    [conn = MemcachedStats(port=port, timeout=timeout);
     stats = wrap_stats(conn.stats()); conn.close()] *)
Definition query (port : Z) : M unit dict :=
  let conn := {| MemcachedStats._host := "localhost";
                 MemcachedStats._port := port;
                 MemcachedStats._timeout := timeout |} in
  with_instance
    (raw <- MemcachedStats.stats (network w) conn ;;
     stats <- Normalizer.wrap_stats raw ;;
     MemcachedStats.close (network w) conn ;;;
     ret stats).

(** [for key in stats: ...; data.append(i)] *)
Fixpoint emit_points (port : Z) (stats : dict) (keys : list string)
    (data : list MetricPoint) : M unit (list MetricPoint) :=
  match keys with
  | [] => ret data
  | key :: keys' =>
      v <- lift_option (KeyError key) (Dict.get key stats) ;;
      value <- float v ;;
      let '(suffix, vtype) :=
        if is_gauge key then ("", GAUGE) else ("_cps", COUNTER) in
      let i := {| metric := metric_prefix +:+ "." +:+ key +:+ suffix;
                  endpoint := hostname w;
                  timestamp := time_now w;
                  step := 60;
                  value := value;
                  counterType := vtype;
                  tags := "port=" +:+ Text.str_of_int port |} in
      emit_points port stats keys' (data ++ [i])
  end.

(** [for port in ports: ...]; the bare [except] takes every
    exception, logs it and goes on with the next port. *)
Fixpoint for_ports (ports : list Z) (data : list MetricPoint)
    : M unit (list MetricPoint) :=
  match ports with
  | [] => ret data
  | port :: ports' =>
      r <- try_except
             (stats <- query port ;; ret (Some stats))
             (fun _ => Some
                (logging ERROR ("query memcached instance stats failed, port=" +:+
                                Text.str_of_int port) ;;;
                 ret None)) ;;
      match r with
      | None => for_ports ports' data
      | Some stats =>
          data' <- emit_points port stats (Dict.keys stats) data ;;
          for_ports ports' data'
      end
  end.

Definition collect_instances : M unit (option (list MetricPoint)) :=
  ports <- lift_result (MemcachedStats.get_instances (ps_output w)) ;;
  if decide (ports = ∅) then
    logging WARNING ("process matched name " +:+ MemcachedStats.bin_name +:+
                     " not found") ;;;
    ret None
  else
    logging DEBUG ("listen port(s) " +:+
                   Text.join "," (map Text.str_of_int (set_iter w ports)) +:+
                   " found") ;;;
    data <- for_ports (set_iter w ports) [] ;;
    ret (Some data).

(** [requests.post(url=..., data=..., timeout=...)] *)
Definition post (url data : string) : M unit unit :=
  emit (Posted url data) ;;;
  match requests_post w url data timeout with
  | Some e => raise e
  | None => ret tt
  end.

(** The script run as a program, after its arguments are parsed. *)
Definition main (sendto : string) : M unit unit :=
  result <- collect_instances ;;
  match result with
  | Some ((_ :: _) as points) =>
      let data := json_dumps w points in
      try_except
        (post sendto data)
        (fun _ => Some
           (logging ERROR ("POST " +:+ sendto +:+ " failed, req.body.bytes=" +:+
                           Text.str_of_int (Z.of_nat (String.length data)))))
  | _ => ret tt
  end.

End Collect.

End Collector.

(** * Notions used in the statements *)

(** ** Patterns and lines *)

Module ReNotions.
Import Text Re.

(** *** Patterns that cannot cross a line end *)

Definition piece_nl_free (p : piece) : Prop :=
  let 'Piece cs _ := p in cs nl = false.

Definition node_nl_free (n : node) : Prop :=
  match n with
  | Lit p => piece_nl_free p
  | Group ps => Forall piece_nl_free ps
  end.

Definition nl_free (re : regex) : Prop := Forall node_nl_free re.

(** The pattern begins with a character that is not a line end: it
    matches neither the empty text nor at a line end. *)
Definition starts_with_char (re : regex) : Prop :=
  match re with
  | Lit (Piece cs Once) :: _ => cs nl = false
  | _ => False
  end.

Definition extend (t : string) {A} (ar : A * string) : A * string :=
  (ar.1, ar.2 +:+ String nl t).

(** A run of the set followed by a character outside it: the greedy
    quantifiers take the whole run first. *)
Definition stops (cs : cset) (r : string) : Prop :=
  match r with String c _ => cs c = false | "" => True end.

End ReNotions.

(** ** Numbers of the statistics lines *)

Module StatNotions.
Import Text Re ReNotions MemcachedStats.

(** The texts the number group of [_stat_regex] stands for: digits,
    then possibly a point and more digits. *)
Definition number_text (s : string) : Prop :=
  exists d1 pt d2,
    s = d1 +:+ pt +:+ d2 /\
    all_chars is_digit d1 = true /\ d1 <> "" /\
    ((pt = "" /\ d2 = "") \/ pt = ".") /\
    all_chars is_digit d2 = true.

Definition number_group : list piece :=
  [Piece digit Plus; Piece (lit ".") Opt; Piece digit Star].

End StatNotions.

(** ** Decimal literals *)

Module FloatNotions.
Import Text Float.

(** Texts without blanks are left alone by [strip]. *)
Definition no_space (s : string) : Prop :=
  all_chars (fun c => negb (is_space c)) s = true.

(** *** Runs of digits *)

(** What may follow a run of digits for [span_digits] to stop there. *)
Definition ends_run (r : string) : Prop :=
  match r with
  | String c _ => is_digit c = false /\ Ascii.eqb c "_" = false
  | "" => True
  end.

(** *** Decimal literals *)

Definition fraction_text (s : string) : Prop :=
  s = "" \/ exists d, s = "." +:+ d /\ all_chars is_digit d = true.

Definition exponent_text (s : string) : Prop :=
  s = "" \/ exists sg d, s = "e" +:+ sg +:+ d /\ (sg = "+" \/ sg = "-") /\
                         all_chars is_digit d = true /\ d <> "".

(** Digits, then possibly a fraction, then possibly an exponent: the
    form of every text [repr] prints for a finite value. *)
Definition decimal_text (s : string) : Prop :=
  exists d f e, s = d +:+ f +:+ e /\ all_chars is_digit d = true /\ d <> "" /\
                fraction_text f /\ exponent_text e.

End FloatNotions.

(** ** Events *)

Module MonadNotions.

(** *** Computations that only log *)

Definition is_log (ev : event) : Prop :=
  match ev with Logged _ _ => True | Posted _ _ => False end.

Definition logs_only {S A} (m : M S A) : Prop :=
  forall s, Forall is_log (m s).2.

End MonadNotions.

(** ** The normaliser, block by block *)

Module NormalizerNotions.
Import Dict MonadNotions Normalizer.

(** *** Each block as a function of the dictionary it reads *)

Definition read_float (k : string) (d : dict) : exn + Float.float :=
  match get k d with
  | None => inl (KeyError k)
  | Some v =>
      match Float.of_string v with
      | Some f => inr f
      | None => inl ValueError
      end
  end.

Definition usage_text (b l : Float.float) : string :=
  Float.repr (SFdiv Float.prec Float.emax (Float.mul hundred b) l).

(** [100 * hits / (hits + misses)], and [0.0] for a zero denominator. *)
Definition ratio_text (h m : Float.float) : string :=
  if Float.is_zero (Float.add h m) then "0.0"
  else Float.repr (SFdiv Float.prec Float.emax (Float.mul hundred h) (Float.add h m)).

Definition usage_value (d : dict) : exn + string :=
  match read_float "bytes" d with
  | inl e => inl e
  | inr b =>
      match read_float "limit_maxbytes" d with
      | inl e => inl e
      | inr l => if Float.is_zero l then inl ZeroDivisionError else inr (usage_text b l)
      end
  end.

Definition ratio_value (h m : string) (d : dict) : exn + string :=
  match read_float h d with
  | inl e => inl e
  | inr fh =>
      match read_float m d with
      | inl e => inl e
      | inr fm => inr (ratio_text fh fm)
      end
  end.

Definition set_result (k : string) (r : exn + string) (d : dict)
    (next : dict -> (exn + unit) * dict) : (exn + unit) * dict :=
  match r with
  | inl e => (inl e, d)
  | inr v => next (set k v d)
  end.

(** The body of [wrap_stats] with every value read from the input:
    how it ends, and the dictionary it leaves. *)
Definition normalize (stats : dict) : (exn + unit) * dict :=
  if mem "pid" stats then
    if mem "time" stats then
      set_result "usage" (usage_value stats) (remove "time" (remove "pid" stats)) (fun d =>
      set_result "get_hit_ratio" (ratio_value "get_hits" "get_misses" stats) d (fun d =>
      set_result "incr_hit_ratio" (ratio_value "incr_hits" "incr_misses" stats) d (fun d =>
      set_result "decr_hit_ratio" (ratio_value "decr_hits" "decr_misses" stats) d (fun d =>
      set_result "delete_hit_ratio" (ratio_value "delete_hits" "delete_misses" stats) d (fun d =>
      (inr tt, d))))))
    else (inl (KeyError "time"), remove "pid" stats)
  else (inl (KeyError "pid"), stats).

Definition source_keys : list string :=
  ["bytes"; "limit_maxbytes"; "get_hits"; "get_misses"; "incr_hits"; "incr_misses";
   "decr_hits"; "decr_misses"; "delete_hits"; "delete_misses"].

Definition derived_keys : list string :=
  ["usage"; "get_hit_ratio"; "incr_hit_ratio"; "decr_hit_ratio"; "delete_hit_ratio"].

Definition hit_pairs : list (string * string * string) :=
  [("get_hits", "get_misses", "get_hit_ratio");
   ("incr_hits", "incr_misses", "incr_hit_ratio");
   ("decr_hits", "decr_misses", "decr_hit_ratio");
   ("delete_hits", "delete_misses", "delete_hit_ratio")].

(** The five computations of the body after the two deletions, in
    order: the derived field each one sets, and its value or its
    exception as a function of the input. *)
Definition steps : list (string * (dict -> exn + string)) :=
  [("usage", usage_value);
   ("get_hit_ratio", ratio_value "get_hits" "get_misses");
   ("incr_hit_ratio", ratio_value "incr_hits" "incr_misses");
   ("decr_hit_ratio", ratio_value "decr_hits" "decr_misses");
   ("delete_hit_ratio", ratio_value "delete_hits" "delete_misses")].

(** The steps that come before the one that sets [r]. *)
Fixpoint before_in (r : string) (l : list (string * (dict -> exn + string)))
    : list (string * (dict -> exn + string)) :=
  match l with
  | [] => []
  | kf :: l' => if String.eqb kf.1 r then [] else kf :: before_in r l'
  end.

Definition before (r : string) : list (string * (dict -> exn + string)) :=
  before_in r steps.

(** The normalisation runs to its end. *)
Definition succeeds (stats : dict) : Prop := (wrap_stats_body stats).1.1 = inr tt.

(** Every value is a text [float] accepts. *)
Definition numeric (d : dict) : Prop :=
  forall k v, (k, v) ∈ d -> is_Some (Float.of_string v).

Definition limit_not_zero (d : dict) : Prop :=
  forall v l, get "limit_maxbytes" d = Some v -> Float.of_string v = Some l ->
              Float.is_zero l = false.

Definition access_error : event := Logged ERROR "access key not exists".

(** *** Examples *)

Definition stats_complete : dict :=
  [("pid", "4242"); ("uptime", "17"); ("time", "1700000000");
   ("bytes", "50"); ("limit_maxbytes", "100");
   ("get_hits", "3"); ("get_misses", "1");
   ("incr_hits", "0"); ("incr_misses", "0");
   ("decr_hits", "1"); ("decr_misses", "2");
   ("delete_hits", "0"); ("delete_misses", "7")].

Definition stats_identity_only : dict := [("pid", "4242"); ("time", "1700000000")].

(** *** What [wrap_stats] returns *)

(** Statistics with the sources of [usage] and of the first ratio, and
    of nothing else. *)
Definition stats_first_pair : dict :=
  [("pid", "4242"); ("time", "1700000000"); ("bytes", "50"); ("limit_maxbytes", "100");
   ("get_hits", "3"); ("get_misses", "1")].

End NormalizerNotions.

(** ** Lines of a response, and example peers *)

Module ClientNotions.
Import Text Re ReNotions StatNotions MonadNotions MemcachedStats.

(** The pairs one line of a response adds to the statistics. *)
Definition stat_line (line : string) : list (string * string) :=
  map as_pair (findall _stat_regex line).

(** *** Example peers *)

Definition line (s : string) : string := s +:+ CRLF.

Definition stats_response : string :=
  line "STAT pid 4242" +:+ line "STAT uptime 17" +:+ line "STAT time 1700000000" +:+
  line "STAT version 1.6.21" +:+
  line "STAT bytes 50" +:+ line "STAT limit_maxbytes 100" +:+
  line "STAT get_hits 3" +:+ line "STAT get_misses 1" +:+
  line "STAT incr_hits 0" +:+ line "STAT incr_misses 0" +:+
  line "STAT decr_hits 1" +:+ line "STAT decr_misses 2" +:+
  line "STAT delete_hits 0" +:+ line "STAT delete_misses 7" +:+
  "END".

Definition items_response : string :=
  line "STAT items:1:number 2" +:+ line "STAT items:1:age 5" +:+ "END".

Definition dump_response : string :=
  line "ITEM foo [10; 123]" +:+ line "ITEM bar [5; 456]" +:+ line "END".

Definition last_write (h : list tn_op) : string :=
  match last h with
  | Some (TnWrite data) => data
  | _ => ""
  end.

(** A server that answers the three commands. *)
Definition serving : Peer :=
  {| peer_open := None;
     peer_write := fun _ _ => None;
     peer_read_until := fun h _ =>
       if String.eqb (last_write h) ("stats" +:+ String nl "") then inr stats_response
       else if String.eqb (last_write h) ("stats items" +:+ String nl "") then inr items_response
       else if String.eqb (last_write h) ("stats cachedump 1 100" +:+ String nl "")
            then inr dump_response
       else inl EOFError |}.

(** No server: the connection is refused. *)
Definition refusing : Peer :=
  {| peer_open := Some ConnectionRefusedError;
     peer_write := fun _ _ => None;
     peer_read_until := fun _ _ => inl EOFError |}.

(** A server that accepts the connection and closes it without a word:
    the read ends before the sentinel. *)
Definition silent : Peer :=
  {| peer_open := None;
     peer_write := fun _ _ => None;
     peer_read_until := fun _ _ => inl EOFError |}.




(** A server that answers [stats] and then drops the connection. *)
Definition dropping : Peer :=
  {| peer_open := None;
     peer_write := fun h _ => match h with [] => None | _ => Some OSError end;
     peer_read_until := fun _ _ => inr stats_response |}.

Definition local (port : Z) : t :=
  {| _host := "localhost"; _port := port; _timeout := Float.of_int 2 |}.

Definition quit_line : string := "quit" +:+ String nl "".

End ClientNotions.

(** ** Points, and an example host *)

Module CollectorNotions.
Import Text Dict MonadNotions StatNotions FloatNotions NormalizerNotions MemcachedStats ClientNotions Collector.

(** The dictionary built for the statistic [key] of value [x]. *)
Definition point_of (w : World) (port : Z) (key : string) (x : Float.float) : MetricPoint :=
  {| metric := "mc." +:+ key +:+ (if is_gauge key then "" else "_cps");
     endpoint := hostname w;
     timestamp := time_now w;
     step := 60;
     value := x;
     counterType := if is_gauge key then GAUGE else COUNTER;
     tags := "port=" +:+ str_of_int port |}.

Definition points_of (w : World) (port : Z) (stats : dict) : list MetricPoint :=
  flat_map (fun kv => match Float.of_string kv.2 with
                      | Some x => [point_of w port kv.1 x]
                      | None => []
                      end) stats.

(** What one port contributes: the points of its statistics, or nothing
    when its query fails. *)
Definition port_points (w : World) (timeout : Float.float) (port : Z) : list MetricPoint :=
  match (query w timeout port tt).1.1 with
  | inr stats => points_of w port stats
  | inl _ => []
  end.

Definition failure_record (port : Z) : event :=
  Logged ERROR ("query memcached instance stats failed, port=" +:+ str_of_int port).

(** The query of [port] never returns. *)
Definition blocks (w : World) (timeout : Float.float) (port : Z) : Prop :=
  (query w timeout port tt).1.1 = inl Blocked.

(** What one port leaves in the log: the records of its query, and the
    record of its failure when the query raised. *)
Definition port_events (w : World) (timeout : Float.float) (port : Z) : list event :=
  (query w timeout port tt).2 ++
  match (query w timeout port tt).1.1 with
  | inr _ => []
  | inl Blocked => []
  | inl _ => [failure_record port]
  end.

(** What discovery gives on the host: the ports, or its exception. *)
Definition ports_of (w : World) : exn + gset Z := get_instances (ps_output w).

Definition not_found_record : event :=
  Logged WARNING "process matched name memcached not found".

Definition found_record (w : World) (ports : gset Z) : event :=
  Logged DEBUG ("listen port(s) " +:+
                join "," (map str_of_int (set_iter w ports)) +:+ " found").

Definition post_failure_record (w : World) (sendto : string)
    (points : list MetricPoint) : event :=
  Logged ERROR ("POST " +:+ sendto +:+ " failed, req.body.bytes=" +:+
                str_of_int (Z.of_nat (String.length (json_dumps w points)))).

(** *** Example hosts *)

(** One instance serving, three ports failing. *)
Definition example_world : World :=
  {| ps_output :=
       "memcache   812     1  0 10:01 ?  00:00:03 /usr/bin/memcached -m 64 -p 11211 -u memcache"
       +:+ String nl
       "memcache   990     1  0 10:02 ?  00:00:00 /usr/bin/memcached -m 64 -p 11212 -u memcache"
       +:+ String nl
       "memcache   991     1  0 10:02 ?  00:00:00 /usr/bin/memcached -m 64 -P  11213"
       +:+ String nl
       "memcache   992     1  0 10:02 ?  00:00:00 /usr/bin/memcached -d -p 11214 -m 64";
     hostname := "cache01";
     time_now := 1700000000;
     network := fun _ port =>
       if port =? 11211 then serving
       else if port =? 11212 then refusing
       else if port =? 11213 then silent
       else dropping;
     set_iter := elements;
     set_iter_perm := fun s => Permutation_refl (elements s);
     json_dumps := fun points => "[...]";
     requests_post := fun _ _ _ => None |}.

Definition example_found : gset Z := {[ 11211; 11212; 11213; 11214 ]}.



Definition two_seconds : Float.float := Float.of_int 2.

Definition example_stats : dict :=
  [("uptime", "17"); ("bytes", "50"); ("limit_maxbytes", "100");
   ("get_hits", "3"); ("get_misses", "1");
   ("incr_hits", "0"); ("incr_misses", "0");
   ("decr_hits", "1"); ("decr_misses", "2");
   ("delete_hits", "0"); ("delete_misses", "7");
   ("usage", "50.0"); ("get_hit_ratio", "75.0"); ("incr_hit_ratio", "0.0");
   ("decr_hit_ratio", "33.333333333333336"); ("delete_hit_ratio", "0.0")].

End CollectorNotions.

(** ** Lines of the process listing *)

Module DiscoveryNotions.
Import Text Re ReNotions StatNotions FloatNotions MemcachedStats.

(** What a line of the process listing gives, if it shows a flag: the
    integer of the digits that follow the first flag [-p], or the
    exception of [int]. *)
Definition port_of_line (line : string) : option (exn + Z) :=
  match search _port_regex (strip line) with
  | Some m => Some (int_of_str (hd "" m))
  | None => None
  end.

(** [s] is [pre], the flag [-p] or [-P], the blanks [ws], the digits
    [ds] and [rest]. *)
Definition flag_text (s pre : string) (f : ascii) (ws ds rest : string) : Prop :=
  s = pre +:+ String "-" (String f (ws +:+ ds +:+ rest)) /\
  (f = "p"%char \/ f = "P"%char) /\
  all_chars is_space ws = true /\ ws <> "" /\
  all_chars is_digit ds = true /\ ds <> "".

(** No [-p] and no [-P] in [s]. *)
Fixpoint no_flag (s : string) : bool :=
  match s with
  | String a s' =>
      match s' with
      | String b _ => negb (Ascii.eqb a "-" && Ascii.eqb (lower b) "p") && no_flag s'
      | "" => true
      end
  | "" => true
  end.

End DiscoveryNotions.

(** ** Commands, entries and their order *)

Module ProtocolNotions.
Import Text Re ReNotions StatNotions MonadNotions MemcachedStats ClientNotions.

(** The line [_write] sends for [cmd]. *)
Definition with_newline (cmd : string) : string :=
  if ends_with_char nl cmd then cmd else cmd +:+ String nl "".

Definition connecting (self : t) : event :=
  Logged DEBUG ("create connection " +:+ _host self +:+ ":" +:+ str_of_int (_port self)).

Definition issuing (cmd : string) : event := Logged DEBUG ("issue command " +:+ cmd).

(** What has been done on the connection of an instance, and the
    record of the connection a call makes when none is open. *)
Definition history (st : state) : list tn_op := default [] st.

Definition opening (self : t) (st : state) : list event :=
  match st with
  | None => [connecting self]
  | Some _ => []
  end.

(** *** Scanning a text match after match *)

Definition without (bad : list ascii) (s : string) : Prop :=
  all_chars (fun a => negb (existsb (Ascii.eqb a) bad)) s = true.

(** *** Slab identifiers *)

(** The identifiers one line of the response to [stats items] gives. *)
Definition slab_line (line : string) : list string :=
  map (hd "") (findall _slab_regex line).

(** *** Lines of a cache dump *)

(** The entries one line of a cache dump gives. *)
Definition item_line (line : string) : list (list string) := findall _key_regex line.

(** *** Sorted entries *)

(** No entry is below the one before it. *)
Fixpoint ordered (l : list (list string)) : Prop :=
  match l with
  | a :: l' =>
      match l' with
      | b :: _ => tuple_ltb b a = false /\ ordered l'
      | [] => True
      end
  | [] => True
  end.

(** *** Repeated names *)

(** The value the last pair of [l] with the key [k] gives. *)
Definition last_value (k : string) (l : list (string * string)) : option string :=
  Dict.get k (rev l).

(** A response that gives [threads] twice. *)
Definition repeating : Peer :=
  {| peer_open := None;
     peer_write := fun _ _ => None;
     peer_read_until := fun _ _ =>
       inr (line "STAT threads 4" +:+ line "STAT uptime 17" +:+ line "STAT threads 8" +:+
            "END") |}.

End ProtocolNotions.

(** ** Keys the normaliser asks for *)

Module OutcomeNotions.
Import Dict MonadNotions Normalizer NormalizerNotions.

(** A dictionary with no memory in use out of none allowed. *)
Definition stats_no_memory : dict :=
  [("pid", "4242"); ("time", "1700000000"); ("bytes", "0"); ("limit_maxbytes", "0");
   ("get_hits", "3"); ("get_misses", "1")].

(** Every key the normaliser asks for. *)
Definition required_keys : list string := "pid" :: "time" :: source_keys.

End OutcomeNotions.

(** ** Sessions, posts and series *)

Module RunNotions.
Import Text Dict MonadNotions StatNotions FloatNotions NormalizerNotions MemcachedStats ClientNotions Collector CollectorNotions DiscoveryNotions ProtocolNotions.

(** The object [MemcachedStats(port=port, timeout=timeout)]. *)
Definition instance (timeout : Float.float) (port : Z) : MemcachedStats.t :=
  {| _host := "localhost"; _port := port; _timeout := timeout |}.

(** What the body of the [try] does on its instance. *)
Definition session (w : World) (timeout : Float.float) (port : Z) : M state dict :=
  raw <- MemcachedStats.stats (network w) (instance timeout port) ;;
  stats <- Normalizer.wrap_stats raw ;;
  close (network w) (instance timeout port) ;;;
  ret stats.

(** The posts among the events, in order. *)
Definition posts (t : list event) : list (string * string) :=
  flat_map (fun ev => match ev with
                      | Posted url data => [(url, data)]
                      | Logged _ _ => []
                      end) t.

(** The calls of the run that can wait for ever: the query of a port
    found, and the post of the points. *)
Definition waits (w : World) (timeout : Float.float) (sendto : string) : Prop :=
  (exists ports port,
     ports_of w = inr ports /\ port ∈ ports /\ blocks w timeout port) \/
  (exists p ps,
     (collect_instances w timeout tt).1.1 = inr (Some (p :: ps)) /\
     requests_post w sendto (json_dumps w (p :: ps)) timeout = Some Blocked).

(** The name of the series of a statistic. *)
Definition metric_name (key : string) : string :=
  "mc." +:+ key +:+ (if is_gauge key then "" else "_cps").

(** [s.endswith(suffix)] *)
Fixpoint ends_with (suffix s : string) : bool :=
  String.eqb s suffix ||
  match s with
  | String _ s' => ends_with suffix s'
  | "" => false
  end.

(** The series of a point: its name and its tags. *)
Definition series (p : MetricPoint) : string * string := (metric p, tags p).

End RunNotions.

(** * Properties *)

#[local] Arguments String.append : simpl nomatch.
#[local] Arguments Ascii.eqb : simpl never.
#[local] Arguments Text.is_digit : simpl never.
#[local] Arguments Text.is_space : simpl never.
#[local] Arguments Text.lower : simpl never.
#[local] Arguments Re.lit : simpl never.
#[local] Arguments Re.lit_i : simpl never.
#[local] Arguments Re.dot : simpl never.
#[local] Arguments Re.digit : simpl never.
#[local] Arguments Re.space : simpl never.

(** ** Text *)

Module TextFacts.
Import Text.

Lemma append_nil_r (s : string) : s +:+ "" = s.
Proof. induction s; simpl; congruence. Qed.

Lemma append_assoc (a b c : string) : (a +:+ b) +:+ c = a +:+ (b +:+ c).
Proof. induction a; simpl; congruence. Qed.

Lemma length_append (a b : string) :
  String.length (a +:+ b) = (String.length a + String.length b)%nat.
Proof. induction a; simpl; congruence. Qed.

Lemma all_chars_app p (a b : string) :
  all_chars p (a +:+ b) = all_chars p a && all_chars p b.
Proof. induction a; simpl; [done|]. rewrite IHa. by destruct (p a). Qed.

(** Splitting at the first separator. *)
Lemma split_char_cases sep (s : string) :
  (all_chars (fun c => negb (Ascii.eqb c sep)) s = true /\ split_char sep s = [s]) \/
  (exists l t, s = l +:+ String sep t /\
               all_chars (fun c => negb (Ascii.eqb c sep)) l = true /\
               split_char sep s = l :: split_char sep t).
Proof.
  induction s as [|c s IH]; simpl; [by left|].
  destruct (Ascii.eqb_spec c sep) as [->|Hne].
  - right. by exists "", s.
  - destruct IH as [[Hall ->]|(l & t & -> & Hall & ->)].
    + left. by rewrite Hall.
    + right. exists (String c l), t. simpl.
      destruct (Ascii.eqb_spec c sep); [done|]. by rewrite Hall.
Qed.

End TextFacts.

(** ** Regular expressions *)

Module ReFacts.
Import Text TextFacts Re ReNotions.

(** Every split is a split, and its first part lies in the set. *)
Lemma star_splits_sound cs s m r :
  (m, r) ∈ star_splits cs s -> s = m +:+ r /\ all_chars cs m = true.
Proof.
  revert m r. induction s as [|c s IH]; simpl; intros m r Hin.
  - apply list_elem_of_singleton in Hin. by simplify_eq.
  - destruct (cs c) eqn:Hc.
    + apply elem_of_app in Hin as [Hin|Hin].
      * apply list_elem_of_fmap in Hin as ([m' r'] & ? & Hin). simplify_eq/=.
        apply IH in Hin as [-> Hall]. by rewrite Hc.
      * apply list_elem_of_singleton in Hin. by simplify_eq.
    + apply list_elem_of_singleton in Hin. by simplify_eq.
Qed.

(** The empty run comes last; every split before it takes something. *)
Lemma star_splits_last cs s :
  exists l, star_splits cs s = l ++ [("", s)] /\
            forall m r, (m, r) ∈ l -> m <> "".
Proof.
  destruct s as [|c s]; simpl.
  - exists []. split; [done|]. intros ?? Hin. by apply elem_of_nil in Hin.
  - destruct (cs c).
    + eexists. split; [done|]. intros m r Hin.
      apply list_elem_of_fmap in Hin as ([m' r'] & ? & _). by simplify_eq/=.
    + exists []. split; [done|]. intros ?? Hin. by apply elem_of_nil in Hin.
Qed.

(** The longest run comes first. *)
Lemma star_splits_first cs (a r : string) :
  all_chars cs a = true ->
  (match r with String c _ => cs c = false | "" => True end) ->
  exists l, star_splits cs (a +:+ r) = (a, r) :: l.
Proof.
  intros Ha Hr. induction a as [|c a IH]; simpl in *.
  - destruct r as [|c r]; [by eexists|]. simpl. rewrite Hr. by eexists.
  - apply andb_true_iff in Ha as [-> Ha]. destruct (IH Ha) as [l ->].
    simpl. by eexists.
Qed.

Lemma piece_splits_sound p s m r :
  (m, r) ∈ piece_splits p s ->
  s = m +:+ r /\ all_chars (let 'Piece cs _ := p in cs) m = true.
Proof.
  destruct p as [cs q]. destruct q; simpl.
  - destruct s as [|c s]; [by intros ?%elem_of_nil|].
    destruct (cs c) eqn:Hc; [|by intros ?%elem_of_nil].
    intros ?%list_elem_of_singleton. simplify_eq/=. by rewrite Hc.
  - destruct s as [|c s].
    { intros ?%list_elem_of_singleton. by simplify_eq/=. }
    destruct (cs c) eqn:Hc.
    + intros [?|?%list_elem_of_singleton]%elem_of_cons; simplify_eq/=; by rewrite ?Hc.
    + intros ?%list_elem_of_singleton. by simplify_eq/=.
  - apply star_splits_sound.
  - destruct s as [|c s]; [by intros ?%elem_of_nil|].
    destruct (cs c) eqn:Hc; [|by intros ?%elem_of_nil].
    intros ([m' r'] & ? & Hin)%list_elem_of_fmap. simplify_eq/=.
    apply star_splits_sound in Hin as [-> ->]. by rewrite Hc.
Qed.

Lemma flat_map_map {A B C} (f : B -> list C) (g : A -> B) (l : list A) :
  flat_map f (map g l) = flat_map (fun x => f (g x)) l.
Proof. induction l; simpl; congruence. Qed.

Lemma map_flat_map {A B C} (g : B -> C) (f : A -> list B) (l : list A) :
  map g (flat_map f l) = flat_map (fun x => map g (f x)) l.
Proof. induction l; simpl; [done|]. rewrite map_app. congruence. Qed.

Lemma star_splits_line cs s t :
  cs nl = false ->
  star_splits cs (s +:+ String nl t) = map (extend t) (star_splits cs s).
Proof.
  intros Hnl. induction s as [|c s IH]; simpl.
  - by rewrite Hnl.
  - destruct (cs c); [|done].
    rewrite IH, map_app, !map_map. done.
Qed.

Lemma piece_splits_line p s t :
  piece_nl_free p ->
  piece_splits p (s +:+ String nl t) = map (extend t) (piece_splits p s).
Proof.
  destruct p as [cs q]. simpl. intros Hnl. destruct q; simpl.
  - destruct s as [|c s]; simpl; [by rewrite Hnl|]. by destruct (cs c).
  - destruct s as [|c s]; simpl; [by rewrite Hnl|]. by destruct (cs c).
  - by apply star_splits_line.
  - destruct s as [|c s]; simpl; [by rewrite Hnl|].
    destruct (cs c); [|done]. rewrite star_splits_line by done.
    by rewrite !map_map.
Qed.

Lemma pieces_splits_line ps s t :
  Forall piece_nl_free ps ->
  pieces_splits ps (s +:+ String nl t) = map (extend t) (pieces_splits ps s).
Proof.
  intros Hps. revert s. induction Hps as [|p ps Hp Hps IH]; intros s; simpl; [done|].
  rewrite piece_splits_line, flat_map_map, map_flat_map by done.
  apply flat_map_ext. intros [m r]. simpl. rewrite IH, !map_map. done.
Qed.

Lemma match_here_line re s t :
  nl_free re ->
  match_here re (s +:+ String nl t) = map (extend t) (match_here re s).
Proof.
  intros Hre. revert s. induction Hre as [|n re Hn Hre IH]; intros s; simpl; [done|].
  destruct n as [p|ps]; simpl in Hn.
  - rewrite piece_splits_line, flat_map_map, map_flat_map by done.
    apply flat_map_ext. intros [m r]. simpl. apply IH.
  - rewrite pieces_splits_line, flat_map_map, map_flat_map by done.
    apply flat_map_ext. intros [m r]. simpl. rewrite IH, !map_map. done.
Qed.

Lemma match_at_line re s t :
  nl_free re ->
  match_at re (s +:+ String nl t) = extend t <$> match_at re s.
Proof.
  intros Hre. unfold match_at. rewrite match_here_line by done.
  by destruct (match_here re s).
Qed.

Lemma match_at_empty re : starts_with_char re -> match_at re "" = None.
Proof. destruct re as [|[[cs []]|] re]; simpl; done. Qed.

Lemma match_at_nl re t : starts_with_char re -> match_at re (String nl t) = None.
Proof.
  destruct re as [|[[cs []]|] re]; simpl; try done.
  intros Hnl. unfold match_at. simpl. by rewrite Hnl.
Qed.

(** A match is found within one line, and a scan of the whole text is
    the scan of its first line followed by that of the rest. *)
Lemma findall_from_line re s t skip :
  nl_free re -> starts_with_char re ->
  (skip <= String.length s)%nat ->
  findall_from re skip (s +:+ String nl t) = findall_from re skip s ++ findall re t.
Proof.
  intros Hre Hst. revert skip. induction s as [|c s IH]; intros skip Hskip.
  - simpl in Hskip. assert (skip = 0%nat) as -> by lia.
    change ("" +:+ String nl t) with (String nl t).
    cbn [findall_from]. rewrite match_at_nl, match_at_empty by done. done.
  - change (String c s +:+ String nl t) with (String c (s +:+ String nl t)).
    destruct skip as [|k].
    + cbn [findall_from].
      change (String c (s +:+ String nl t)) with (String c s +:+ String nl t).
      rewrite match_at_line by done.
      destruct (match_at re (String c s)) as [[gs rest]|]; simpl.
      * f_equal. rewrite !length_append. simpl.
        replace (S (String.length s + S (String.length t)) -
                 (String.length rest + S (String.length t)) - 1)%nat
          with (S (String.length s) - String.length rest - 1)%nat by lia.
        apply IH. lia.
      * apply IH. lia.
    + cbn [findall_from]. apply IH. simpl in Hskip. lia.
Qed.

Theorem findall_lines re s :
  nl_free re -> starts_with_char re ->
  findall re s = flat_map (findall re) (split_char nl s).
Proof.
  intros Hre Hst.
  remember (String.length s) as n eqn:Hn. revert s Hn.
  induction (lt_wf n) as [n _ IH]. intros s ->.
  destruct (split_char_cases nl s) as [[Hall ->]|(l & t & -> & Hall & ->)].
  - simpl. by rewrite List.app_nil_r.
  - simpl. unfold findall at 1. rewrite findall_from_line by (done || lia).
    f_equal. eapply IH; [|done]. rewrite length_append. simpl. lia.
Qed.

Lemma search_none_findall re s : search re s = None -> findall re s = [].
Proof.
  unfold findall. induction s as [|c s IH]; simpl.
  - by destruct (match_at re "") as [[]|].
  - destruct (match_at re (String c s)) as [[]|]; [done|]. apply IH.
Qed.

Lemma findall_from_skip re s k :
  match_at re "" = None -> (String.length s <= k)%nat -> findall_from re k s = [].
Proof.
  intros Hre. revert k. induction s as [|c s IH]; intros k Hk; simpl in *.
  - destruct k; [by rewrite Hre|done].
  - destruct k; [lia|]. apply IH. lia.
Qed.

(** A text that the pattern matches to its end has that one match. *)
Lemma findall_whole re s gs :
  match_at re "" = None -> match_at re s = Some (gs, "") -> findall re s = [gs].
Proof.
  intros Hre Hs. unfold findall. destruct s as [|c s]; [congruence|].
  cbn [findall_from]. rewrite Hs. f_equal. apply findall_from_skip; [done|].
  simpl. lia.
Qed.

(** Every match found is a first match somewhere in the text. *)
Lemma findall_from_elem_of re skip s gs :
  gs ∈ findall_from re skip s -> exists s' r, (gs, r) ∈ match_here re s'.
Proof.
  revert skip. induction s as [|c s IH]; intros skip; destruct skip as [|k]; cbn [findall_from].
  - unfold match_at. destruct (match_here re "") as [|[gs' r'] l] eqn:E; cbn.
    + by intros ?%elem_of_nil.
    + intros ->%list_elem_of_singleton. exists "", r'. rewrite E. left.
  - by intros ?%elem_of_nil.
  - unfold match_at. destruct (match_here re (String c s)) as [|[gs' r'] l] eqn:E; cbn.
    + apply IH.
    + intros [->|Hin]%elem_of_cons; [|by eapply IH].
      exists (String c s), r'. rewrite E. left.
  - apply IH.
Qed.

Lemma findall_elem_of re s gs :
  gs ∈ findall re s -> exists s' r, (gs, r) ∈ match_here re s'.
Proof. apply findall_from_elem_of. Qed.

(** *** Membership and first match, node by node *)

Lemma elem_of_flat_map {A B} (f : A -> list B) (l : list A) (y : B) :
  y ∈ flat_map f l <-> exists x, x ∈ l /\ y ∈ f x.
Proof.
  rewrite list_elem_of_In, in_flat_map. setoid_rewrite list_elem_of_In. done.
Qed.

Lemma flat_map_nil {A B} (f : A -> list B) (l : list A) :
  (forall x, x ∈ l -> f x = []) -> flat_map f l = [].
Proof.
  induction l as [|x l IH]; simpl; intros H; [done|].
  rewrite H by left. apply IH. intros. apply H. by right.
Qed.

Lemma head_app_nil {A} (l1 l2 : list A) : l1 = [] -> head (l1 ++ l2) = head l2.
Proof. by intros ->. Qed.

Lemma head_app_some {A} (l1 l2 : list A) x : head l1 = Some x -> head (l1 ++ l2) = Some x.
Proof. by destruct l1. Qed.

Lemma elem_of_match_here_lit p re s gs r :
  (gs, r) ∈ match_here (Lit p :: re) s ->
  exists m r1, (m, r1) ∈ piece_splits p s /\ (gs, r) ∈ match_here re r1.
Proof. simpl. intros ([m r1] & ? & ?)%elem_of_flat_map. eauto. Qed.

Lemma elem_of_match_here_group ps re s gs r :
  (gs, r) ∈ match_here (Group ps :: re) s ->
  exists m r1 gs', (m, r1) ∈ pieces_splits ps s /\ gs = m :: gs' /\
                   (gs', r) ∈ match_here re r1.
Proof.
  simpl. intros ([m r1] & ? & Hin)%elem_of_flat_map.
  apply list_elem_of_fmap in Hin as ([gs' r'] & ? & ?). simplify_eq/=. eauto 10.
Qed.

Lemma elem_of_pieces_splits_cons p ps s m r :
  (m, r) ∈ pieces_splits (p :: ps) s ->
  exists m1 r1 m2, (m1, r1) ∈ piece_splits p s /\ (m2, r) ∈ pieces_splits ps r1 /\
                   m = m1 +:+ m2.
Proof.
  simpl. intros ([m1 r1] & ? & Hin)%elem_of_flat_map.
  apply list_elem_of_fmap in Hin as ([m2 r2] & ? & ?). simplify_eq/=. eauto 10.
Qed.

Lemma elem_of_match_here_lits str re s gs r :
  (gs, r) ∈ match_here (lits str ++ re) s ->
  exists s', s = str +:+ s' /\ (gs, r) ∈ match_here re s'.
Proof.
  revert s. induction str as [|c str IH]; intros s; simpl lits; simpl app.
  - eauto.
  - intros (m & r1 & Hm & Hin)%elem_of_match_here_lit.
    simpl in Hm. destruct s as [|c' s]; [by apply elem_of_nil in Hm|].
    unfold lit in Hm. destruct (Ascii.eqb_spec c c'); [|by apply elem_of_nil in Hm].
    apply list_elem_of_singleton in Hm. simplify_eq.
    apply IH in Hin as (s' & -> & ?). eauto.
Qed.

Lemma match_at_lits str re s :
  match_at (lits str ++ re) (str +:+ s) = match_at re s.
Proof.
  unfold match_at. induction str as [|c str IH]; simpl; [done|].
  unfold lit at 1. rewrite Ascii.eqb_refl. simpl. by rewrite List.app_nil_r.
Qed.

Lemma match_at_lit_once cs re c s :
  cs c = true -> match_at (Lit (Piece cs Once) :: re) (String c s) = match_at re s.
Proof. intros Hc. unfold match_at. simpl. rewrite Hc. simpl. by rewrite List.app_nil_r. Qed.

Lemma head_pieces_splits_cons p ps s m1 r1 m2 r2 :
  head (piece_splits p s) = Some (m1, r1) ->
  head (pieces_splits ps r1) = Some (m2, r2) ->
  head (pieces_splits (p :: ps) s) = Some (m1 +:+ m2, r2).
Proof.
  simpl. destruct (piece_splits p s) as [|[] l]; intros ? H2; simplify_eq/=.
  apply head_app_some. by destruct (pieces_splits ps r1) as [|[] ?]; simplify_eq/=.
Qed.

Lemma head_match_here_group ps re s m r1 gs r :
  head (pieces_splits ps s) = Some (m, r1) ->
  match_at re r1 = Some (gs, r) ->
  match_at (Group ps :: re) s = Some (m :: gs, r).
Proof.
  unfold match_at. simpl.
  destruct (pieces_splits ps s) as [|[] l]; intros ? H2; simplify_eq/=.
  apply head_app_some. by destruct (match_here re r1) as [|[] ?]; simplify_eq/=.
Qed.

Lemma match_here_group_single p re s :
  match_here (Group [p] :: re) s =
  flat_map (fun mr => map (fun gr => (mr.1 :: gr.1, gr.2)) (match_here re mr.2))
           (piece_splits p s).
Proof.
  cbn [match_here pieces_splits].
  induction (piece_splits p s) as [|[m r] l IH]; [done|].
  cbn [flat_map map fst snd app]. rewrite append_nil_r.
  cbn [flat_map map fst snd app] in IH. rewrite IH. done.
Qed.

Lemma head_star cs a r :
  all_chars cs a = true -> stops cs r ->
  head (piece_splits (Piece cs Star) (a +:+ r)) = Some (a, r).
Proof. intros Ha Hr. simpl. by destruct (star_splits_first cs a r Ha Hr) as [l ->]. Qed.

Lemma head_plus cs a r :
  all_chars cs a = true -> a <> "" -> stops cs r ->
  head (piece_splits (Piece cs Plus) (a +:+ r)) = Some (a, r).
Proof.
  intros Ha Hne Hr. destruct a as [|c a]; [done|]. simpl in *.
  apply andb_true_iff in Ha as [-> Ha].
  by destruct (star_splits_first cs a r Ha Hr) as [l ->].
Qed.

(** The splits of a greedy star over a text that begins with a run of
    the set: those that take the run and more, in order, then the
    shorter ones. *)
Lemma star_splits_prefix cs a r :
  all_chars cs a = true ->
  exists l, star_splits cs (a +:+ r) =
            map (fun mr => (a +:+ mr.1, mr.2)) (star_splits cs r) ++ l.
Proof.
  intros Ha. induction a as [|c a IH]; simpl in *.
  - exists []. rewrite List.app_nil_r. induction (star_splits cs r) as [|[] ? IH']; simpl; congruence.
  - apply andb_true_iff in Ha as [-> Ha]. destruct (IH Ha) as [l ->].
    eexists. rewrite map_app, map_map, <- List.app_assoc. done.
Qed.

End ReFacts.

(** ** The statistics lines of the protocol *)

Module StatFacts.
Import Text TextFacts Re ReNotions ReFacts MemcachedStats StatNotions.

Lemma stat_regex_eq :
  _stat_regex =
  lits "STAT " ++ Group [Piece dot Star] :: lits " " ++
  [Group number_group; Lit (Piece (lit cr) Once)].
Proof. reflexivity. Qed.

Lemma stat_regex_nl_free : nl_free _stat_regex.
Proof. repeat constructor. Qed.

Lemma stat_regex_starts : starts_with_char _stat_regex.
Proof. reflexivity. Qed.

Lemma plus_nonempty cs s m r : (m, r) ∈ piece_splits (Piece cs Plus) s -> m <> "".
Proof.
  simpl. destruct s as [|c s]; [by intros ?%elem_of_nil|].
  destruct (cs c); [|by intros ?%elem_of_nil].
  intros ([m' r'] & ? & _)%list_elem_of_fmap. by simplify_eq/=.
Qed.

Lemma opt_point s m r :
  (m, r) ∈ piece_splits (Piece (lit ".") Opt) s -> m = "" \/ m = ".".
Proof.
  simpl. destruct s as [|c s].
  { intros ?%list_elem_of_singleton. simplify_eq. by left. }
  unfold lit. destruct (Ascii.eqb_spec "." c) as [<-|].
  - intros [?|?%list_elem_of_singleton]%elem_of_cons; simplify_eq; auto.
  - intros ?%list_elem_of_singleton. simplify_eq. by left.
Qed.

Lemma number_group_sound s m r :
  (m, r) ∈ pieces_splits number_group s -> number_text m.
Proof.
  intros (m1 & r1 & m' & H1 & H' & ->)%elem_of_pieces_splits_cons.
  apply elem_of_pieces_splits_cons in H' as (m2 & r2 & m'' & H2 & H'' & ->).
  apply elem_of_pieces_splits_cons in H'' as (m3 & r3 & m''' & H3 & H''' & ->).
  simpl in H'''. apply list_elem_of_singleton in H'''. simplify_eq.
  rewrite append_nil_r.
  pose proof (plus_nonempty _ _ _ _ H1) as Hne.
  apply piece_splits_sound in H1 as [_ Hd1].
  apply piece_splits_sound in H3 as [_ Hd3].
  unfold digit in *.
  apply opt_point in H2 as [->| ->].
  - exists (m1 +:+ m3), "", "". simpl. rewrite !append_nil_r, all_chars_app, Hd1, Hd3.
    split_and!; auto. by destruct m1.
  - exists m1, ".", m3. split_and!; auto.
Qed.

(** The groups of any match of [_stat_regex]: a name and a number. *)
Lemma stat_match_number s gs r :
  (gs, r) ∈ match_here _stat_regex s ->
  exists name num, gs = [name; num] /\ number_text num.
Proof.
  rewrite stat_regex_eq.
  intros (s1 & -> & H)%elem_of_match_here_lits.
  apply elem_of_match_here_group in H as (name & r1 & gs1 & _ & -> & H).
  apply elem_of_match_here_lits in H as (s2 & -> & H).
  apply elem_of_match_here_group in H as (num & r2 & gs2 & Hnum & -> & H).
  apply elem_of_match_here_lit in H as (? & r3 & _ & H).
  simpl in H. apply list_elem_of_singleton in H. simplify_eq.
  eauto using number_group_sound.
Qed.

Lemma number_group_first num :
  number_text num ->
  head (pieces_splits number_group (num +:+ String cr "")) = Some (num, String cr "").
Proof.
  intros (d1 & pt & d2 & -> & Hd1 & Hne & Hpt & Hd2).
  rewrite !append_assoc.
  replace (d1 +:+ pt +:+ d2) with (d1 +:+ pt +:+ d2 +:+ "")
    by (by rewrite append_nil_r).
  eapply head_pieces_splits_cons.
  { apply head_plus; [done..|]. destruct Hpt as [[-> ->]| ->]; done. }
  eapply (head_pieces_splits_cons _ _ _ pt (d2 +:+ String cr "")).
  { destruct Hpt as [[-> ->]| ->]; simpl; done. }
  eapply head_pieces_splits_cons; [|done].
  apply head_star; done.
Qed.

Lemma not_blank_suffix (a m r : string) :
  all_chars (fun c => negb (Ascii.eqb c " ")) a = true ->
  a = m +:+ r -> match r with String c _ => c <> " "%char | "" => True end.
Proof.
  intros Ha ->. rewrite all_chars_app in Ha. apply andb_true_iff in Ha as [_ Ha].
  destruct r as [|c r]; [done|]. simpl in Ha. apply andb_true_iff in Ha as [Hc _].
  intros ->. done.
Qed.

Lemma digits_not_blank s :
  all_chars is_digit s = true -> all_chars (fun c => negb (Ascii.eqb c " ")) s = true.
Proof.
  induction s as [|c s IH]; simpl; [done|].
  intros [Hc Hs]%andb_true_iff. rewrite IH by done.
  destruct (Ascii.eqb_spec c " ") as [->|]; done.
Qed.

Lemma number_not_blank num :
  number_text num ->
  all_chars (fun c => negb (Ascii.eqb c " ")) (num +:+ String cr "") = true.
Proof.
  intros (d1 & pt & d2 & -> & Hd1 & Hne & Hpt & Hd2).
  rewrite !all_chars_app, (digits_not_blank d1), (digits_not_blank d2) by done.
  destruct Hpt as [[-> _]| ->]; reflexivity.
Qed.

(** A well-formed statistics line has exactly its name and number as
    match: the name is all that stands before the last blank. *)
Lemma stat_match_line name num :
  all_chars dot name = true -> number_text num ->
  match_at _stat_regex ("STAT " +:+ name +:+ " " +:+ num +:+ String cr "")
  = Some ([name; num], "").
Proof.
  intros Hname Hnum. rewrite stat_regex_eq, match_at_lits.
  set (re' := lits " " ++ [Group number_group; Lit (Piece (lit cr) Once)]).
  set (tail := " " +:+ num +:+ String cr "").
  assert (Htail : match_at re' tail = Some ([num], "")).
  { unfold re', tail. rewrite match_at_lits.
    eapply head_match_here_group; [by apply number_group_first|].
    rewrite match_at_lit_once by apply Ascii.eqb_refl. done. }
  unfold match_at. fold tail. rewrite match_here_group_single. cbn [piece_splits].
  destruct (star_splits_prefix dot name tail Hname) as [l ->].
  destruct (star_splits_last dot tail) as (l0 & Hl0 & Hne).
  assert (Hsound := star_splits_sound dot tail). rewrite Hl0 in Hsound |- *.
  rewrite map_app, !flat_map_app, <- !List.app_assoc.
  rewrite head_app_nil.
  2:{ rewrite flat_map_map. apply flat_map_nil. intros [m r] Hin. cbn [fst snd].
      assert (Hmr : tail = m +:+ r) by (apply Hsound; apply elem_of_app; auto).
      specialize (Hne _ _ Hin). destruct m as [|c m]; [done|].
      unfold tail in Hmr. simpl in Hmr. injection Hmr as <- Hmr.
      pose proof (not_blank_suffix _ _ _ (number_not_blank _ Hnum) Hmr) as Hr.
      unfold re'. simpl. destruct r as [|c r]; [done|].
      unfold lit. destruct (Ascii.eqb_spec " " c); [congruence|]. done. }
  cbn [map flat_map fst snd]. rewrite !append_nil_r, List.app_nil_r. apply head_app_some.
  unfold match_at in Htail. destruct (match_here re' tail) as [|[] ?]; simplify_eq/=. done.
Qed.

End StatFacts.

(** ** Reading back what was printed or parsed *)

Module FloatFacts.
Import Text TextFacts Float FloatNotions.

Lemma is_digit_range c :
  is_digit c = true <-> (48 <= nat_of_ascii c <= 57)%nat.
Proof.
  unfold is_digit. rewrite andb_true_iff, !Nat.leb_le. done.
Qed.

Lemma digit_not_space c : is_digit c = true -> is_space c = false.
Proof.
  rewrite is_digit_range. unfold is_space. intros [H1 H2].
  assert ((nat_of_ascii c <=? 13)%nat = false) as -> by (apply Nat.leb_gt; lia).
  assert ((nat_of_ascii c <=? 32)%nat = false) as -> by (apply Nat.leb_gt; lia).
  assert ((nat_of_ascii c =? 133)%nat = false) as -> by (apply Nat.eqb_neq; lia).
  assert ((nat_of_ascii c =? 160)%nat = false) as -> by (apply Nat.eqb_neq; lia).
  by rewrite !andb_false_r.
Qed.

(** The blanks of [float] are blanks of [strip]. *)
Lemma float_space_space c : is_float_space c = true -> is_space c = true.
Proof.
  destruct c as [[] [] [] [] [] [] [] []]; vm_compute; done.
Qed.

Lemma digit_lower c : is_digit c = true -> lower c = c.
Proof.
  rewrite is_digit_range. unfold lower. intros [H1 H2].
  replace (65 <=? nat_of_ascii c)%nat with false; [done|].
  symmetry. apply Nat.leb_gt. lia.
Qed.

Lemma digit_neq c (a : ascii) : is_digit c = true -> is_digit a = false -> Ascii.eqb c a = false.
Proof. intros Hc Ha. destruct (Ascii.eqb_spec c a); congruence. Qed.

Lemma rstrip_no_space s : no_space s -> rstrip s = s.
Proof.
  unfold no_space. induction s as [|c s IH]; simpl; [done|].
  intros [Hc Hs]%andb_true_iff. rewrite IH by done.
  destruct s; [|done]. by destruct (is_space c).
Qed.

Lemma strip_no_space s : no_space s -> strip s = s.
Proof.
  intros Hs. unfold strip. replace (lstrip s) with s; [by apply rstrip_no_space|].
  destruct s as [|c s]; simpl; [done|]. unfold no_space in Hs. simpl in Hs.
  apply andb_true_iff in Hs as [Hc _]. by destruct (is_space c).
Qed.

Lemma strip_of_none p s :
  all_chars (fun c => negb (p c)) s = true -> strip_of p s = s.
Proof.
  intros Hs. unfold strip_of.
  assert (lstrip_of p s = s) as ->.
  { destruct s as [|c s]; simpl in *; [done|].
    apply andb_true_iff in Hs as [Hc _]. by destruct (p c). }
  induction s as [|c s IH]; simpl in *; [done|].
  apply andb_true_iff in Hs as [Hc Hs]. rewrite IH by done.
  destruct s; [|done]. by destruct (p c).
Qed.

Lemma strip_float_no_space s : no_space s -> strip_of is_float_space s = s.
Proof.
  intros Hs. apply strip_of_none. unfold no_space in Hs.
  induction s as [|c s IH]; simpl in *; [done|].
  apply andb_true_iff in Hs as [Hc Hs]. rewrite IH by done.
  destruct (is_float_space c) eqn:E; [|done].
  apply float_space_space in E. by rewrite E in Hc.
Qed.

Lemma digits_no_space s : all_chars is_digit s = true -> no_space s.
Proof.
  unfold no_space. induction s as [|c s IH]; simpl; [done|].
  intros [Hc Hs]%andb_true_iff. rewrite IH by done. by rewrite digit_not_space.
Qed.

Lemma no_space_app a b : no_space a -> no_space b -> no_space (a +:+ b).
Proof. unfold no_space. intros Ha Hb. by rewrite all_chars_app, Ha, Hb. Qed.

Lemma span_digits_run d r :
  all_chars is_digit d = true -> ends_run r -> span_digits (d +:+ r) = (d, r).
Proof.
  intros Hd Hr. induction d as [|c d IH]; simpl in *.
  - destruct r as [|c r]; [done|]. simpl. destruct Hr as [-> _]. done.
  - apply andb_true_iff in Hd as [Hc Hd]. rewrite Hc.
    specialize (IH Hd). destruct d as [|c' d]; simpl in *.
    + destruct r as [|c' r]; [done|]. destruct Hr as [Hr1 Hr2].
      rewrite Hr2. simpl. by rewrite Hr1.
    + apply andb_true_iff in Hd as [Hc' Hd].
      rewrite (digit_neq c' "_") by done. rewrite Hc' in IH |- *.
      by rewrite IH.
Qed.

Lemma span_digits_all d : all_chars is_digit d = true -> span_digits d = (d, "").
Proof.
  intros Hd. rewrite <- (append_nil_r d) at 1. by apply span_digits_run.
Qed.

Lemma exponent_ends_run e : exponent_text e -> ends_run e.
Proof. intros [->|(sg & d & -> & _)]; done. Qed.

Lemma parse_exponent_text e :
  exponent_text e -> exists v, parse_exponent e = Some (v, "").
Proof.
  intros [->|(sg & d & -> & Hsg & Hd & Hne)]; [by eexists|].
  unfold parse_exponent. simpl.
  change (Ascii.eqb (lower "e") "e") with true. cbv iota.
  assert (split_sign (sg +:+ d) = (sg =? "-", d)%string) as ->
    by (by destruct Hsg as [-> | ->]).
  rewrite span_digits_all by done. destruct d; [done|]. eauto.
Qed.

Lemma parse_decimal_text s :
  decimal_text s -> exists m e, parse_decimal s = Some (m, e).
Proof.
  intros (d & f & e & -> & Hd & Hne & Hf & He).
  unfold parse_decimal.
  destruct (parse_exponent_text e He) as [v Hv].
  destruct Hf as [->|(d2 & -> & Hd2)].
  - simpl. rewrite span_digits_run by eauto using exponent_ends_run.
    assert (split_fraction e = ("", e)) as ->.
    { destruct He as [->|(sg & d' & -> & _)]; done. }
    rewrite append_nil_r, Hv. destruct d; [done|]. eauto.
  - rewrite span_digits_run by done.
    unfold split_fraction. simpl.
    change (Ascii.eqb "." ".") with true. cbv iota.
    rewrite span_digits_run by eauto using exponent_ends_run.
    rewrite Hv. destruct d; [done|]. simpl. eauto.
Qed.

Lemma decimal_no_space s : decimal_text s -> no_space s.
Proof.
  intros (d & f & e & -> & Hd & Hne & Hf & He).
  apply no_space_app; [by apply digits_no_space|]. apply no_space_app.
  - destruct Hf as [->|(d2 & -> & Hd2)]; [done|].
    apply no_space_app; [done|by apply digits_no_space].
  - destruct He as [->|(sg & d3 & -> & Hsg & Hd3 & _)]; [done|].
    apply no_space_app; [done|].
    apply no_space_app; [by destruct Hsg as [-> | ->]|by apply digits_no_space].
Qed.

Lemma decimal_head s :
  decimal_text s -> exists c r, s = String c r /\ is_digit c = true.
Proof.
  intros (d & f & e & -> & Hd & Hne & _). destruct d as [|c d]; [done|].
  simpl in Hd. apply andb_true_iff in Hd as [Hc _]. simpl. eauto.
Qed.

(** [float] succeeds on a decimal literal, signed or not. *)
Lemma of_string_unsigned s : decimal_text s -> is_Some (of_string s).
Proof.
  intros Hs. unfold of_string. rewrite strip_float_no_space by by apply decimal_no_space.
  destruct (decimal_head s Hs) as (c & r & -> & Hc).
  unfold split_sign. rewrite !(digit_neq c) by done.
  simpl map_chars. rewrite digit_lower by done.
  assert (forall t, String.eqb (String c (map_chars lower r)) t = true ->
                    exists t', t = String c t') as Hhead.
  { intros t <-%String.eqb_eq. eauto. }
  destruct (String.eqb _ "inf") eqn:E1.
  { apply Hhead in E1 as [? E1]. injection E1 as <- _. done. }
  destruct (String.eqb _ "infinity") eqn:E2.
  { apply Hhead in E2 as [? E2]. injection E2 as <- _. done. }
  destruct (String.eqb _ "nan") eqn:E3.
  { apply Hhead in E3 as [? E3]. injection E3 as <- _. done. }
  simpl. destruct (parse_decimal_text _ Hs) as (m & e & ->). eauto.
Qed.

Lemma of_string_negative s : decimal_text s -> is_Some (of_string (String "-" s)).
Proof.
  intros Hs. unfold of_string.
  rewrite strip_float_no_space
    by (apply (no_space_app "-" s); [done|by apply decimal_no_space]).
  unfold split_sign. change (Ascii.eqb "-" "-") with true. cbv iota.
  destruct (decimal_head s Hs) as (c & r & -> & Hc).
  simpl map_chars. rewrite digit_lower by done.
  assert (forall t, String.eqb (String c (map_chars lower r)) t = true ->
                    exists t', t = String c t') as Hhead.
  { intros t <-%String.eqb_eq. eauto. }
  destruct (String.eqb _ "inf") eqn:E1.
  { apply Hhead in E1 as [? E1]. injection E1 as <- _. done. }
  destruct (String.eqb _ "infinity") eqn:E2.
  { apply Hhead in E2 as [? E2]. injection E2 as <- _. done. }
  destruct (String.eqb _ "nan") eqn:E3.
  { apply Hhead in E3 as [? E3]. injection E3 as <- _. done. }
  simpl. destruct (parse_decimal_text _ Hs) as (m & e & ->). eauto.
Qed.

(** *** What [repr] prints *)

Lemma digit_char_digit d : is_digit (digit_char (d mod 10)) = true.
Proof.
  apply is_digit_range. unfold digit_char.
  pose proof (Z.mod_pos_bound d 10 ltac:(lia)).
  rewrite nat_ascii_embedding by lia. lia.
Qed.

Lemma digits_fuel_digits fuel n acc :
  all_chars is_digit acc = true -> all_chars is_digit (digits_fuel fuel n acc) = true.
Proof.
  revert n acc. induction fuel as [|fuel IH]; intros n acc Hacc; simpl; [done|].
  assert (all_chars is_digit (String (digit_char (n mod 10)) acc) = true) as H
    by (cbn [all_chars]; by rewrite digit_char_digit).
  destruct (n <? 10); [done|]. by apply IH.
Qed.

Lemma digits_fuel_nonempty fuel n acc :
  acc <> "" -> digits_fuel fuel n acc <> "".
Proof.
  revert n acc. induction fuel as [|fuel IH]; intros n acc Hacc; simpl; [done|].
  destruct (n <? 10); [done|]. by apply IH.
Qed.

Lemma str_of_nonneg_digits n :
  all_chars is_digit (str_of_nonneg n) = true /\ str_of_nonneg n <> "".
Proof.
  unfold str_of_nonneg. split.
  - by apply digits_fuel_digits.
  - simpl. destruct (n <? 10); [done|]. by apply digits_fuel_nonempty.
Qed.

Lemma substring_all p n m s :
  all_chars p s = true -> all_chars p (substring n m s) = true.
Proof.
  revert n m. induction s as [|c s IH]; intros n m; simpl.
  - by destruct n, m.
  - intros [Hc Hs]%andb_true_iff. destruct n as [|n].
    + destruct m as [|m]; simpl; [done|]. by rewrite Hc, IH.
    + by apply IH.
Qed.

Lemma substring_head m s : s <> "" -> (0 < m)%nat -> substring 0 m s <> "".
Proof. destruct s, m; simpl; (done || lia). Qed.

Lemma zeros_digits n : all_chars is_digit (zeros n) = true.
Proof. induction n; simpl; [done|]. by rewrite IHn. Qed.

Lemma layout_decimal ds k :
  all_chars is_digit ds = true -> ds <> "" -> decimal_text (layout ds k).
Proof.
  intros Hds Hne. unfold layout.
  destruct ((-4 <? k) && (k <=? 16)) eqn:Hplain.
  - destruct (k <=? 0) eqn:Hk0; [|destruct (_ <=? k) eqn:Hkn].
    + exists "0", ("." +:+ zeros (Z.to_nat (- k)) +:+ ds), "".
      split_and!; [by rewrite append_nil_r|done|done| |by left].
      right. eexists. split; [done|]. by rewrite all_chars_app, zeros_digits, Hds.
    + exists (ds +:+ zeros (Z.to_nat (k - Z.of_nat (String.length ds)))), ".0", "".
      split_and!; [by rewrite append_assoc| |by destruct ds| |by left].
      * by rewrite all_chars_app, zeros_digits, Hds.
      * right. by exists "0".
    + eexists (substring 0 (Z.to_nat k) ds), ("." +:+ _), "".
      split_and!; [by rewrite append_nil_r| | | |by left].
      * by apply substring_all.
      * apply substring_head; [done|]. apply Z.leb_gt in Hk0. lia.
      * right. eexists. split; [done|]. by apply substring_all.
  - set (e := k - 1).
    set (es := if Z.abs e <? 10 then _ else _).
    assert (all_chars is_digit es = true /\ es <> "") as [Hes Hes'].
    { unfold es. destruct (str_of_nonneg_digits (Z.abs e)) as [H1 H2].
      destruct (Z.abs e <? 10); [|done]. simpl. by rewrite H1. }
    assert (exponent_text ("e" +:+ (if e <? 0 then "-" else "+") +:+ es)) as Hex.
    { right. exists (if e <? 0 then "-" else "+"), es.
      split_and!; [done| |done|done]. destruct (e <? 0); auto. }
    eexists (substring 0 1 ds), _, _. split; [done|].
    split_and!; [by apply substring_all|apply substring_head; [done|lia]| |done].
    destruct (1 <? _); [|by left].
    right. eexists. split; [done|]. by apply substring_all.
Qed.

Lemma repr_finite_decimal m e : decimal_text (repr_finite m e).
Proof.
  unfold repr_finite.
  destruct (shortest _ _ _ _ _ _) as [c ce]. destruct (strip_zeros _ _ _) as [c' ce'].
  destruct (str_of_nonneg_digits c'). by apply layout_decimal.
Qed.

(** Every text [repr] prints is read back by [float]. *)
Theorem of_string_repr x : is_Some (of_string (repr x)).
Proof.
  destruct x as [[]|[]| |[] m e]; simpl; try by eexists.
  - apply of_string_negative, repr_finite_decimal.
  - apply of_string_unsigned, repr_finite_decimal.
Qed.

(** A separator before the digits: [strip] takes it, [float] does not. *)
Example of_string_separator :
  strip (String (ascii_of_nat 28) "50") = "50" /\
  of_string (String (ascii_of_nat 28) "50") = None /\
  of_string (String " " "50") = of_string "50".
Proof. split_and!; vm_compute; reflexivity. Qed.

(** So is every number of a statistics line. *)
Theorem of_string_number s : StatNotions.number_text s -> is_Some (of_string s).
Proof.
  intros (d1 & pt & d2 & -> & Hd1 & Hne & Hpt & Hd2).
  apply of_string_unsigned. destruct Hpt as [[-> ->]| ->].
  - exists d1, "", "". split_and!; [done..|by left|by left].
  - exists d1, ("." +:+ d2), "". split_and!; [by rewrite append_nil_r|done..| |by left].
    right. eauto.
Qed.

End FloatFacts.

(** ** Dictionaries *)

Module DictFacts.
Import Dict.

Lemma mem_get k (d : dict) : mem k d = true <-> is_Some (get k d).
Proof. unfold mem. destruct (get k d); split; (done || by intros []). Qed.

Lemma mem_false k (d : dict) : mem k d = false <-> get k d = None.
Proof. unfold mem. by destruct (get k d). Qed.

Lemma get_set_eq k v (d : dict) : get k (set k v d) = Some v.
Proof.
  induction d as [|[k' v'] d IH]; simpl.
  - by rewrite String.eqb_refl.
  - destruct (String.eqb k k') eqn:E; simpl; by rewrite ?String.eqb_refl, ?E.
Qed.

Lemma get_set_ne k k' v (d : dict) : k <> k' -> get k' (set k v d) = get k' d.
Proof.
  intros Hne. induction d as [|[k0 v0] d IH]; simpl.
  - destruct (String.eqb_spec k' k); congruence.
  - destruct (String.eqb_spec k k0) as [->|]; simpl.
    + destruct (String.eqb_spec k' k0); [congruence|done].
    + by rewrite IH.
Qed.

Lemma get_remove_eq k (d : dict) : get k (remove k d) = None.
Proof.
  induction d as [|[k' v'] d IH]; simpl; [done|].
  destruct (String.eqb k k') eqn:E; simpl; by rewrite ?E.
Qed.

Lemma get_remove_ne k k' (d : dict) : k <> k' -> get k' (remove k d) = get k' d.
Proof.
  intros Hne. induction d as [|[k0 v0] d IH]; simpl; [done|].
  destruct (String.eqb_spec k k0) as [->|]; simpl.
  - destruct (String.eqb_spec k' k0); [congruence|done].
  - by rewrite IH.
Qed.

Lemma remove_absent k (d : dict) : get k d = None -> remove k d = d.
Proof.
  induction d as [|[k' v'] d IH]; simpl; [done|].
  destruct (String.eqb k k'); [done|]. intros ?. by rewrite IH.
Qed.

Lemma get_elem_of k v (d : dict) : get k d = Some v -> (k, v) ∈ d.
Proof.
  induction d as [|[k' v'] d IH]; simpl; [done|].
  destruct (String.eqb_spec k k') as [->|].
  - intros [= ->]. left.
  - intros ?. right. auto.
Qed.

Lemma elem_of_get k v (d : dict) : NoDup (keys d) -> (k, v) ∈ d -> get k d = Some v.
Proof.
  induction d as [|[k' v'] d IH]; simpl.
  - by intros _ ?%elem_of_nil.
  - intros [Hk' Hd]%NoDup_cons [[= -> ->]|Hin]%elem_of_cons.
    + by rewrite String.eqb_refl.
    + destruct (String.eqb_spec k k') as [->|]; [|auto].
      destruct Hk'. apply list_elem_of_fmap. by exists (k', v).
Qed.

Lemma elem_of_set kv k v (d : dict) : kv ∈ set k v d -> kv = (k, v) \/ kv ∈ d.
Proof.
  induction d as [|[k' v'] d IH]; simpl.
  - intros ?%list_elem_of_singleton. auto.
  - destruct (String.eqb k k').
    + intros [?|?]%elem_of_cons; [auto|]. right. by right.
    + intros [->|[?|?]%IH]%elem_of_cons; [right; left|auto|right; by right].
Qed.

Lemma elem_of_remove kv k (d : dict) : kv ∈ remove k d -> kv ∈ d.
Proof.
  induction d as [|[k' v'] d IH]; simpl; [done|].
  destruct (String.eqb k k').
  - intros ?. right. auto.
  - intros [->|?]%elem_of_cons; [left|]. right. auto.
Qed.

Lemma keys_set k v (d : dict) :
  keys (set k v d) = if mem k d then keys d else keys d ++ [k].
Proof.
  unfold mem. induction d as [|[k' v'] d IH]; simpl; [done|].
  destruct (String.eqb_spec k k') as [->|]; simpl; [done|].
  rewrite IH. by destruct (get k d).
Qed.

Lemma NoDup_set k v (d : dict) : NoDup (keys d) -> NoDup (keys (set k v d)).
Proof.
  intros Hd. rewrite keys_set. destruct (mem k d) eqn:E; [done|].
  apply NoDup_app. split_and!; [done| |apply NoDup_singleton].
  intros k' Hk' ->%list_elem_of_singleton.
  apply list_elem_of_fmap in Hk' as ([k0 v0] & -> & Hin). simpl in E.
  apply mem_false in E. apply (elem_of_get _ _ _ Hd) in Hin. congruence.
Qed.

Lemma NoDup_remove k (d : dict) : NoDup (keys d) -> NoDup (keys (remove k d)).
Proof.
  induction d as [|[k' v'] d IH]; simpl; [done|].
  intros [Hk' Hd]%NoDup_cons. destruct (String.eqb k k'); [auto|].
  simpl. apply NoDup_cons. split; [|auto].
  intros ([k0 v0] & -> & Hin%elem_of_remove)%list_elem_of_fmap.
  apply Hk'. apply list_elem_of_fmap. by exists (k0, v0).
Qed.

Lemma of_pairs_ind (P : dict -> Prop) (Q : string * string -> Prop) l :
  P [] -> (forall d kv, P d -> Q kv -> P (set kv.1 kv.2 d)) ->
  Forall Q l -> P (of_pairs l).
Proof.
  intros H0 Hstep Hl. unfold of_pairs. generalize ([] : dict) H0.
  induction Hl as [|kv l Hkv Hl IH]; simpl; [done|].
  intros d Hd. apply IH. by apply Hstep.
Qed.

Lemma NoDup_of_pairs l : NoDup (keys (of_pairs l)).
Proof.
  apply (of_pairs_ind (fun d => NoDup (keys d)) (fun _ => True)).
  - apply NoDup_nil_2.
  - intros. by apply NoDup_set.
  - by apply Forall_true.
Qed.

(** A dictionary built from pairs without a repeated key is the list. *)
Lemma of_pairs_NoDup l : NoDup (map fst l) -> of_pairs l = l.
Proof.
  unfold of_pairs. intros Hl.
  enough (forall d, (forall k, k ∈ map fst l -> get k d = None) ->
                    fold_left (fun d kv => set kv.1 kv.2 d) l d = d ++ l) as H
    by (by apply (H [])).
  induction l as [|[k v] l IH]; simpl in *; intros d Hd.
  - by rewrite List.app_nil_r.
  - apply NoDup_cons in Hl as [Hk Hl]. rewrite IH; [|done|].
    + assert (set k v d = d ++ [(k, v)]) as ->.
      { specialize (Hd k ltac:(left)). clear -Hd.
        induction d as [|[k' v'] d IH]; simpl in *; [done|].
        destruct (String.eqb k k'); [done|]. by rewrite IH. }
      by rewrite <- List.app_assoc.
    + intros k' Hk'. destruct (decide (k = k')) as [->|]; [done|].
      rewrite get_set_ne by done. apply Hd. by right.
Qed.

End DictFacts.

(** ** Computations *)

Module MonadFacts.
Import MonadNotions.

Lemma bind_run {S A B} (m : M S A) (k : A -> M S B) s :
  bind m k s =
  match m s with
  | (inr a, s', t) => let '(r, s'', t') := k a s' in (r, s'', t ++ t')
  | (inl e, s', t) => (inl e, s', t)
  end.
Proof. done. Qed.

Lemma bind_inr {S A B} (m : M S A) (k : A -> M S B) s a s' t :
  m s = (inr a, s', t) ->
  bind m k s = ((k a s').1.1, (k a s').1.2, t ++ (k a s').2).
Proof. intros H. unfold bind. rewrite H. by destruct (k a s') as [[] ?]. Qed.

Lemma bind_inl {S A B} (m : M S A) (k : A -> M S B) s e s' t :
  m s = (inl e, s', t) -> bind m k s = (inl e, s', t).
Proof. intros H. unfold bind. by rewrite H. Qed.

Lemma bind_ret_run {S A B} (m : M S A) (f : A -> B) s :
  bind m (fun a => ret (f a)) s =
  match m s with
  | (inr a, s', t) => (inr (f a), s', t)
  | (inl e, s', t) => (inl e, s', t)
  end.
Proof.
  unfold bind, ret. destruct (m s) as [[[e|a] s'] t]; [done|].
  by rewrite List.app_nil_r.
Qed.

Lemma logs_only_ret {S A} (a : A) : logs_only (ret (S := S) a).
Proof. intros s. constructor. Qed.

Lemma logs_only_raise {S A} e : logs_only (raise (S := S) (A := A) e).
Proof. intros s. constructor. Qed.

Lemma logs_only_get_state {S} : logs_only (get_state (S := S)).
Proof. intros s. constructor. Qed.

Lemma logs_only_modify {S} (f : S -> S) : logs_only (modify f).
Proof. intros s. constructor. Qed.

Lemma logs_only_logging {S} l msg : logs_only (logging (S := S) l msg).
Proof. intros s. by repeat constructor. Qed.

Lemma logs_only_lift_result {S A} (r : exn + A) : logs_only (lift_result (S := S) r).
Proof. intros s. constructor. Qed.

Lemma logs_only_lift_option {S A} e (o : option A) : logs_only (lift_option (S := S) e o).
Proof. destruct o; [apply logs_only_ret|apply logs_only_raise]. Qed.

Lemma logs_only_bind {S A B} (m : M S A) (k : A -> M S B) :
  logs_only m -> (forall a, logs_only (k a)) -> logs_only (bind m k).
Proof.
  intros Hm Hk s. unfold bind. specialize (Hm s).
  destruct (m s) as [[[e|a] s'] t]; [done|]. specialize (Hk a s').
  destruct (k a s') as [[r s''] t']. cbn in *. by apply Forall_app.
Qed.

Lemma logs_only_try_except {S A} (m : M S A) (h : exn -> option (M S A)) :
  logs_only m -> (forall e k, h e = Some k -> logs_only k) -> logs_only (try_except m h).
Proof.
  intros Hm Hh s. unfold try_except. specialize (Hm s).
  destruct (m s) as [[[e|a] s'] t]; [|done].
  assert (Forall is_log
            (match h e with
             | Some k => let '(r, s'', t') := k s' in (r, s'', t ++ t')
             | None => (inl e, s', t)
             end).2) as Hgen.
  { destruct (h e) as [k|] eqn:E; [|done]. specialize (Hh e k E s').
    destruct (k s') as [[r s''] t']. cbn in *. by apply Forall_app. }
  destruct e; done || exact Hgen.
Qed.

Create HintDb logs discriminated.
#[export] Hint Resolve logs_only_ret logs_only_raise logs_only_get_state logs_only_modify
  logs_only_logging logs_only_lift_result logs_only_lift_option : logs.
#[export] Hint Extern 2 (logs_only (bind _ _)) => apply logs_only_bind; [|intros] : logs.
#[export] Hint Extern 2 (logs_only (match ?x with _ => _ end)) => destruct x : logs.

End MonadFacts.

(** ** The statistics normaliser *)

Module NormalizerFacts.
Import Dict DictFacts MonadNotions MonadFacts Normalizer NormalizerNotions.

(** *** Running the blocks *)

Lemma getitem_float_run {A} k (d : dict) (f : Float.float -> M dict A) :
  (v <- getitem k ;; x <- float v ;; f x) d =
  match read_float k d with
  | inl e => (inl e, d, [])
  | inr x => f x d
  end.
Proof.
  unfold bind, getitem, read_float, float, lift_option.
  destruct (get k d) as [v|]; [|done].
  destruct (Float.of_string v); cbn; [|done]. by destruct (f f0 d) as [[] ?].
Qed.

Lemma read_float_error k d e :
  read_float k d = inl e -> e = KeyError k \/ e = ValueError.
Proof.
  unfold read_float. destruct (get k d) as [v|]; [|intros [= <-]; auto].
  destruct (Float.of_string v); [done|]. intros [= <-]. auto.
Qed.

Lemma usage_block_run d :
  usage_block d =
  match usage_value d with
  | inl e => (inl e, d, [])
  | inr u => (inr tt, set "usage" u d, [])
  end.
Proof.
  unfold usage_block, usage_value. rewrite getitem_float_run.
  destruct (read_float "bytes" d) as [|b]; [done|]. rewrite getitem_float_run.
  destruct (read_float "limit_maxbytes" d) as [|l]; [done|].
  unfold bind, lift_result, Float.truediv, setitem, modify, usage_text.
  by destruct (Float.is_zero l).
Qed.

Lemma ratio_block_run h m r d :
  ratio_block h m r d =
  match ratio_value h m d with
  | inl e => (inl e, d, [])
  | inr v => (inr tt, set r v d, [])
  end.
Proof.
  unfold ratio_block, ratio_value, try_except. rewrite getitem_float_run.
  destruct (read_float h d) as [e|fh] eqn:Eh.
  { by destruct (read_float_error _ _ _ Eh) as [-> | ->]. }
  cbv beta. rewrite getitem_float_run, Eh. cbv beta. rewrite getitem_float_run.
  destruct (read_float m d) as [e|fm] eqn:Em.
  { by destruct (read_float_error _ _ _ Em) as [-> | ->]. }
  unfold bind, lift_result, Float.truediv, setitem, modify, ratio_text.
  by destruct (Float.is_zero (Float.add fh fm)).
Qed.

Lemma delitem_run k d :
  delitem k d = if mem k d then (inr tt, remove k d, []) else (inl (KeyError k), d, []).
Proof. done. Qed.

(** *** The blocks read what the earlier ones left untouched *)

Lemma read_float_set k k' v d : k <> k' -> read_float k' (set k v d) = read_float k' d.
Proof. intros. unfold read_float. by rewrite get_set_ne. Qed.

Lemma read_float_remove k k' d : k <> k' -> read_float k' (remove k d) = read_float k' d.
Proof. intros. unfold read_float. by rewrite get_remove_ne. Qed.

Lemma mem_remove k k' d : k <> k' -> mem k' (remove k d) = mem k' d.
Proof. intros. unfold mem. by rewrite get_remove_ne. Qed.

Lemma usage_value_set k v d :
  k <> "bytes" -> k <> "limit_maxbytes" -> usage_value (set k v d) = usage_value d.
Proof. intros. unfold usage_value. by rewrite !read_float_set. Qed.

Lemma usage_value_remove k d :
  k <> "bytes" -> k <> "limit_maxbytes" -> usage_value (remove k d) = usage_value d.
Proof. intros. unfold usage_value. by rewrite !read_float_remove. Qed.

Lemma ratio_value_set k v h m d :
  k <> h -> k <> m -> ratio_value h m (set k v d) = ratio_value h m d.
Proof. intros. unfold ratio_value. by rewrite !read_float_set. Qed.

Lemma ratio_value_remove k h m d :
  k <> h -> k <> m -> ratio_value h m (remove k d) = ratio_value h m d.
Proof. intros. unfold ratio_value. by rewrite !read_float_remove. Qed.

(** No step can block: what stops the body is [KeyError], [ValueError]
    or [ZeroDivisionError]. *)
Lemma usage_value_error d e : usage_value d = inl e -> e <> Blocked.
Proof.
  unfold usage_value.
  destruct (read_float "bytes" d) as [e'|b] eqn:Eb.
  { intros [= <-]. by destruct (read_float_error _ _ _ Eb) as [-> | ->]. }
  destruct (read_float "limit_maxbytes" d) as [e'|l] eqn:El.
  { intros [= <-]. by destruct (read_float_error _ _ _ El) as [-> | ->]. }
  destruct (Float.is_zero l); [|done]. by intros [= <-].
Qed.

Lemma ratio_value_error h m d e : ratio_value h m d = inl e -> e <> Blocked.
Proof.
  unfold ratio_value.
  destruct (read_float h d) as [e'|fh] eqn:Eh.
  { intros [= <-]. by destruct (read_float_error _ _ _ Eh) as [-> | ->]. }
  destruct (read_float m d) as [e'|fm] eqn:Em; [|done].
  intros [= <-]. by destruct (read_float_error _ _ _ Em) as [-> | ->].
Qed.

Lemma normalize_not_blocked stats : (normalize stats).1 <> inl Blocked.
Proof.
  unfold normalize, set_result.
  destruct (mem "pid" stats); [|done]. destruct (mem "time" stats); [|done].
  destruct (usage_value stats) as [e|u] eqn:E0.
  { intros [= ->]. by eapply usage_value_error. }
  destruct (ratio_value "get_hits" "get_misses" stats) as [e|] eqn:E1.
  { intros [= ->]. by eapply ratio_value_error. }
  destruct (ratio_value "incr_hits" "incr_misses" stats) as [e|] eqn:E2.
  { intros [= ->]. by eapply ratio_value_error. }
  destruct (ratio_value "decr_hits" "decr_misses" stats) as [e|] eqn:E3.
  { intros [= ->]. by eapply ratio_value_error. }
  destruct (ratio_value "delete_hits" "delete_misses" stats) as [e|] eqn:E4; [|done].
  intros [= ->]. by eapply ratio_value_error.
Qed.

(** The body is [normalize], and emits nothing. *)
Theorem wrap_stats_body_run stats :
  wrap_stats_body stats = ((normalize stats).1, (normalize stats).2, []).
Proof.
  unfold wrap_stats_body, normalize.
  rewrite bind_run, delitem_run.
  destruct (mem "pid" stats); [|done].
  rewrite bind_run, delitem_run, mem_remove by done.
  destruct (mem "time" stats); [|done].
  rewrite bind_run, usage_block_run, !usage_value_remove by done.
  unfold set_result at 1.
  destruct (usage_value stats) as [|u]; [done|].
  rewrite bind_run, ratio_block_run, ratio_value_set, !ratio_value_remove by done.
  unfold set_result at 1.
  destruct (ratio_value "get_hits" "get_misses" stats) as [|r1]; [done|].
  rewrite bind_run, ratio_block_run, !ratio_value_set, !ratio_value_remove by done.
  unfold set_result at 1.
  destruct (ratio_value "incr_hits" "incr_misses" stats) as [|r2]; [done|].
  rewrite bind_run, ratio_block_run, !ratio_value_set, !ratio_value_remove by done.
  unfold set_result at 1.
  destruct (ratio_value "decr_hits" "decr_misses" stats) as [|r3]; [done|].
  rewrite ratio_block_run, !ratio_value_set, !ratio_value_remove by done.
  unfold set_result at 1.
  destruct (ratio_value "delete_hits" "delete_misses" stats) as [|r4]; done.
Qed.

Lemma wrap_stats_run {S} stats (s : S) :
  wrap_stats stats s =
  (inr (normalize stats).2, s,
   match (normalize stats).1 with
   | inl (KeyError _) => [access_error]
   | _ => []
   end).
Proof.
  unfold wrap_stats. rewrite wrap_stats_body_run.
  pose proof (normalize_not_blocked stats).
  by destruct (normalize stats).1 as [[]|].
Qed.

Lemma succeeds_normalize stats : succeeds stats <-> (normalize stats).1 = inr tt.
Proof. unfold succeeds. by rewrite wrap_stats_body_run. Qed.

(** *** What [normalize] leaves *)

Lemma read_float_numeric k d e :
  numeric d -> read_float k d = inl e -> e = KeyError k.
Proof.
  unfold read_float. intros Hd. destruct (get k d) as [v|] eqn:E; [|by intros [= <-]].
  destruct (Hd k v (get_elem_of _ _ _ E)) as [f ->]. done.
Qed.

Lemma usage_value_numeric d e :
  numeric d -> limit_not_zero d -> usage_value d = inl e -> exists k, e = KeyError k.
Proof.
  unfold usage_value, limit_not_zero. intros Hd Hl.
  destruct (read_float "bytes" d) as [e'|b] eqn:Eb.
  { intros [= <-]. eauto using read_float_numeric. }
  destruct (read_float "limit_maxbytes" d) as [e'|l] eqn:El.
  { intros [= <-]. eauto using read_float_numeric. }
  unfold read_float in El. destruct (get "limit_maxbytes" d) as [v|]; [|done].
  destruct (Float.of_string v) as [l'|] eqn:Ev; [|done].
  injection El as ->. by rewrite (Hl v l).
Qed.

Lemma ratio_value_numeric h m d e :
  numeric d -> ratio_value h m d = inl e -> exists k, e = KeyError k.
Proof.
  unfold ratio_value. intros Hd.
  destruct (read_float h d) as [e'|fh] eqn:Eh.
  { intros [= <-]. eauto using read_float_numeric. }
  destruct (read_float m d) as [e'|fm] eqn:Em; [|done].
  intros [= <-]. eauto using read_float_numeric.
Qed.

Lemma read_float_present k d f : read_float k d = inr f -> is_Some (get k d).
Proof. unfold read_float. destruct (get k d); [eauto|done]. Qed.

Lemma usage_value_present d u :
  usage_value d = inr u -> is_Some (get "bytes" d) /\ is_Some (get "limit_maxbytes" d).
Proof.
  unfold usage_value.
  destruct (read_float "bytes" d) eqn:Eb; [done|].
  destruct (read_float "limit_maxbytes" d) eqn:El; [done|].
  eauto using read_float_present.
Qed.

Lemma ratio_value_present h m d v :
  ratio_value h m d = inr v -> is_Some (get h d) /\ is_Some (get m d).
Proof.
  unfold ratio_value.
  destruct (read_float h d) eqn:Eh; [done|].
  destruct (read_float m d) eqn:Em; [done|].
  eauto using read_float_present.
Qed.

Ltac normalize_cases :=
  unfold normalize, set_result in *;
  repeat match goal with
         | |- context [mem ?k ?d] => destruct (mem k d) eqn:?
         | |- context [usage_value ?d] => destruct (usage_value d) eqn:?
         | |- context [ratio_value ?h ?m ?d] => destruct (ratio_value h m d) eqn:?
         end;
  cbn [fst snd] in *.

(** A normalisation that runs to its end has found every source key. *)
Lemma normalize_ok_keys stats k :
  (normalize stats).1 = inr tt -> k ∈ source_keys -> is_Some (get k stats).
Proof.
  intros Hok Hk. revert Hok. normalize_cases; try done. intros _.
  repeat match goal with
         | H : usage_value _ = inr _ |- _ => apply usage_value_present in H as [??]
         | H : ratio_value _ _ _ = inr _ |- _ => apply ratio_value_present in H as [??]
         end.
  unfold source_keys in Hk.
  repeat (apply elem_of_cons in Hk as [->|Hk]; [done|]).
  by apply elem_of_nil in Hk.
Qed.

Ltac frame :=
  repeat (rewrite get_set_ne by done); repeat (rewrite get_remove_ne by done).

Ltac listed :=
  unfold source_keys, derived_keys, hit_pairs, steps;
  repeat first [apply list_elem_of_here | apply list_elem_of_further].

(** The steps done and the steps left, at a given point of the body. *)
Ltac progress_at :=
  cbn [take drop steps];
  split; [reflexivity|];
  split_and!;
  [ intros ? ? Hin_;
    repeat (apply elem_of_cons in Hin_ as [[= -> ->]|Hin_];
            [eexists; split; [eassumption|frame; by rewrite ?get_set_eq]|]);
    by apply elem_of_nil in Hin_
  | intros ? ? Hin_;
    repeat (apply elem_of_cons in Hin_ as [[= -> ->]|Hin_]; [by frame|]);
    by apply elem_of_nil in Hin_
  | cbn [fst snd]; eauto ].



(** With [pid] and [time] present both are removed, and nothing but
    derived fields is added or changed. *)
Lemma normalize_frame stats :
  mem "pid" stats = true -> mem "time" stats = true ->
  get "pid" (normalize stats).2 = None /\
  get "time" (normalize stats).2 = None /\
  (forall k, k ∉ "pid" :: "time" :: derived_keys ->
             get k (normalize stats).2 = get k stats).
Proof.
  intros Hp Ht. split_and!.
  - normalize_cases; try done; frame; apply get_remove_eq.
  - normalize_cases; try done; frame; apply get_remove_eq.
  - intros k Hk. unfold derived_keys in Hk.
    repeat (apply not_elem_of_cons in Hk as [? Hk]).
    normalize_cases; try done; by frame.
Qed.

(** When it stops early, the derived field of the step that failed is
    left as it was. *)
Lemma normalize_stops stats e :
  mem "pid" stats = true -> mem "time" stats = true ->
  (normalize stats).1 = inl e ->
  exists dk, dk ∈ derived_keys /\ get dk (normalize stats).2 = get dk stats.
Proof.
  intros Hp Ht. unfold derived_keys.
  normalize_cases; try done; intros _;
    first [ exists "usage"; split; [set_solver|by frame]
          | exists "get_hit_ratio"; split; [set_solver|by frame]
          | exists "incr_hit_ratio"; split; [set_solver|by frame]
          | exists "decr_hit_ratio"; split; [set_solver|by frame]
          | exists "delete_hit_ratio"; split; [set_solver|by frame] ].
Qed.

Lemma normalize_error_kind stats e :
  numeric stats -> limit_not_zero stats ->
  (normalize stats).1 = inl e -> exists k, e = KeyError k.
Proof.
  intros Hn Hl. normalize_cases; try done; intros [= <-]; eauto;
    try (eapply ratio_value_numeric; [done|eassumption]).
  by eapply usage_value_numeric.
Qed.

(** A normalisation that runs to its end leaves [usage] and the four
    ratios, computed from the values of the input. *)
Lemma normalize_derived stats :
  (normalize stats).1 = inr tt ->
  (exists b l, read_float "bytes" stats = inr b /\
               read_float "limit_maxbytes" stats = inr l /\
               Float.is_zero l = false /\
               get "usage" (normalize stats).2 = Some (usage_text b l)) /\
  (forall h m r, (h, m, r) ∈ hit_pairs ->
     exists fh fm, read_float h stats = inr fh /\ read_float m stats = inr fm /\
                   get r (normalize stats).2 = Some (ratio_text fh fm)).
Proof.
  unfold hit_pairs. normalize_cases; try done. intros _.
  repeat match goal with
         | H : usage_value _ = inr _ |- _ =>
             unfold usage_value in H;
             destruct (read_float "bytes" stats) as [|b] eqn:?; [done|];
             destruct (read_float "limit_maxbytes" stats) as [|l] eqn:?; [done|];
             destruct (Float.is_zero l) eqn:?; [done|]; injection H as <-
         | H : ratio_value ?h ?m _ = inr _ |- _ =>
             unfold ratio_value in H;
             destruct (read_float h stats) as [|?] eqn:?; [done|];
             destruct (read_float m stats) as [|?] eqn:?; [done|];
             injection H as <-
         end.
  split.
  - exists b, l. split_and!; [done..|]. by frame; rewrite get_set_eq.
  - intros h m r Hin.
    repeat (apply elem_of_cons in Hin as [[= -> -> ->]|Hin];
            [eexists _, _; split_and!; [eassumption..|];
             frame; by rewrite get_set_eq|]).
    by apply elem_of_nil in Hin.
Qed.

(** What it takes for the normalisation to run to its end. *)
Lemma succeeds_iff stats :
  succeeds stats <->
  mem "pid" stats = true /\ mem "time" stats = true /\
  (exists u, usage_value stats = inr u) /\
  (forall h m r, (h, m, r) ∈ hit_pairs -> exists v, ratio_value h m stats = inr v).
Proof.
  rewrite succeeds_normalize. split.
  - unfold hit_pairs. normalize_cases; try done. intros _.
    split_and!; [done|done|eauto|].
    intros h m r Hin.
    repeat (apply elem_of_cons in Hin as [[= -> -> ->]|Hin]; [eauto|]).
    by apply elem_of_nil in Hin.
  - intros (Hp & Ht & [u Hu] & Hr).
    destruct (Hr "get_hits" "get_misses" "get_hit_ratio") as [v1 H1];
      [unfold hit_pairs; set_solver|].
    destruct (Hr "incr_hits" "incr_misses" "incr_hit_ratio") as [v2 H2];
      [unfold hit_pairs; set_solver|].
    destruct (Hr "decr_hits" "decr_misses" "decr_hit_ratio") as [v3 H3];
      [unfold hit_pairs; set_solver|].
    destruct (Hr "delete_hits" "delete_misses" "delete_hit_ratio") as [v4 H4];
      [unfold hit_pairs; set_solver|].
    unfold normalize, set_result. by rewrite Hp, Ht, Hu, H1, H2, H3, H4.
Qed.

Example wrap_stats_complete :
  wrap_stats (S := unit) stats_complete tt =
  (inr [("uptime", "17"); ("bytes", "50"); ("limit_maxbytes", "100");
        ("get_hits", "3"); ("get_misses", "1");
        ("incr_hits", "0"); ("incr_misses", "0");
        ("decr_hits", "1"); ("decr_misses", "2");
        ("delete_hits", "0"); ("delete_misses", "7");
        ("usage", "50.0"); ("get_hit_ratio", "75.0"); ("incr_hit_ratio", "0.0");
        ("decr_hit_ratio", "33.333333333333336"); ("delete_hit_ratio", "0.0")],
   tt, []).
Proof. vm_compute. reflexivity. Qed.

(** How far the body gets once [pid] and [time] are deleted: the steps
    done have set their fields, the first step that failed and those
    after it have left theirs as they were. *)
Lemma normalize_steps stats :
  mem "pid" stats = true -> mem "time" stats = true ->
  exists done rest,
    steps = done ++ rest /\
    (forall dk f, (dk, f) ∈ done ->
       exists v, f stats = inr v /\ get dk (normalize stats).2 = Some v) /\
    (forall dk f, (dk, f) ∈ rest -> get dk (normalize stats).2 = get dk stats) /\
    match rest with
    | [] => (normalize stats).1 = inr tt
    | kf :: _ => exists e, kf.2 stats = inl e /\ (normalize stats).1 = inl e
    end.
Proof.
  intros Hp Ht. unfold normalize, set_result. rewrite Hp, Ht.
  repeat match goal with
         | |- context [usage_value ?d] => destruct (usage_value d) eqn:?
         | |- context [ratio_value ?h ?m ?d] => destruct (ratio_value h m d) eqn:?
         end;
    cbn [fst snd];
    first [ exists (take 0 steps), (drop 0 steps); progress_at
          | exists (take 1 steps), (drop 1 steps); progress_at
          | exists (take 2 steps), (drop 2 steps); progress_at
          | exists (take 3 steps), (drop 3 steps); progress_at
          | exists (take 4 steps), (drop 4 steps); progress_at
          | exists (take 5 steps), (drop 5 steps); progress_at ].
Qed.


(** C1, as stated, fails: a map with [pid] and [time] but no source key
    is returned with [pid] and [time] deleted, not unmodified. *)
Lemma wrap_stats_modifies_input :
  "bytes" ∈ source_keys /\ get "bytes" stats_identity_only = None /\
  wrap_stats (S := unit) stats_identity_only tt = (inr [], tt, [access_error]) /\
  (wrap_stats (S := unit) stats_identity_only tt).1.1 <> inr stats_identity_only.
Proof. split_and!; [left|reflexivity|reflexivity|discriminate]. Qed.

(** C1, amended. For every map missing a source key, [wrap_stats] raises
    nothing and returns the map as the normalisation left it when it
    stopped: unchanged when [pid] is absent; with [pid] alone removed
    when [time] is absent; otherwise with [pid] and [time] removed and
    every key other than the derived fields as it was, the steps before
    the one that failed having set their derived fields to their
    values, the step that failed and those after it having left theirs
    as they were. The error is logged whenever [pid] or [time] is
    absent; otherwise exactly when the step that failed stopped on a
    missing key, which is always so when all values are numeric and
    [limit_maxbytes] is not zero. *)
Theorem wrap_stats_missing_key {S} (stats : dict) (s : S) (k : string) :
  k ∈ source_keys -> get k stats = None ->
  exists stats' t,
    wrap_stats stats s = (inr stats', s, t) /\
    (mem "pid" stats = false -> stats' = stats /\ t = [access_error]) /\
    (mem "pid" stats = true -> mem "time" stats = false ->
     stats' = remove "pid" stats /\ t = [access_error]) /\
    (mem "pid" stats = true -> mem "time" stats = true ->
     get "pid" stats' = None /\ get "time" stats' = None /\
     (forall k', k' ∉ "pid" :: "time" :: derived_keys -> get k' stats' = get k' stats) /\
     (exists done failing rest e,
        steps = done ++ failing :: rest /\
        (forall dk f, (dk, f) ∈ done ->
           exists v, f stats = inr v /\ get dk stats' = Some v) /\
        failing.2 stats = inl e /\
        (forall dk f, (dk, f) ∈ failing :: rest -> get dk stats' = get dk stats) /\
        (t = [access_error] <-> exists k', e = KeyError k')) /\
     (numeric stats -> limit_not_zero stats -> t = [access_error])).
Proof.
  intros Hk Hmiss. rewrite wrap_stats_run. eexists _, _. split; [done|].
  assert (exists e, (normalize stats).1 = inl e) as [e He].
  { destruct (normalize stats).1 as [e|[]] eqn:E; [eauto|].
    destruct (normalize_ok_keys stats k E Hk). congruence. }
  split_and!.
  - intros Hp. unfold normalize. by rewrite Hp.
  - intros Hp Ht. unfold normalize. by rewrite Hp, Ht.
  - intros Hp Ht. destruct (normalize_frame stats Hp Ht) as (? & ? & ?).
    split_and!; [done..| |].
    + destruct (normalize_steps stats Hp Ht) as (done & rest & Hsteps & Hdone & Hrest & Hend).
      destruct rest as [|failing rest]; [congruence|].
      destruct Hend as (e' & Hfail & He'). rewrite He' in He |- *. injection He as ->.
      exists done, failing, rest, e. split_and!; [done..|].
      destruct e; split; try done; try (by intros [? [=]]); eauto.
    + intros Hn Hl. destruct (normalize_error_kind stats e Hn Hl He) as [k' ->].
      by rewrite He.
Qed.

Lemma wrap_stats_missing_key_witness :
  "incr_hits" ∈ source_keys /\ get "incr_hits" stats_first_pair = None /\
  exists stats' t,
    wrap_stats stats_first_pair tt = (inr stats', tt, t) /\
    get "pid" stats' = None /\ get "time" stats' = None /\
    get "bytes" stats' = Some "50" /\
    exists done failing rest e,
      steps = done ++ failing :: rest /\
      (forall dk f, (dk, f) ∈ done ->
         exists v, f stats_first_pair = inr v /\ get dk stats' = Some v) /\
      failing.2 stats_first_pair = inl e /\
      (forall dk f, (dk, f) ∈ failing :: rest -> get dk stats' = get dk stats_first_pair) /\
      (t = [access_error] <-> exists k', e = KeyError k').
Proof.
  assert ("incr_hits" ∈ source_keys) as H1 by listed.
  assert (get "incr_hits" stats_first_pair = None) as H2 by reflexivity.
  split; [exact H1|]. split; [exact H2|].
  destruct (wrap_stats_missing_key stats_first_pair tt "incr_hits" H1 H2)
    as (stats' & t & Hrun & _ & _ & Hboth).
  exists stats', t. split; [exact Hrun|].
  destruct (Hboth eq_refl eq_refl) as (Hp & Ht & Hframe & Hsteps & _).
  split; [exact Hp|]. split; [exact Ht|]. split; [|exact Hsteps].
  rewrite Hframe; [reflexivity|]. unfold derived_keys.
  intros Hin. repeat (apply elem_of_cons in Hin as [Hin|Hin]; [discriminate|]).
  by apply elem_of_nil in Hin.
Defined.

(** C2, as stated, fails: without [pid] the first deletion raises, and
    a map with [time] alone is returned with [time] still in it. *)
Lemma wrap_stats_keeps_time :
  exists stats',
    wrap_stats (S := unit) [("time", "1700000000")] tt = (inr stats', tt, [access_error]) /\
    mem "time" stats' = true.
Proof. eexists. split; reflexivity. Qed.

(** C2, amended. [wrap_stats] always returns a map, and the map never
    holds [pid]. Deleting an absent key is an error: with [pid] absent
    it is logged and the input returned as it is; with [pid] present
    and [time] absent it is logged and the input returned less [pid];
    with both present the result holds neither. So [time] stays
    exactly when the input has [time] and no [pid]. A normalisation
    that runs to its end logs nothing and leaves [usage] and the four
    hit ratios, each the text of [100 * hits / (hits + misses)], or
    [0.0] when [hits + misses] is zero. *)
Theorem wrap_stats_invariant {S} (stats : dict) (s : S) :
  exists stats' t,
    wrap_stats stats s = (inr stats', s, t) /\
    mem "pid" stats' = false /\
    (mem "pid" stats = false -> stats' = stats /\ t = [access_error]) /\
    (mem "pid" stats = true -> mem "time" stats = false ->
     stats' = remove "pid" stats /\ t = [access_error]) /\
    (mem "pid" stats = true -> mem "time" stats = true -> mem "time" stats' = false) /\
    (mem "time" stats' = true <-> mem "pid" stats = false /\ mem "time" stats = true) /\
    (succeeds stats ->
     t = [] /\
     (exists b l, read_float "bytes" stats = inr b /\
                  read_float "limit_maxbytes" stats = inr l /\
                  Float.is_zero l = false /\
                  get "usage" stats' = Some (usage_text b l)) /\
     (forall h m r, (h, m, r) ∈ hit_pairs ->
        exists fh fm, read_float h stats = inr fh /\ read_float m stats = inr fm /\
          get r stats' =
          Some (if Float.is_zero (Float.add fh fm) then "0.0"
                else Float.repr (SFdiv Float.prec Float.emax
                                       (Float.mul (Float.of_int 100) fh)
                                       (Float.add fh fm))))).
Proof.
  rewrite wrap_stats_run. eexists _, _. split; [done|].
  assert (mem "pid" stats = false ->
          (normalize stats).2 = stats /\ (normalize stats).1 = inl (KeyError "pid")) as H0.
  { intros Hp. unfold normalize. by rewrite Hp. }
  assert (mem "pid" stats = true -> mem "time" stats = false ->
          (normalize stats).2 = remove "pid" stats /\
          (normalize stats).1 = inl (KeyError "time")) as H1.
  { intros Hp Ht. unfold normalize. by rewrite Hp, Ht. }
  assert (mem "pid" stats = true -> mem "time" stats = true ->
          mem "pid" (normalize stats).2 = false /\ mem "time" (normalize stats).2 = false)
    as H2.
  { intros Hp Ht. destruct (normalize_frame stats Hp Ht) as (? & ? & _).
    by rewrite !(proj2 (mem_false _ _)). }
  split_and!.
  - destruct (mem "pid" stats) eqn:Hp; [destruct (mem "time" stats) eqn:Ht|].
    + by apply H2.
    + destruct H1 as [-> _]; [done..|]. apply mem_false, get_remove_eq.
    + by destruct H0 as [-> _].
  - intros Hp. destruct (H0 Hp) as [-> ->]. done.
  - intros Hp Ht. destruct (H1 Hp Ht) as [-> ->]. done.
  - intros Hp Ht. by apply H2.
  - destruct (mem "pid" stats) eqn:Hp; [destruct (mem "time" stats) eqn:Ht|].
    + destruct (H2 eq_refl eq_refl) as [_ ->]. by split; [|intros []].
    + destruct H1 as [-> _]; [done..|]. rewrite mem_remove by done. rewrite Ht.
      by split; [|intros []].
    + destruct H0 as [-> _]; [done|]. by split; [|intros []].
  - intros Hok%succeeds_normalize. rewrite Hok. split; [done|].
    destruct (normalize_derived stats Hok) as [Husage Hratios]. split; [exact Husage|].
    intros h m r Hin. destruct (Hratios h m r Hin) as (fh & fm & ? & ? & ?).
    by exists fh, fm.
Qed.

Lemma wrap_stats_invariant_witness :
  exists stats' t,
    wrap_stats stats_complete tt = (inr stats', tt, t) /\
    mem "pid" stats' = false /\ mem "time" stats' = false /\ t = [] /\
    get "usage" stats' = Some "50.0".
Proof.
  destruct (wrap_stats_invariant stats_complete tt)
    as (stats' & t & Hrun & Hp & _ & _ & Hid & _ & Hok).
  exists stats', t. split; [exact Hrun|].
  pose proof (Hid eq_refl eq_refl) as Ht.
  destruct (Hok eq_refl) as (Hlog & (b & l & Hb & Hl & _ & Hu) & _).
  split; [exact Hp|]. split; [exact Ht|]. split; [exact Hlog|].
  injection Hb as <-. injection Hl as <-. exact Hu.
Defined.

(** C3, as stated, fails: a map with [bytes=50] and [limit_maxbytes=100]
    and no [pid] is returned without [usage]. *)
Lemma wrap_stats_no_usage_without_pid :
  exists stats',
    wrap_stats (S := unit) [("bytes", "50"); ("limit_maxbytes", "100")] tt
    = (inr stats', tt, [access_error]) /\
    get "usage" stats' = None.
Proof. eexists. split; reflexivity. Qed.

(** C3, amended. For every map that has [pid] and [time], and numeric
    [bytes] and [limit_maxbytes] with [limit_maxbytes] not zero, the map
    [wrap_stats] returns has [usage] set to the text of
    [100 * bytes / limit_maxbytes], whatever happens in the steps after;
    with [bytes=50] and [limit_maxbytes=100] that is ["50.0"]. *)
Theorem wrap_stats_usage {S} (stats : dict) (s : S) (bs ls : string) (b l : Float.float) :
  mem "pid" stats = true -> mem "time" stats = true ->
  get "bytes" stats = Some bs -> Float.of_string bs = Some b ->
  get "limit_maxbytes" stats = Some ls -> Float.of_string ls = Some l ->
  Float.is_zero l = false ->
  exists stats' t,
    wrap_stats stats s = (inr stats', s, t) /\
    get "usage" stats' =
    Some (Float.repr (SFdiv Float.prec Float.emax (Float.mul (Float.of_int 100) b) l)) /\
    (bs = "50" -> ls = "100" -> get "usage" stats' = Some "50.0").
Proof.
  intros Hp Ht Hb Hfb Hl Hfl Hz. rewrite wrap_stats_run. eexists _, _. split; [done|].
  assert (usage_value stats = inr (usage_text b l)) as Hu.
  { unfold usage_value, read_float. by rewrite Hb, Hfb, Hl, Hfl, Hz. }
  assert (get "usage" (normalize stats).2 = Some (usage_text b l)) as Hres.
  { normalize_cases; try done; simplify_eq; frame; by rewrite get_set_eq. }
  split; [exact Hres|].
  intros -> ->. rewrite Hres.
  assert (Float.of_string "50" = Some (Float.of_int 50)) as E50 by (vm_compute; reflexivity).
  assert (Float.of_string "100" = Some (Float.of_int 100)) as E100 by (vm_compute; reflexivity).
  assert (b = Float.of_int 50) as -> by congruence.
  assert (l = Float.of_int 100) as -> by congruence.
  vm_compute. reflexivity.
Qed.

Lemma wrap_stats_usage_witness :
  exists stats' t,
    wrap_stats stats_complete tt = (inr stats', tt, t) /\
    get "usage" stats' = Some "50.0".
Proof.
  destruct (wrap_stats_usage stats_complete tt "50" "100"
              (Float.of_int 50) (Float.of_int 100)
              eq_refl eq_refl eq_refl eq_refl eq_refl eq_refl eq_refl)
    as (stats' & t & Hrun & _ & H50).
  exists stats', t. split; [exact Hrun|exact (H50 eq_refl eq_refl)].
Defined.




End NormalizerFacts.

(** ** The protocol client *)

Module ClientFacts.
Import Text TextFacts Re ReNotions ReFacts StatNotions StatFacts MonadNotions MonadFacts MemcachedStats ClientNotions.

Lemma stats_run net self st :
  stats net self st =
  match command net self "stats" st with
  | (inr text, st', t) =>
      (inr (Dict.of_pairs (map as_pair (findall _stat_regex text))), st', t)
  | (inl e, st', t) => (inl e, st', t)
  end.
Proof. unfold stats. apply bind_ret_run. Qed.

Lemma stat_regex_empty : match_at _stat_regex "" = None.
Proof. reflexivity. Qed.

(** C5. [stats] returns the dictionary of the pairs found line by line
    in the response: a line the pattern is not found in adds nothing; a
    line [STAT name number] followed by a carriage return adds the pair
    of its name and number, the number without the line end; every
    value kept is such a number; and with no name repeated the
    dictionary holds exactly these pairs, in order. *)
Theorem stats_parses_stat_lines net self st text st' t :
  command net self "stats" st = (inr text, st', t) ->
  stats net self st =
    (inr (Dict.of_pairs (flat_map stat_line (split_char nl text))), st', t) /\
  (forall line, search _stat_regex line = None -> stat_line line = []) /\
  (forall name num,
     all_chars dot name = true -> number_text num ->
     stat_line ("STAT " +:+ name +:+ " " +:+ num +:+ String cr "") = [(name, num)]) /\
  (forall line k v, (k, v) ∈ stat_line line -> number_text v) /\
  (NoDup (map fst (flat_map stat_line (split_char nl text))) ->
   stats net self st = (inr (flat_map stat_line (split_char nl text)), st', t)).
Proof.
  intros Hcmd.
  assert (stats net self st =
          (inr (Dict.of_pairs (flat_map stat_line (split_char nl text))), st', t)) as Hrun.
  { rewrite stats_run, Hcmd.
    rewrite (findall_lines _ text stat_regex_nl_free stat_regex_starts).
    by rewrite map_flat_map. }
  split_and!.
  - exact Hrun.
  - intros line Hnone. unfold stat_line. by rewrite search_none_findall.
  - intros name num Hname Hnum. unfold stat_line.
    by rewrite (findall_whole _ _ [name; num] stat_regex_empty (stat_match_line _ _ Hname Hnum)).
  - intros line k v Hin. unfold stat_line in Hin.
    apply list_elem_of_fmap in Hin as (gs & Hkv & Hgs).
    apply findall_elem_of in Hgs as (s' & r & Hm).
    apply stat_match_number in Hm as (name & num & -> & Hnum).
    by injection Hkv as -> ->.
  - intros Hnd. by rewrite Hrun, DictFacts.of_pairs_NoDup.
Qed.

(** The client only logs. *)
Lemma logs_only_client net self : logs_only (client net self).
Proof. unfold client. auto 10 with logs. Qed.

Lemma logs_only_command net self cmd : logs_only (command net self cmd).
Proof.
  pose proof (logs_only_client net self).
  unfold command, _write, _read_until, telnet_write, telnet_read_until.
  auto 12 with logs.
Qed.

Lemma logs_only_stats net self : logs_only (stats net self).
Proof. pose proof (logs_only_command net self). unfold stats. auto with logs. Qed.

Lemma logs_only_close net self : logs_only (close net self).
Proof.
  pose proof (logs_only_client net self).
  unfold close, _write, telnet_write. auto 12 with logs.
Qed.

Lemma stats_parses_stat_lines_witness :
  (stats (fun _ _ => serving) (local 11211) None).1.1 =
  inr [("pid", "4242"); ("uptime", "17"); ("time", "1700000000");
       ("bytes", "50"); ("limit_maxbytes", "100");
       ("get_hits", "3"); ("get_misses", "1");
       ("incr_hits", "0"); ("incr_misses", "0");
       ("decr_hits", "1"); ("decr_misses", "2");
       ("delete_hits", "0"); ("delete_misses", "7")].
Proof.
  destruct (stats_parses_stat_lines (fun _ _ => serving) (local 11211) None
              stats_response _ _ eq_refl) as (Hrun & _).
  rewrite Hrun. vm_compute. reflexivity.
Defined.

(** *** [close] *)

(** C8, as stated, fails: on an instance that has not connected yet and
    whose peer refuses the connection, [close] raises; so it does on an
    open connection whose write fails. *)
Lemma close_raises :
  close (fun _ _ => refusing) (local 11211) None =
    (inl ConnectionRefusedError, None,
     [Logged DEBUG "create connection localhost:11211"]) /\
  close (fun _ _ => dropping) (local 11211) (Some [TnWrite "stats"; TnRead "END"]) =
    (inl OSError, Some [TnWrite "stats"; TnRead "END"], []).
Proof. split; reflexivity. Qed.

(** C8, amended. [close] writes the quit command, connecting first when
    no connection is open, and reads nothing. It catches nothing: an
    exception of the connection or of the write reaches the caller, the
    state as it was when it was raised. Otherwise [close] returns
    [None], the write recorded on the connection. *)
Theorem close_run net self st :
  close net self st =
  let peer := net (_host self) (_port self) in
  match st with
  | Some h =>
      match peer_write peer h quit_line with
      | Some e => (inl e, Some h, [])
      | None => (inr None, Some (h ++ [TnWrite quit_line]), [])
      end
  | None =>
      let connecting :=
        Logged DEBUG ("create connection " +:+ _host self +:+ ":" +:+
                      str_of_int (_port self)) in
      match peer_open peer with
      | Some e => (inl e, None, [connecting])
      | None =>
          match peer_write peer [] quit_line with
          | Some e => (inl e, Some [], [connecting])
          | None => (inr None, Some [TnWrite quit_line], [connecting])
          end
      end
  end.
Proof.
  unfold close, _write, client, telnet_write, bind, get_state, logging, emit, raise,
    modify, ret.
  change (ends_with_char nl "quit") with false. cbv iota zeta. unfold quit_line.
  destruct st as [h|]; cbn.
  - by destruct (peer_write _ _ _).
  - destruct (peer_open _); [done|]. cbn. by destruct (peer_write _ _ _).
Qed.

(** *** [key_details] *)

Lemma cachedumps_single net self id limit st :
  cachedumps net self [id] limit st =
  match command net self ("stats cachedump " +:+ id +:+ " " +:+ str_of_int limit) st with
  | (inr text, st', t) => (inr (findall _key_regex text), st', t)
  | (inl e, st', t) => (inl e, st', t)
  end.
Proof.
  cbn [cachedumps]. unfold bind, ret.
  destruct (command _ _ _ _) as [[[e|text] st'] t]; [reflexivity|].
  rewrite !List.app_nil_r. reflexivity.
Qed.

(** C9. With one slab in use and the cache dump of the specification as the
    response for it, [key_details] returns the two entries [foo] and
    [bar], in the order [bar], [foo] when sorted, and [keys] their names. *)
Theorem key_details_cachedump net self st items st1 t1 id limit st2 t2 :
  command net self "stats items" st = (inr items, st1, t1) ->
  findall _slab_regex items = [[id]] ->
  command net self ("stats cachedump " +:+ id +:+ " " +:+ str_of_int limit) st1
    = (inr dump_response, st2, t2) ->
  findall _key_regex dump_response = [["foo"; "10"; "123"]; ["bar"; "5"; "456"]] /\
  key_details net self false limit st =
    (inr [["foo"; "10"; "123"]; ["bar"; "5"; "456"]], st2, t1 ++ t2) /\
  key_details net self true limit st =
    (inr [["bar"; "5"; "456"]; ["foo"; "10"; "123"]], st2, t1 ++ t2) /\
  keys net self true limit st = (inr ["bar"; "foo"], st2, t1 ++ t2).
Proof.
  intros Hitems Hid Hdump.
  assert (findall _key_regex dump_response = [["foo"; "10"; "123"]; ["bar"; "5"; "456"]])
    as Hfind by (vm_compute; reflexivity).
  assert (slab_ids net self st = (inr [id], st1, t1)) as Hslab.
  { unfold slab_ids. by rewrite bind_ret_run, Hitems, Hid. }
  assert (cachedumps net self [id] limit st1 =
          (inr [["foo"; "10"; "123"]; ["bar"; "5"; "456"]], st2, t2)) as Hcd.
  { rewrite cachedumps_single, Hdump, Hfind. reflexivity. }
  assert (forall sort,
            key_details net self sort limit st =
            (inr (if sort then sorted [["foo"; "10"; "123"]; ["bar"; "5"; "456"]]
                  else [["foo"; "10"; "123"]; ["bar"; "5"; "456"]]), st2, t1 ++ t2)) as Hkd.
  { intros sort. unfold key_details. rewrite (bind_inr _ _ _ _ _ _ Hslab).
    rewrite (bind_inr _ _ _ _ _ _ Hcd). destruct sort; unfold ret; cbn [fst snd];
      rewrite List.app_nil_r; reflexivity. }
  split_and!; [exact Hfind|apply (Hkd false)|rewrite (Hkd true); vm_compute; reflexivity|].
  unfold keys. rewrite bind_ret_run, (Hkd true). vm_compute. reflexivity.
Qed.

Lemma key_details_cachedump_witness :
  (key_details (fun _ _ => serving) (local 11211) true 100 None).1.1 =
    inr [["bar"; "5"; "456"]; ["foo"; "10"; "123"]] /\
  (keys (fun _ _ => serving) (local 11211) true 100 None).1.1 = inr ["bar"; "foo"].
Proof.
  destruct (key_details_cachedump (fun _ _ => serving) (local 11211) None
              items_response _ _ "1" 100 _ _ eq_refl eq_refl eq_refl)
    as (_ & _ & Hsorted & Hkeys).
  rewrite Hsorted, Hkeys. split; reflexivity.
Defined.

End ClientFacts.

(** ** The instance collector *)

Module CollectorFacts.
Import Text Dict DictFacts MonadNotions MonadFacts StatNotions StatFacts FloatNotions FloatFacts NormalizerNotions NormalizerFacts MemcachedStats ClientNotions ClientFacts Collector CollectorNotions.

(** *** Statistics are numeric texts under distinct keys *)

Lemma numeric_set k v d :
  numeric d -> is_Some (Float.of_string v) -> numeric (set k v d).
Proof. intros Hd Hv k' v' [[= -> ->]|?]%elem_of_set; eauto. Qed.

Lemma numeric_remove k d : numeric d -> numeric (remove k d).
Proof. intros Hd k' v' ?%elem_of_remove. eauto. Qed.

Lemma usage_value_text d u : usage_value d = inr u -> is_Some (Float.of_string u).
Proof.
  unfold usage_value. destruct (read_float "bytes" d); [done|].
  destruct (read_float "limit_maxbytes" d); [done|].
  destruct (Float.is_zero _); [done|]. intros [= <-]. apply of_string_repr.
Qed.

Lemma ratio_value_text h m d v : ratio_value h m d = inr v -> is_Some (Float.of_string v).
Proof.
  unfold ratio_value, ratio_text. destruct (read_float h d); [done|].
  destruct (read_float m d); [done|]. intros [= <-].
  destruct (Float.is_zero _); [by eexists|apply of_string_repr].
Qed.

Lemma normalize_numeric d : numeric d -> numeric (normalize d).2.
Proof.
  intros Hd. normalize_cases; try done;
    repeat first [ apply numeric_set | apply numeric_remove | assumption
                 | by eapply usage_value_text | by eapply ratio_value_text ].
Qed.

Lemma normalize_NoDup d : NoDup (Dict.keys d) -> NoDup (Dict.keys (normalize d).2).
Proof.
  intros Hd. normalize_cases; try done;
    repeat first [ apply NoDup_set | apply NoDup_remove | assumption ].
Qed.

Lemma raw_stats_numeric text :
  numeric (of_pairs (map as_pair (Re.findall _stat_regex text))).
Proof.
  apply (of_pairs_ind numeric (fun kv => is_Some (Float.of_string kv.2))).
  - by intros k v ?%elem_of_nil.
  - intros d [k v] Hd Hv. by apply numeric_set.
  - apply list.Forall_forall. intros [k v] Hin.
    apply list_elem_of_fmap in Hin as (gs & Hkv & Hgs).
    apply ReFacts.findall_elem_of in Hgs as (s' & r & Hm).
    apply stat_match_number in Hm as (name & num & -> & Hnum).
    injection Hkv as -> ->. by apply of_string_number.
Qed.

(** The statistics a successful query returns. *)
Lemma query_stats w timeout port stats t :
  query w timeout port tt = (inr stats, tt, t) ->
  NoDup (Dict.keys stats) /\ numeric stats.
Proof.
  unfold query, with_instance.
  rewrite bind_run, stats_run.
  destruct (command _ _ _ _) as [[[e|text] st1] t1]; [done|].
  rewrite bind_run, wrap_stats_run.
  rewrite bind_ret_run.
  destruct (close _ _ _) as [[[e|o] st2] t2]; [done|].
  intros [= <- _]. split.
  - apply normalize_NoDup, NoDup_of_pairs.
  - apply normalize_numeric, raw_stats_numeric.
Qed.

(** *** The loops *)

Lemma emit_points_items w port stats items data :
  (forall k v, (k, v) ∈ items -> get k stats = Some v /\ is_Some (Float.of_string v)) ->
  emit_points w port stats (map fst items) data tt =
  (inr (data ++ points_of w port items), tt, []).
Proof.
  revert data. induction items as [|[k v] items IH]; intros data Hitems.
  - cbn. by rewrite List.app_nil_r.
  - destruct (Hitems k v) as [Hget [x Hx]]; [left|].
    cbn [map fst emit_points]. unfold bind at 1. unfold lift_option at 1.
    rewrite Hget. cbn [ret]. unfold bind at 1, float, lift_option. rewrite Hx. cbn [ret].
    assert ((let '(suffix, vtype) :=
               if is_gauge k then ("", GAUGE) else ("_cps", COUNTER) in
             emit_points w port stats (map fst items)
               (data ++ [{| metric := metric_prefix +:+ "." +:+ k +:+ suffix;
                            endpoint := hostname w; timestamp := time_now w;
                            step := 60; value := x; counterType := vtype;
                            tags := "port=" +:+ str_of_int port |}])) tt
            = emit_points w port stats (map fst items) (data ++ [point_of w port k x]) tt)
      as -> by (unfold point_of; by destruct (is_gauge k)).
    rewrite IH by (intros; apply Hitems; by right).
    unfold points_of. cbn [flat_map snd fst]. rewrite Hx.
    by rewrite <- List.app_assoc.
Qed.

Lemma emit_points_run w port stats data :
  NoDup (Dict.keys stats) -> numeric stats ->
  emit_points w port stats (Dict.keys stats) data tt =
  (inr (data ++ points_of w port stats), tt, []).
Proof.
  intros Hnd Hnum. apply emit_points_items. intros k v Hin. split.
  - by apply elem_of_get.
  - by eapply Hnum.
Qed.

(** One turn of the loop: the query of the port inside the [try]. *)
Lemma try_query_run w timeout port :
  try_except
    (stats <- query w timeout port ;; ret (Some stats))
    (fun _ => Some
       (logging ERROR ("query memcached instance stats failed, port=" +:+
                       str_of_int port) ;;;
        ret None)) tt =
  (match (query w timeout port tt).1.1 with
   | inr stats => inr (Some stats)
   | inl Blocked => inl Blocked
   | inl _ => inr None
   end, tt, port_events w timeout port).
Proof.
  unfold try_except, port_events. rewrite bind_ret_run.
  destruct (query w timeout port tt) as [[[e|stats] []] t]; cbn [fst snd].
  - unfold bind, logging, emit, ret, failure_record.
    destruct e; cbn [app]; by rewrite ?List.app_nil_r.
  - by rewrite List.app_nil_r.
Qed.

(** When no port blocks, the loop is the concatenation of what each
    port contributes. *)
Lemma for_ports_run w timeout ports data :
  (forall port, port ∈ ports -> ~ blocks w timeout port) ->
  for_ports w timeout ports data tt =
  (inr (data ++ flat_map (port_points w timeout) ports), tt,
   flat_map (port_events w timeout) ports).
Proof.
  revert data. induction ports as [|port ports IH]; intros data Hports.
  - cbn. by rewrite List.app_nil_r.
  - cbn [for_ports flat_map]. unfold port_points at 1.
    rewrite bind_run, try_query_run.
    assert (~ blocks w timeout port) as Hport by (apply Hports; left).
    unfold blocks in Hport.
    destruct (query w timeout port tt) as [[[e|stats] []] t] eqn:Hq; cbn [fst snd] in *.
    + assert ((match e with Blocked => inl Blocked | _ => inr None end : exn + option dict)
              = inr None) as -> by (by destruct e).
      rewrite IH by (intros; apply Hports; by right). done.
    + destruct (query_stats _ _ _ _ _ Hq) as [Hnd Hnum].
      rewrite bind_run, emit_points_run by done.
      rewrite IH by (intros; apply Hports; by right).
      cbn [app]. by rewrite <- ?List.app_assoc.
Qed.

(** A port that blocks ends the loop: the ports after it are not
    reached, and nothing is returned. *)
Lemma for_ports_blocked w timeout before port after data :
  (forall q, q ∈ before -> ~ blocks w timeout q) -> blocks w timeout port ->
  for_ports w timeout (before ++ port :: after) data tt =
  (inl Blocked, tt,
   flat_map (port_events w timeout) before ++ (query w timeout port tt).2).
Proof.
  revert data. induction before as [|q before IH]; intros data Hbefore Hport.
  - cbn [app for_ports flat_map]. rewrite bind_run, try_query_run.
    unfold port_events. unfold blocks in Hport. rewrite Hport. by rewrite List.app_nil_r.
  - cbn [app for_ports flat_map].
    rewrite bind_run, try_query_run.
    assert (~ blocks w timeout q) as Hq' by (apply Hbefore; left).
    unfold blocks in Hq'.
    destruct (query w timeout q tt) as [[[e|stats] []] t] eqn:Hq; cbn [fst snd] in *.
    + assert ((match e with Blocked => inl Blocked | _ => inr None end : exn + option dict)
              = inr None) as -> by (by destruct e).
      rewrite IH by (done || intros; apply Hbefore; by right).
      by rewrite <- ?List.app_assoc.
    + destruct (query_stats _ _ _ _ _ Hq) as [Hnd Hnum].
      rewrite bind_run, emit_points_run by done.
      rewrite IH by (done || intros; apply Hbefore; by right).
      cbn [app]. by rewrite <- ?List.app_assoc.
Qed.

(** The ports of a list all answer, or one of them is the first to
    block. *)
Lemma first_blocked w timeout ports :
  (forall port, port ∈ ports -> ~ blocks w timeout port) \/
  exists before port after,
    ports = before ++ port :: after /\
    (forall q, q ∈ before -> ~ blocks w timeout q) /\ blocks w timeout port.
Proof.
  induction ports as [|p ports IH].
  - left. by intros port ?%elem_of_nil.
  - assert (blocks w timeout p \/ ~ blocks w timeout p) as [Hp|Hp].
    { unfold blocks. destruct (query w timeout p tt).1.1 as [[]|]; (by left) || (by right). }
    + right. exists [], p, ports. split; [done|]. split; [|done]. by intros q ?%elem_of_nil.
    + destruct IH as [Hall|(before & port & after & -> & Hb & Hport)].
      * left. intros port [->|?]%elem_of_cons; auto.
      * right. exists (p :: before), port, after. split; [done|]. split; [|done].
        intros q [->|?]%elem_of_cons; auto.
Qed.

Lemma elem_of_set_iter w (s : gset Z) port : port ∈ set_iter w s <-> port ∈ s.
Proof. rewrite (set_iter_perm w s). apply elem_of_elements. Qed.

(** An exception of discovery is that of [collect_instances]. *)
Lemma collect_instances_raises w timeout e :
  ports_of w = inl e -> collect_instances w timeout tt = (inl e, tt, []).
Proof. unfold collect_instances, ports_of. by intros ->. Qed.

Lemma collect_instances_run w timeout ports :
  ports_of w = inr ports ->
  (forall port, port ∈ ports -> ~ blocks w timeout port) ->
  collect_instances w timeout tt =
  if decide (ports = ∅) then (inr None, tt, [not_found_record])
  else (inr (Some (flat_map (port_points w timeout) (set_iter w ports))), tt,
        found_record w ports :: flat_map (port_events w timeout) (set_iter w ports)).
Proof.
  unfold collect_instances, ports_of. intros -> Hports.
  rewrite bind_run. unfold lift_result at 1.
  destruct (decide (ports = ∅)); [done|].
  rewrite bind_run. unfold logging at 1, emit at 1.
  rewrite bind_ret_run, for_ports_run; [done|].
  intros port Hin. by apply Hports, (elem_of_set_iter w).
Qed.

Lemma collect_instances_blocked w timeout ports before port after :
  ports_of w = inr ports ->
  set_iter w ports = before ++ port :: after ->
  (forall q, q ∈ before -> ~ blocks w timeout q) -> blocks w timeout port ->
  collect_instances w timeout tt =
  (inl Blocked, tt,
   found_record w ports ::
   flat_map (port_events w timeout) before ++ (query w timeout port tt).2).
Proof.
  unfold collect_instances, ports_of. intros -> Hsplit Hbefore Hport.
  rewrite bind_run. unfold lift_result at 1.
  destruct (decide (ports = ∅)) as [->|_].
  { pose proof (set_iter_perm w ∅) as Hperm. rewrite elements_empty, Hsplit in Hperm.
    apply Permutation_nil_r in Hperm. by destruct before. }
  rewrite bind_run. unfold logging at 1, emit at 1.
  unfold found_record. by rewrite bind_ret_run, Hsplit, for_ports_blocked.
Qed.

(** *** Only [main] posts *)

Lemma logs_only_wrap_stats {S} stats : logs_only (Normalizer.wrap_stats (S := S) stats).
Proof.
  intros s. rewrite wrap_stats_run. cbn.
  destruct (normalize stats).1 as [[]|]; by repeat constructor.
Qed.

Lemma logs_only_with_instance {A} (m : M state A) :
  logs_only m -> logs_only (with_instance m).
Proof.
  intros Hm s. unfold with_instance. specialize (Hm None).
  by destruct (m None) as [[? ?] ?].
Qed.

Lemma query_logs_only w timeout port : Forall is_log (query w timeout port tt).2.
Proof.
  pose proof (logs_only_stats (network w)) as H1.
  pose proof (logs_only_close (network w)) as H2.
  pose proof (@logs_only_wrap_stats state) as H3.
  unfold query.
  match goal with
  | |- Forall is_log (with_instance ?m tt).2 =>
      apply (logs_only_with_instance m); auto 10 with logs
  end.
Qed.

Lemma port_events_log w timeout port : Forall is_log (port_events w timeout port).
Proof.
  unfold port_events. apply Forall_app. split; [apply query_logs_only|].
  destruct (query w timeout port tt).1.1 as [[]|]; by repeat constructor.
Qed.

Lemma for_ports_logs_only w timeout ports data :
  Forall is_log (for_ports w timeout ports data tt).2.
Proof.
  revert data. induction ports as [|port ports IH]; intros data; [constructor|].
  cbn [for_ports]. rewrite bind_run, try_query_run.
  pose proof (port_events_log w timeout port) as Hport.
  destruct (query w timeout port tt) as [[[e|stats] []] t] eqn:Hq; cbn [fst snd].
  - destruct e;
      try (specialize (IH data);
           destruct (for_ports w timeout ports data tt) as [[? ?] ?];
           cbn [snd] in *; by apply Forall_app).
    done.
  - destruct (query_stats _ _ _ _ _ Hq) as [Hnd Hnum].
    rewrite bind_run, emit_points_run by done.
    specialize (IH (data ++ points_of w port stats)).
    destruct (for_ports w timeout ports _ tt) as [[? ?] ?].
    cbn [snd] in *. rewrite List.app_nil_l. by apply Forall_app.
Qed.

Lemma collect_instances_logs_only w timeout :
  Forall is_log (collect_instances w timeout tt).2.
Proof.
  unfold collect_instances. rewrite bind_run. unfold lift_result at 1.
  destruct (get_instances (ps_output w)) as [e|ports]; [constructor|].
  destruct (decide (ports = ∅)); [by repeat constructor|].
  rewrite bind_run. unfold logging at 1, emit at 1. rewrite bind_ret_run.
  pose proof (for_ports_logs_only w timeout (set_iter w ports) []) as Hlog.
  destruct (for_ports w timeout (set_iter w ports) [] tt) as [[[e|data] ?] t];
    cbn [snd app] in *; by constructor.
Qed.

Lemma main_run w timeout sendto :
  main w timeout sendto tt =
  match collect_instances w timeout tt with
  | (inr (Some (p :: ps)), _, t) =>
      match requests_post w sendto (json_dumps w (p :: ps)) timeout with
      | Some Blocked => (inl Blocked, tt, t ++ [Posted sendto (json_dumps w (p :: ps))])
      | Some _ =>
          (inr tt, tt,
           t ++ [Posted sendto (json_dumps w (p :: ps));
                 post_failure_record w sendto (p :: ps)])
      | None => (inr tt, tt, t ++ [Posted sendto (json_dumps w (p :: ps))])
      end
  | (inr _, _, t) => (inr tt, tt, t)
  | (inl e, _, t) => (inl e, tt, t)
  end.
Proof.
  unfold main. rewrite bind_run.
  destruct (collect_instances w timeout tt) as [[r []] t].
  destruct r as [e|[points|]]; [reflexivity| |cbn; by rewrite List.app_nil_r].
  destruct points as [|p ps]; [cbn; by rewrite List.app_nil_r|].
  unfold try_except, post, bind, emit, raise, ret, logging, emit, post_failure_record.
  destruct (requests_post _ _ _ _) as [[]|]; cbn [app]; rewrite ?List.app_nil_r; reflexivity.
Qed.

Example example_ports_of : ports_of example_world = inr example_found.
Proof. vm_compute. reflexivity. Qed.

Example example_ports : elements example_found = [11211; 11213; 11214; 11212].
Proof. vm_compute. reflexivity. Qed.

Lemma points_of_length w port stats :
  numeric stats -> length (points_of w port stats) = length stats.
Proof.
  unfold points_of. induction stats as [|[k v] stats IH]; intros Hn; [done|].
  cbn [flat_map fst snd]. destruct (Hn k v) as [x ->]; [left|].
  cbn. f_equal. apply IH. intros k' v' ?. apply (Hn k' v'). by right.
Qed.

(** *** Failures *)








Example example_answers port :
  port ∈ example_found -> ~ blocks example_world two_seconds port.
Proof.
  unfold example_found, blocks. intros Hin.
  repeat (apply elem_of_union in Hin as [Hin|Hin]);
    apply elem_of_singleton in Hin as ->; by vm_compute.
Qed.


Lemma points_of_Forall2 w port stats :
  numeric stats ->
  Forall2 (fun kv p => exists x, Float.of_string kv.2 = Some x /\
                                 p = point_of w port kv.1 x)
          stats (points_of w port stats).
Proof.
  unfold points_of. induction stats as [|[k v] stats IH]; intros Hn; [constructor|].
  cbn [flat_map fst snd]. destruct (Hn k v) as [x Hx]; [left|]. rewrite Hx.
  cbn [app]. constructor; [by exists x|].
  apply IH. intros k' v' ?. apply (Hn k' v'). by right.
Qed.

Lemma is_gauge_spec key : is_gauge key = true <-> key ∈ gauges.
Proof.
  unfold is_gauge. rewrite existsb_exists. setoid_rewrite <- list_elem_of_In.
  split.
  - intros (k & Hin & ->%String.eqb_eq). done.
  - intros Hin. exists key. by rewrite String.eqb_refl.
Qed.

(** C7. In a run that returns (discovery gives the ports and no query
    blocks), for a port that was found and whose query returned
    [stats], the points of that port stand in the result once, and
    correspond one to one, in order, to the key and value pairs of
    [stats]: the metric is [mc.] and the key for a key of the gauge
    list, with type [GAUGE], and [mc.], the key and [_cps] with type
    [COUNTER] for any other; the endpoint is the host name, the
    timestamp the clock in seconds, the step 60, the value the float of
    the text, the tags [port=] and the port. *)
Theorem collect_instances_points w timeout ports port stats :
  ports_of w = inr ports ->
  (forall q, q ∈ ports -> ~ blocks w timeout q) ->
  port ∈ ports ->
  (query w timeout port tt).1.1 = inr stats ->
  exists data t before after,
    collect_instances w timeout tt = (inr (Some data), tt, t) /\
    data = flat_map (port_points w timeout) before ++
           port_points w timeout port ++
           flat_map (port_points w timeout) after /\
    set_iter w ports = before ++ port :: after /\
    (port ∉ before) /\ (port ∉ after) /\
    Forall2
      (fun kv p =>
         exists x, Float.of_string kv.2 = Some x /\
           p = {| metric := "mc." +:+ kv.1 +:+ (if is_gauge kv.1 then "" else "_cps");
                  endpoint := hostname w;
                  timestamp := time_now w;
                  step := 60;
                  value := x;
                  counterType := if is_gauge kv.1 then GAUGE else COUNTER;
                  tags := "port=" +:+ str_of_int port |})
      stats (port_points w timeout port) /\
    (forall key, is_gauge key = true <-> key ∈ gauges).
Proof.
  intros Hports Hanswers Hin Hq. rewrite (collect_instances_run _ _ _ Hports Hanswers).
  destruct (decide (ports = ∅)) as [Hempty|_].
  { rewrite Hempty in Hin. by apply not_elem_of_empty in Hin. }
  assert (NoDup (set_iter w ports)) as Hnd
    by (rewrite (set_iter_perm w); apply NoDup_elements).
  apply (elem_of_set_iter w) in Hin.
  apply list_elem_of_split in Hin as (before & after & Hsplit).
  rewrite Hsplit in Hnd |- *. apply NoDup_app in Hnd as (_ & Hb & Ha%NoDup_cons).
  eexists _, _, before, after. split; [done|].
  split_and!; [by rewrite flat_map_app| done | | by destruct Ha | |apply is_gauge_spec].
  - intros Hbefore. apply (Hb port Hbefore). left.
  - destruct (query w timeout port tt) as [[[e|stats'] []] tq] eqn:Hq'; [done|].
    cbn in Hq. injection Hq as ->.
    destruct (query_stats _ _ _ _ _ Hq') as [_ Hnum].
    unfold port_points. rewrite Hq'. cbn [fst snd]. by apply points_of_Forall2.
Qed.

Example example_query :
  (query example_world two_seconds 11211 tt).1.1 = inr example_stats.
Proof. vm_compute. reflexivity. Qed.

Example example_port : 11211 ∈ example_found.
Proof. by vm_compute. Qed.

Lemma collect_instances_points_witness :
  exists points,
    port_points example_world two_seconds 11211 = points /\
    nth_error points 11 =
      Some {| metric := "mc.usage"; endpoint := "cache01"; timestamp := 1700000000;
              step := 60; value := Float.of_int 50; counterType := GAUGE;
              tags := "port=11211" |} /\
    nth_error points 3 =
      Some {| metric := "mc.get_hits_cps"; endpoint := "cache01"; timestamp := 1700000000;
              step := 60; value := Float.of_int 3; counterType := COUNTER;
              tags := "port=11211" |} /\
    Forall2 (fun kv p => exists x, Float.of_string kv.2 = Some x /\
                                   p = point_of example_world 11211 kv.1 x)
            example_stats points.
Proof.
  destruct (collect_instances_points example_world two_seconds example_found 11211
              example_stats example_ports_of example_answers example_port example_query)
    as (data & t & before & after & _ & _ & _ & _ & _ & Hpoints & _).
  exists (port_points example_world two_seconds 11211).
  split; [reflexivity|].
  split; [vm_compute; reflexivity|]. split; [vm_compute; reflexivity|].
  exact Hpoints.
Defined.

(** C10. When discovery finds no port, [collect_instances] logs a
    warning and returns [None]; when it finds ports whose queries all
    raise, it returns the empty list. [main] posts nothing in either
    case: whenever it posts, [collect_instances] has returned a list
    that is not empty, and the post is of that list, to the configured
    URL. *)
Theorem collect_instances_empty_outcomes w timeout sendto :
  (ports_of w = inr ∅ ->
   collect_instances w timeout tt = (inr None, tt, [not_found_record]) /\
   main w timeout sendto tt = (inr tt, tt, [not_found_record])) /\
  (forall ports,
   ports_of w = inr ports -> ports <> ∅ ->
   (forall port, port ∈ ports ->
      exists e, (query w timeout port tt).1.1 = inl e /\ e <> Blocked) ->
   exists t,
     collect_instances w timeout tt = (inr (Some []), tt, t) /\
     main w timeout sendto tt = (inr tt, tt, t) /\
     Forall is_log t) /\
  (forall url data,
     Posted url data ∈ (main w timeout sendto tt).2 ->
     exists p ps,
       (collect_instances w timeout tt).1.1 = inr (Some (p :: ps)) /\
       url = sendto /\ data = json_dumps w (p :: ps)).
Proof.
  split_and!.
  - intros Hempty. rewrite main_run, (collect_instances_run _ _ _ Hempty).
    + by destruct (decide (∅ = ∅)).
    + by intros port ?%not_elem_of_empty.
  - intros ports Hports Hne Hfail.
    assert (forall port, port ∈ ports -> ~ blocks w timeout port) as Hanswers.
    { intros port Hin. destruct (Hfail port Hin) as (e & He & Hb).
      unfold blocks. rewrite He. congruence. }
    assert (flat_map (port_points w timeout) (set_iter w ports) = []) as Hnil.
    { apply ReFacts.flat_map_nil. intros port Hin%elem_of_set_iter.
      destruct (Hfail port Hin) as (e & He & _). unfold port_points. by rewrite He. }
    pose proof (collect_instances_logs_only w timeout) as Hlog.
    rewrite main_run. rewrite (collect_instances_run _ _ _ Hports Hanswers) in Hlog |- *.
    destruct (decide (ports = ∅)); [done|]. rewrite Hnil. eauto.
  - intros url data. rewrite main_run.
    pose proof (collect_instances_logs_only w timeout) as Hlog.
    destruct (collect_instances w timeout tt) as [[r []] t]. cbn [fst snd] in *.
    assert (Posted url data ∉ t) as Hnot.
    { intros Hin. by eapply list.Forall_forall in Hin; [|exact Hlog]. }
    destruct r as [e|[[|p ps]|]]; cbn [snd]; try done.
    assert (forall rest, Forall is_log rest ->
              Posted url data ∈ t ++ Posted sendto (json_dumps w (p :: ps)) :: rest ->
              exists p0 ps0, @inr exn _ (Some (p :: ps)) = inr (Some (p0 :: ps0)) /\
                             url = sendto /\ data = json_dumps w (p0 :: ps0)) as Hpost.
    { intros rest Hrest [?|Hin]%elem_of_app; [done|].
      apply elem_of_cons in Hin as [[= -> ->]|Hin]; [by exists p, ps|].
      by eapply list.Forall_forall in Hin; [|exact Hrest]. }
    destruct (requests_post _ _ _ _) as [[]|]; cbn [snd];
      apply Hpost; by repeat constructor.
Qed.

End CollectorFacts.

(** ** Discovery of the instances *)

Module DiscoveryFacts.
Import Text TextFacts Re ReNotions ReFacts StatNotions StatFacts FloatNotions FloatFacts MemcachedStats DiscoveryNotions.

Lemma int_of_str_inr s n :
  int_of_str s = inr n <-> Z.of_nat (String.length s) <= 4300 /\ n = int_of_digits s.
Proof.
  unfold int_of_str. destruct (Z.ltb_spec 4300 (Z.of_nat (String.length s))).
  - split; [done|]. lia.
  - split; [intros [= <-]; split; [lia|done]|]. by intros [_ ->].
Qed.

Lemma int_of_str_inl s e :
  int_of_str s = inl e <-> 4300 < Z.of_nat (String.length s) /\ e = ValueError.
Proof.
  unfold int_of_str. destruct (Z.ltb_spec 4300 (Z.of_nat (String.length s))).
  - split; [by intros [= <-]|]. by intros [_ ->].
  - split; [done|]. lia.
Qed.

(** The loop of [get_instances] when a line has raised: the remaining
    lines are not looked at. *)
Lemma fold_ports_raised lines e :
  fold_left (fun (result : exn + gset Z) line =>
               match result with
               | inl e => inl e
               | inr ports =>
                   match search _port_regex (strip line) with
                   | Some m =>
                       match int_of_str (hd "" m) with
                       | inr port => inr ({[ port ]} ∪ ports)
                       | inl e => inl e
                       end
                   | None => inr ports
                   end
               end) lines (inl e) = inl e.
Proof. induction lines as [|l lines IH]; [done|]. apply IH. Qed.

Lemma fold_ports lines (acc : gset Z) :
  match fold_left (fun (result : exn + gset Z) line =>
                     match result with
                     | inl e => inl e
                     | inr ports =>
                         match search _port_regex (strip line) with
                         | Some m =>
                             match int_of_str (hd "" m) with
                             | inr port => inr ({[ port ]} ∪ ports)
                             | inl e => inl e
                             end
                         | None => inr ports
                         end
                     end) lines (inr acc) with
  | inr ports =>
      forall p, p ∈ ports <->
                p ∈ acc \/ exists line, line ∈ lines /\ port_of_line line = Some (inr p)
  | inl e => exists line, line ∈ lines /\ port_of_line line = Some (inl e)
  end.
Proof.
  revert acc. induction lines as [|l lines IH]; intros acc; cbn [fold_left].
  - intros p. split; [auto|]. intros [?|(line & ?%elem_of_nil & _)]; done.
  - assert (Hl : port_of_line l = match search _port_regex (strip l) with
                                  | Some m => Some (int_of_str (hd "" m))
                                  | None => None
                                  end) by done.
    destruct (search _port_regex (strip l)) as [m|].
    + destruct (int_of_str (hd "" m)) as [e|port].
      * rewrite fold_ports_raised. exists l. split; [left|done].
      * specialize (IH ({[ port ]} ∪ acc)). destruct (fold_left _ lines _) as [e|ports].
        -- destruct IH as (line & ? & ?). exists line. split; [by right|done].
        -- intros p. rewrite IH, elem_of_union, elem_of_singleton. split.
           ++ intros [[->|?]|(line & ? & ?)]; [right|by left|right].
              ** exists l. split; [left|done].
              ** exists line. split; [by right|done].
           ++ intros [?|(line & [->|?]%elem_of_cons & Hp)]; [by left; right| |right; eauto].
              left. left. congruence.
    + specialize (IH acc). destruct (fold_left _ lines _) as [e|ports].
      * destruct IH as (line & ? & ?). exists line. split; [by right|done].
      * intros p. rewrite IH. split.
        -- intros [?|(line & ? & ?)]; [by left|right]. exists line. split; [by right|done].
        -- intros [?|(line & [->|?]%elem_of_cons & Hp)]; [by left|congruence|right; eauto].
Qed.

(** The ports of a discovery that returns. *)
Lemma elem_of_get_instances out ports p :
  get_instances out = inr ports ->
  p ∈ ports <->
  exists line, line ∈ split_char nl out /\ port_of_line line = Some (inr p).
Proof.
  unfold get_instances. pose proof (fold_ports (split_char nl out) ∅) as H.
  intros E. rewrite E in H. rewrite H. split; [|auto].
  intros [?%not_elem_of_empty|?]; done.
Qed.

(** No line of a discovery that returns makes [int] raise. *)
Lemma fold_ports_all lines (acc : gset Z) ports :
  fold_left (fun (result : exn + gset Z) line =>
               match result with
               | inl e => inl e
               | inr ports =>
                   match search _port_regex (strip line) with
                   | Some m =>
                       match int_of_str (hd "" m) with
                       | inr port => inr ({[ port ]} ∪ ports)
                       | inl e => inl e
                       end
                   | None => inr ports
                   end
               end) lines (inr acc) = inr ports ->
  forall line e, line ∈ lines -> port_of_line line <> Some (inl e).
Proof.
  revert acc. induction lines as [|l lines IH]; intros acc; cbn [fold_left].
  - by intros _ line e ?%elem_of_nil.
  - assert (Hl : port_of_line l = match search _port_regex (strip l) with
                                  | Some m => Some (int_of_str (hd "" m))
                                  | None => None
                                  end) by done.
    destruct (search _port_regex (strip l)) as [m|].
    + destruct (int_of_str (hd "" m)) as [e|port].
      * by rewrite fold_ports_raised.
      * intros E line e [->|Hin]%elem_of_cons; [by rewrite Hl|by eapply IH].
    + intros E line e [->|Hin]%elem_of_cons; [by rewrite Hl|by eapply IH].
Qed.

Lemma no_raise_of_return out ports :
  get_instances out = inr ports ->
  forall line e, line ∈ split_char nl out -> port_of_line line <> Some (inl e).
Proof. unfold get_instances. apply fold_ports_all. Qed.

(** The line of a discovery that raises. *)
Lemma get_instances_raises out e :
  get_instances out = inl e ->
  exists line, line ∈ split_char nl out /\ port_of_line line = Some (inl e).
Proof.
  unfold get_instances. pose proof (fold_ports (split_char nl out) ∅) as H.
  intros E. by rewrite E in H.
Qed.

(** *** What a match of the port pattern is *)

Lemma search_some re s gs :
  search re s = Some gs ->
  exists pre s' r, s = pre +:+ s' /\ match_at re s' = Some (gs, r).
Proof.
  induction s as [|c s IH]; cbn [search].
  - destruct (match_at re "") as [[gs' r]|] eqn:E; [|done].
    intros [= <-]. by exists "", "", r.
  - destruct (match_at re (String c s)) as [[gs' r]|] eqn:E.
    + intros [= <-]. by exists "", (String c s), r.
    + intros (pre & s' & r & -> & ?)%IH. by exists (String c pre), s', r.
Qed.

Lemma once_single cs s m r :
  (m, r) ∈ piece_splits (Piece cs Once) s ->
  exists c, m = String c "" /\ s = String c r /\ cs c = true.
Proof.
  simpl. destruct s as [|c s]; [by intros ?%elem_of_nil|].
  destruct (cs c) eqn:E; [|by intros ?%elem_of_nil].
  intros ?%list_elem_of_singleton. simplify_eq. eauto.
Qed.

Lemma lit_i_dash c : lit_i "-" c = true <-> c = "-"%char.
Proof.
  unfold lit_i. split; [|by intros ->].
  destruct c as [[] [] [] [] [] [] [] []]; vm_compute; done.
Qed.

Lemma lit_i_p c : lit_i "p" c = true <-> c = "p"%char \/ c = "P"%char.
Proof.
  unfold lit_i. split; [|by intros [-> | ->]].
  destruct c as [[] [] [] [] [] [] [] []]; vm_compute; auto; done.
Qed.

Lemma port_match s gs r :
  (gs, r) ∈ match_here _port_regex s ->
  exists f ws ds, flag_text s "" f ws ds r /\ gs = [ds].
Proof.
  unfold _port_regex.
  intros (m1 & r1 & (c1 & -> & -> & H1)%once_single & H)%elem_of_match_here_lit.
  apply elem_of_match_here_lit in H as (m2 & r2 & (c2 & -> & -> & H2)%once_single & H).
  apply elem_of_match_here_lit in H as (ws & r3 & Hws & H).
  apply elem_of_match_here_group in H as (ds & r4 & gs' & Hds & -> & H).
  cbn [match_here] in H. apply list_elem_of_singleton in H. simplify_eq.
  apply lit_i_dash in H1 as ->. apply lit_i_p in H2.
  pose proof (plus_nonempty _ _ _ _ Hws) as Hne.
  apply piece_splits_sound in Hws as [-> Hws].
  apply elem_of_pieces_splits_cons in Hds as (d & r5 & m' & Hd & Hnil & ->).
  cbn [pieces_splits] in Hnil. apply list_elem_of_singleton in Hnil. simplify_eq.
  pose proof (plus_nonempty _ _ _ _ Hd) as Hdne.
  apply piece_splits_sound in Hd as [-> Hd].
  rewrite append_nil_r. exists c2, ws, d. split; [|done].
  unfold flag_text. split_and!; try done.
Qed.

Lemma port_of_line_match line r :
  port_of_line line = Some r ->
  exists pre f ws ds rest,
    flag_text (strip line) pre f ws ds rest /\ r = int_of_str ds.
Proof.
  unfold port_of_line.
  destruct (search _port_regex (strip line)) as [m|] eqn:E; [|done].
  intros [= <-].
  apply search_some in E as (pre & s' & r & Hs & Hm).
  apply head_Some_elem_of in Hm.
  apply port_match in Hm as (f & ws & ds & (Hs' & Hf & Hws & Hne & Hds & Hdne) & ->).
  exists pre, f, ws, ds, r. split; [|done].
  unfold flag_text. rewrite Hs, Hs'. done.
Qed.

Lemma port_of_line_flag line p :
  port_of_line line = Some (inr p) ->
  exists pre f ws ds rest,
    flag_text (strip line) pre f ws ds rest /\
    Z.of_nat (String.length ds) <= 4300 /\ p = int_of_digits ds.
Proof.
  intros (pre & f & ws & ds & rest & Hflag & Hp)%port_of_line_match.
  symmetry in Hp. apply int_of_str_inr in Hp. by exists pre, f, ws, ds, rest.
Qed.

(** Discovery raises nothing but the [ValueError] of [int]. *)
Lemma get_instances_value_error out e : get_instances out = inl e -> e = ValueError.
Proof.
  intros (line & _ & Hl)%get_instances_raises.
  apply port_of_line_match in Hl as (? & ? & ? & ds & ? & _ & He).
  symmetry in He. by apply int_of_str_inl in He as [_ ->].
Qed.

(** X2. Only what stands after a flag is taken for a port: every port
    that discovery returns is the value of the digits, no more than
    4300 of them, that follow, after blanks, a [-p] or [-P] in some
    line of the listing. *)
Theorem get_instances_sound out ports p :
  get_instances out = inr ports ->
  p ∈ ports ->
  exists line pre f ws ds rest,
    line ∈ split_char nl out /\
    flag_text (strip line) pre f ws ds rest /\
    Z.of_nat (String.length ds) <= 4300 /\
    p = int_of_digits ds.
Proof.
  intros Hout (line & Hin & Hp)%(elem_of_get_instances _ _ _ Hout).
  apply port_of_line_flag in Hp as (pre & f & ws & ds & rest & ? & ? & ?).
  by exists line, pre, f, ws, ds, rest.
Qed.

Lemma get_instances_sound_witness :
  exists line pre f ws ds rest,
    line ∈ split_char nl "memcached -m 64 -P  11211 -u nobody" /\
    flag_text (strip line) pre f ws ds rest /\
    Z.of_nat (String.length ds) <= 4300 /\
    11211 = int_of_digits ds.
Proof.
  apply (get_instances_sound "memcached -m 64 -P  11211 -u nobody" {[ 11211 ]} 11211).
  - vm_compute. reflexivity.
  - by vm_compute.
Defined.

(** *** The first flag of a line *)

Lemma head_match_here_lit p re s m r1 gs r :
  head (piece_splits p s) = Some (m, r1) ->
  match_at re r1 = Some (gs, r) ->
  match_at (Lit p :: re) s = Some (gs, r).
Proof.
  unfold match_at. cbn [match_here].
  destruct (piece_splits p s) as [|[] l]; intros ? H2; simplify_eq/=.
  by apply head_app_some.
Qed.

Lemma port_match_flag f ws ds rest :
  (f = "p"%char \/ f = "P"%char) ->
  all_chars is_space ws = true -> ws <> "" ->
  all_chars is_digit ds = true -> ds <> "" -> stops digit rest ->
  match_at _port_regex (String "-" (String f (ws +:+ ds +:+ rest))) = Some ([ds], rest).
Proof.
  intros Hf Hws Hne Hds Hdne Hrest. unfold _port_regex.
  rewrite match_at_lit_once by (by apply lit_i_dash).
  rewrite match_at_lit_once by (by apply lit_i_p).
  eapply head_match_here_lit.
  { apply head_plus; [done..|]. destruct ds as [|d ds]; [done|].
    cbn in Hds |- *. apply andb_true_iff in Hds as [Hd _].
    unfold space. by apply digit_not_space. }
  eapply head_match_here_group; [|reflexivity].
  replace ds with (ds +:+ "") at 2 by apply append_nil_r.
  eapply head_pieces_splits_cons; [|reflexivity].
  by apply head_plus.
Qed.

Lemma search_skip pre s :
  no_flag pre = true ->
  search _port_regex (pre +:+ String "-" s) = search _port_regex (String "-" s).
Proof.
  induction pre as [|a pre IH]; [done|]. intros Hpre.
  change (String a pre +:+ String "-" s) with (String a (pre +:+ String "-" s)).
  cbn [search].
  assert (match_at _port_regex (String a (pre +:+ String "-" s)) = None) as ->.
  { unfold match_at, _port_regex. cbn [match_here piece_splits].
    destruct (lit_i "-" a) eqn:Ha; [|done]. apply lit_i_dash in Ha as ->.
    cbn [flat_map fst snd]. rewrite List.app_nil_r.
    destruct pre as [|b pre]; cbn [String.append].
    - assert (lit_i "p" "-"%char = false) as -> by reflexivity. done.
    - cbn [no_flag] in Hpre. apply andb_true_iff in Hpre as [Hb _].
      rewrite Ascii.eqb_refl in Hb. cbn [andb] in Hb.
      unfold lit_i. change (lower "p") with "p"%char.
      by destruct (Ascii.eqb (lower b) "p"). }
  apply IH. destruct pre as [|b pre]; [done|].
  cbn [no_flag] in Hpre. by apply andb_true_iff in Hpre as [_ ?].
Qed.

(** X3. A line whose first flag [-p] (or [-P]) is followed by blanks
    and digits gives the integer of these digits, whatever else the
    line holds: a discovery that returns has the value of the digits
    among its ports. With more than 4300 digits [int] raises, and so
    does discovery, which raises nothing but a [ValueError]. *)
Theorem get_instances_finds_flag out line pre f ws ds rest :
  line ∈ split_char nl out ->
  flag_text (strip line) pre f ws ds rest ->
  no_flag pre = true ->
  stops digit rest ->
  port_of_line line = Some (int_of_str ds) /\
  match get_instances out with
  | inr ports => Z.of_nat (String.length ds) <= 4300 /\ int_of_digits ds ∈ ports
  | inl e => e = ValueError
  end /\
  (4300 < Z.of_nat (String.length ds) -> get_instances out = inl ValueError).
Proof.
  intros Hin (Hs & Hf & Hws & Hne & Hds & Hdne) Hpre Hrest.
  assert (port_of_line line = Some (int_of_str ds)) as Hp.
  { unfold port_of_line. rewrite Hs, search_skip by done. cbn [search].
    by rewrite port_match_flag. }
  assert (match get_instances out with
          | inr ports => Z.of_nat (String.length ds) <= 4300 /\ int_of_digits ds ∈ ports
          | inl e => e = ValueError
          end) as Hout.
  { destruct (get_instances out) as [e|ports] eqn:E.
    - by apply get_instances_value_error in E.
    - destruct (int_of_str ds) as [e|n] eqn:En.
      + exfalso. by apply (no_raise_of_return _ _ E line e).
      + apply int_of_str_inr in En as [? ->]. split; [done|].
        apply (elem_of_get_instances _ _ _ E). exists line. by split. }
  split_and!; [done..|].
  intros Hlong. destruct (get_instances out) as [e|ports]; [by rewrite Hout|].
  destruct Hout. lia.
Qed.

Lemma get_instances_finds_flag_witness :
  port_of_line "root  812  1  0 10:01 ?  00:00:03 memcached -m 64 -p 11211 -u nobody"
    = Some (inr 11211) /\
  exists ports,
    get_instances
      "root  812  1  0 10:01 ?  00:00:03 memcached -m 64 -p 11211 -u nobody" = inr ports /\
    11211 ∈ ports.
Proof.
  destruct (get_instances_finds_flag
           "root  812  1  0 10:01 ?  00:00:03 memcached -m 64 -p 11211 -u nobody"
           "root  812  1  0 10:01 ?  00:00:03 memcached -m 64 -p 11211 -u nobody"
           "root  812  1  0 10:01 ?  00:00:03 memcached -m 64 " "p" " " "11211"
           " -u nobody") as (Hline & Hout & _).
  - left.
  - unfold flag_text. split_and!; try done. by left.
  - reflexivity.
  - reflexivity.
  - split; [exact Hline|].
    destruct (get_instances _) as [e|ports] eqn:E; [by vm_compute in E|].
    exists ports. split; [reflexivity|]. apply Hout.
Defined.

(** *** Ports as decimal texts *)

Lemma int_of_digits_acc_app a (s1 s2 : string) :
  int_of_digits_acc a (s1 +:+ s2) = int_of_digits_acc (int_of_digits_acc a s1) s2.
Proof. revert a. induction s1 as [|c s1 IH]; intros a; simpl; [done|]. apply IH. Qed.

Lemma int_of_digits_acc_nonneg a s :
  0 <= a -> all_chars is_digit s = true -> 0 <= int_of_digits_acc a s.
Proof.
  revert a. induction s as [|c s IH]; intros a Ha; simpl; [done|].
  intros [Hc Hs]%andb_true_iff. apply IH; [|done].
  apply is_digit_range in Hc. unfold digit_val. lia.
Qed.

Lemma digit_val_char d : 0 <= d < 10 -> digit_val (digit_char d) = d.
Proof.
  intros Hd. unfold digit_val, digit_char. rewrite nat_ascii_embedding by lia. lia.
Qed.

Lemma digits_fuel_value fuel n acc :
  0 <= n < 10 ^ Z.of_nat fuel ->
  exists ds, digits_fuel fuel n acc = ds +:+ acc /\ int_of_digits ds = n.
Proof.
  revert n acc. induction fuel as [|fuel IH]; intros n acc Hn.
  - exists "". split; [done|]. change (10 ^ Z.of_nat 0) with 1 in Hn.
    unfold int_of_digits. simpl. lia.
  - cbn [digits_fuel].
    pose proof (Z.mod_pos_bound n 10 ltac:(lia)) as Hmod.
    destruct (Z.ltb_spec n 10) as [Hlt|Hge].
    + exists (String (digit_char (n mod 10)) ""). split; [done|].
      unfold int_of_digits. cbn [int_of_digits_acc].
      rewrite digit_val_char by done. rewrite Z.mod_small by lia. lia.
    + rewrite Nat2Z.inj_succ, Z.pow_succ_r in Hn by lia.
      destruct (IH (n / 10) (String (digit_char (n mod 10)) acc)) as (ds & -> & Hds).
      { split; [apply Z.div_pos; lia|]. apply Z.div_lt_upper_bound; lia. }
      exists (ds +:+ String (digit_char (n mod 10)) ""). split.
      * by rewrite append_assoc.
      * unfold int_of_digits in *. rewrite int_of_digits_acc_app, Hds.
        cbn [int_of_digits_acc]. rewrite digit_val_char by done.
        pose proof (Z.div_mod n 10 ltac:(lia)). lia.
Qed.

Lemma int_of_str_of_nonneg n : 0 <= n -> int_of_digits (str_of_nonneg n) = n.
Proof.
  intros Hn. unfold str_of_nonneg.
  destruct (digits_fuel_value (S (Z.to_nat (Z.log2 n))) n "") as (ds & -> & Hds).
  - split; [done|]. rewrite Nat2Z.inj_succ, Z2Nat.id by apply Z.log2_nonneg.
    destruct (decide (n = 0)) as [->|]; [done|].
    pose proof (Z.log2_spec n ltac:(lia)) as [_ Hlt].
    eapply Z.lt_le_trans; [exact Hlt|].
    apply Z.pow_le_mono_l. pose proof (Z.log2_nonneg n). lia.
  - by rewrite append_nil_r.
Qed.

Lemma port_nonneg out ports p : get_instances out = inr ports -> p ∈ ports -> 0 <= p.
Proof.
  intros Hout (line & _ & Hp)%(elem_of_get_instances _ _ _ Hout).
  apply port_of_line_flag
    in Hp as (pre & f & ws & ds & rest & (_ & _ & _ & _ & Hds & _) & _ & ->).
  by apply int_of_digits_acc_nonneg.
Qed.

(** X4. A port that discovery returns is not negative, and its decimal
    text, as the tag of its points and the log show it, is digits only
    and reads back as the port. *)
Theorem get_instances_port_text out ports p :
  get_instances out = inr ports ->
  p ∈ ports ->
  0 <= p /\
  all_chars is_digit (str_of_int p) = true /\ str_of_int p <> "" /\
  int_of_digits (str_of_int p) = p.
Proof.
  intros Hout (line & _ & Hp)%(elem_of_get_instances _ _ _ Hout).
  apply port_of_line_flag
    in Hp as (pre & f & ws & ds & rest & (_ & _ & _ & _ & Hds & _) & _ & ->).
  assert (0 <= int_of_digits ds) as Hp by (by apply int_of_digits_acc_nonneg).
  split; [done|]. unfold str_of_int.
  destruct (Z.ltb_spec (int_of_digits ds) 0) as [?|_]; [lia|].
  destruct (str_of_nonneg_digits (int_of_digits ds)) as [? ?].
  split_and!; [done..|]. by apply int_of_str_of_nonneg.
Qed.

Lemma get_instances_port_text_witness :
  0 <= 11211 /\
  all_chars is_digit (str_of_int 11211) = true /\ str_of_int 11211 <> "" /\
  int_of_digits (str_of_int 11211) = 11211.
Proof.
  apply (get_instances_port_text "memcached -p 011211" {[ 11211 ]} 11211).
  - vm_compute. reflexivity.
  - by vm_compute.
Defined.

End DiscoveryFacts.

(** ** Commands, slabs and cache dumps *)

Module ProtocolFacts.
Import Text TextFacts Re ReNotions ReFacts StatNotions StatFacts DictFacts MonadNotions MonadFacts MemcachedStats ClientNotions ClientFacts ProtocolNotions.

Lemma command_run net self cmd st :
  command net self cmd st =
  let peer := net (_host self) (_port self) in
  let sent := history st ++ [TnWrite (with_newline cmd)] in
  let t := issuing cmd :: opening self st in
  match st, peer_open peer with
  | None, Some e => (inl e, None, t)
  | _, _ =>
      match peer_write peer (history st) (with_newline cmd) with
      | Some e => (inl e, Some (history st), t)
      | None =>
          match peer_read_until peer sent "END" with
          | inl e => (inl e, Some sent, t)
          | inr text => (inr text, Some (sent ++ [TnRead "END"]), t)
          end
      end
  end.
Proof.
  unfold command, _write, _read_until, client, telnet_write, telnet_read_until, bind,
    get_state, logging, emit, raise, modify, ret, issuing, opening, connecting, history.
  cbv zeta. fold (with_newline cmd). generalize (with_newline cmd). intros line.
  destruct st as [h|]; cbn.
  - destruct (peer_write _ _ _); [done|]. cbn. by destruct (peer_read_until _ _ _).
  - destruct (peer_open _); [done|]. cbn.
    destruct (peer_write _ _ _); [done|]. cbn. by destruct (peer_read_until _ _ _).
Qed.

Lemma ends_with_char_app c s : ends_with_char c (s +:+ String c "") = true.
Proof.
  induction s as [|a s IH]; simpl; [apply Ascii.eqb_refl|].
  destruct s; simpl in *; done.
Qed.

(** X5. A command that returns has written its one line, ended by a line
    feed that is added only when missing, on the connection of the
    instance, opened by this call only when none was open, and has then
    read once, up to [END]: the text returned is what the peer sent for
    that read. *)
Theorem command_returns net self cmd st text st' t :
  command net self cmd st = (inr text, st', t) ->
  let sent := history st ++ [TnWrite (with_newline cmd)] in
  st' = Some (sent ++ [TnRead "END"]) /\
  peer_read_until (net (_host self) (_port self)) sent "END" = inr text /\
  t = issuing cmd :: opening self st /\
  ends_with_char nl (with_newline cmd) = true /\
  (with_newline cmd = cmd \/
   ends_with_char nl cmd = false /\ with_newline cmd = cmd +:+ String nl "").
Proof.
  rewrite command_run. cbv zeta. intros Hrun.
  assert (ends_with_char nl (with_newline cmd) = true /\
          (with_newline cmd = cmd \/
           ends_with_char nl cmd = false /\ with_newline cmd = cmd +:+ String nl "")) as Hnl.
  { unfold with_newline. destruct (ends_with_char nl cmd) eqn:E; [auto|].
    split; [apply ends_with_char_app|auto]. }
  destruct Hnl as [Hnl1 Hnl2].
  assert (match peer_write (net (_host self) (_port self)) (history st) (with_newline cmd) with
          | Some e => (inl e, Some (history st), issuing cmd :: opening self st)
          | None =>
              match peer_read_until (net (_host self) (_port self))
                      (history st ++ [TnWrite (with_newline cmd)]) "END" with
              | inl e => (inl e, Some (history st ++ [TnWrite (with_newline cmd)]),
                          issuing cmd :: opening self st)
              | inr text => (inr text,
                             Some ((history st ++ [TnWrite (with_newline cmd)]) ++
                                   [TnRead "END"]),
                             issuing cmd :: opening self st)
              end
          end = (inr text, st', t)) as Hrun'.
  { destruct st as [h|]; [done|]. by destruct (peer_open _). }
  clear Hrun. destruct (peer_write _ _ _); [done|].
  destruct (peer_read_until _ _ _) as [|text'] eqn:Hread; [done|].
  injection Hrun' as -> <- <-. done.
Qed.

Lemma command_returns_witness :
  exists st' t,
    command (fun _ _ => serving) (local 11211) "stats" None = (inr stats_response, st', t) /\
    st' = Some [TnWrite ("stats" +:+ String nl ""); TnRead "END"] /\
    t = [Logged DEBUG "issue command stats";
         Logged DEBUG "create connection localhost:11211"].
Proof.
  eexists _, _. split; [reflexivity|].
  pose proof (command_returns (fun _ _ => serving) (local 11211) "stats" None
                stats_response _ _ eq_refl) as H.
  cbv zeta in H. destruct H as (H1 & _ & H3 & _).
  split; [exact H1|exact H3].
Defined.

(** X6. A command that raises stopped at the first step that failed, with
    nothing done after it: the connection was refused and none is open;
    or the write failed and the connection shows no new operation; or
    the read failed and the connection shows the write alone. *)
Theorem command_raises net self cmd st e st' t :
  command net self cmd st = (inl e, st', t) ->
  let peer := net (_host self) (_port self) in
  let sent := history st ++ [TnWrite (with_newline cmd)] in
  t = issuing cmd :: opening self st /\
  ((st = None /\ peer_open peer = Some e /\ st' = None) \/
   (peer_write peer (history st) (with_newline cmd) = Some e /\ st' = Some (history st)) \/
   (peer_write peer (history st) (with_newline cmd) = None /\
    peer_read_until peer sent "END" = inl e /\ st' = Some sent)).
Proof.
  rewrite command_run. cbv zeta. intros Hrun.
  destruct st as [h|].
  - destruct (peer_write _ _ _) eqn:Hw.
    { injection Hrun as <- <- <-. auto. }
    destruct (peer_read_until _ _ _) eqn:Hr; [|done].
    injection Hrun as <- <- <-. auto 6.
  - destruct (peer_open _) eqn:Ho.
    { injection Hrun as <- <- <-. auto. }
    destruct (peer_write _ _ _) eqn:Hw.
    { injection Hrun as <- <- <-. auto. }
    destruct (peer_read_until _ _ _) eqn:Hr; [|done].
    injection Hrun as <- <- <-. auto 6.
Qed.

Lemma command_raises_witness :
  exists t,
    command (fun _ _ => silent) (local 11213) "stats" None =
      (inl EOFError, Some [TnWrite ("stats" +:+ String nl "")], t) /\
    t = [Logged DEBUG "issue command stats";
         Logged DEBUG "create connection localhost:11213"].
Proof.
  eexists. split; [reflexivity|].
  pose proof (command_raises (fun _ _ => silent) (local 11213) "stats" None
                EOFError _ _ eq_refl) as H.
  cbv zeta in H. destruct H as (H1 & _).
  exact H1.
Defined.

Lemma without_app bad (a b : string) :
  without bad (a +:+ b) <-> without bad a /\ without bad b.
Proof. unfold without. by rewrite all_chars_app, andb_true_iff. Qed.

Lemma without_cons bad c (s : string) :
  without bad (String c s) -> existsb (Ascii.eqb c) bad = false /\ without bad s.
Proof.
  unfold without. simpl. intros [Hc ?]%andb_true_iff. split; [|done].
  by apply negb_true_iff.
Qed.

Lemma without_String bad c (s : string) :
  existsb (Ascii.eqb c) bad = false -> without bad s -> without bad (String c s).
Proof. unfold without. simpl. by intros -> ->. Qed.

Lemma without_occurrence bad c (s a b : string) :
  existsb (Ascii.eqb c) bad = true -> without bad s -> s = a +:+ String c b -> False.
Proof.
  intros Hc Hs ->. apply without_app in Hs as [_ Hb].
  apply without_cons in Hb as [Hb _]. congruence.
Qed.

Lemma without_weaken bad bad' (s : string) :
  forallb (fun c => existsb (Ascii.eqb c) bad) bad' = true ->
  without bad s -> without bad' s.
Proof.
  intros Hsub. unfold without. induction s as [|c s IH]; [done|]. simpl.
  intros [Hc Hs]%andb_true_iff. rewrite IH by done.
  destruct (existsb (Ascii.eqb c) bad') eqn:E; [|done].
  apply existsb_exists in E as (x & Hx & ->%Ascii.eqb_eq).
  rewrite forallb_forall in Hsub. rewrite (Hsub _ Hx) in Hc. done.
Qed.

Lemma without_dot bad s :
  existsb (Ascii.eqb nl) bad = true -> without bad s -> all_chars dot s = true.
Proof.
  intros Hnl. unfold without. induction s as [|c s IH]; simpl; [done|].
  intros [Hc Hs]%andb_true_iff. rewrite IH by done.
  unfold dot. destruct (Ascii.eqb_spec c nl) as [->|]; [|done].
  by rewrite Hnl in Hc.
Qed.

Lemma findall_from_drop re (m rest : string) :
  findall_from re (String.length m) (m +:+ rest) = findall_from re 0 rest.
Proof. induction m as [|c m IH]; [done|]. apply IH. Qed.

(** After a match that is not empty the scan goes on where it ends. *)
Lemma findall_first re (m rest : string) gs :
  m <> "" -> match_at re (m +:+ rest) = Some (gs, rest) ->
  findall re (m +:+ rest) = gs :: findall re rest.
Proof.
  intros Hm Hat. destruct m as [|c m]; [done|]. unfold findall.
  change (String c m +:+ rest) with (String c (m +:+ rest)) in *.
  cbn [findall_from]. rewrite Hat. f_equal.
  replace (String.length (String c (m +:+ rest)) - String.length rest - 1)%nat
    with (String.length m).
  - apply findall_from_drop.
  - simpl. rewrite length_append. lia.
Qed.

(** A pattern that begins with a literal is found nowhere in a text
    without that character. *)
Lemma search_without c re s :
  without [c] s -> search (Lit (Piece (lit c) Once) :: re) s = None.
Proof.
  induction s as [|a s IH]; [done|].
  intros [Ha Hs]%without_cons. cbn [search]. unfold match_at. cbn [match_here piece_splits].
  unfold lit. cbn [existsb] in Ha. apply orb_false_iff in Ha as [Ha _].
  rewrite Ascii.eqb_sym, Ha. cbn. by apply IH.
Qed.

Lemma lits_mismatch str re s :
  (forall s', s <> str +:+ s') -> match_here (lits str ++ re) s = [].
Proof.
  intros Hs. destruct (match_here (lits str ++ re) s) as [|[gs r] l] eqn:E; [done|].
  assert ((gs, r) ∈ match_here (lits str ++ re) s) as Hin by (rewrite E; left).
  apply elem_of_match_here_lits in Hin as (s' & -> & _). by destruct (Hs s').
Qed.

(** A greedy group of any characters gives back as little as the rest
    of the pattern needs. *)
Lemma group_star_first cs re (a tail : string) gs r :
  all_chars cs a = true ->
  match_at re tail = Some (gs, r) ->
  (forall m r', m <> "" -> tail = m +:+ r' -> match_here re r' = []) ->
  match_at (Group [Piece cs Star] :: re) (a +:+ tail) = Some (a :: gs, r).
Proof.
  intros Ha Htail Hlater. unfold match_at. rewrite match_here_group_single.
  cbn [piece_splits].
  destruct (star_splits_prefix cs a tail Ha) as [l ->].
  destruct (star_splits_last cs tail) as (l0 & Hl0 & Hne).
  assert (Hsound := star_splits_sound cs tail). rewrite Hl0 in Hsound |- *.
  rewrite map_app, !flat_map_app, <- !List.app_assoc.
  rewrite head_app_nil.
  2:{ rewrite flat_map_map. apply flat_map_nil. intros [m r'] Hin. cbn [fst snd].
      rewrite (Hlater m r'); [done|by eapply Hne|].
      apply Hsound. apply elem_of_app. auto. }
  cbn [map flat_map fst snd]. rewrite !append_nil_r, List.app_nil_r. apply head_app_some.
  unfold match_at in Htail. destruct (match_here re tail) as [|[] ?]; simplify_eq/=. done.
Qed.

Lemma slab_regex_eq :
  _slab_regex =
  Lit (Piece (lit "S") Once) ::
  lits "TAT items:" ++ Group [Piece dot Star] :: lits ":number" ++ [].
Proof. reflexivity. Qed.

Lemma slab_match_line id rest :
  all_chars dot id = true -> without [":"%char] rest ->
  match_at _slab_regex ("STAT items:" +:+ id +:+ ":number" +:+ rest) = Some ([id], rest).
Proof.
  intros Hid Hrest. unfold _slab_regex. rewrite match_at_lits.
  change ([Group [Piece dot Star]] ++ lits ":number")
    with (Group [Piece dot Star] :: lits ":number" ++ []).
  apply group_star_first; [done|by rewrite match_at_lits|].
  intros m r' Hm Heq. apply lits_mismatch. intros s' ->.
  destruct m as [|c m]; [done|]. cbn [String.append] in Heq. injection Heq as _ Heq.
  eapply (without_occurrence [":"%char]); [| |exact Heq]; [reflexivity|].
  apply (proj2 (without_app [":"%char] "number" rest)). split; [reflexivity|exact Hrest].
Qed.

(** X7. [slab_ids] line by line: the identifiers are those the lines of the
    response give, in order; a line without the pattern gives none, and
    a line [STAT items:id:number] followed by a count gives [id]. *)
Theorem slab_ids_lines net self st text st' t :
  command net self "stats items" st = (inr text, st', t) ->
  slab_ids net self st = (inr (flat_map slab_line (split_char nl text)), st', t) /\
  (forall line, search _slab_regex line = None -> slab_line line = []) /\
  (forall id rest,
     all_chars dot id = true -> without [":"%char; "S"%char] rest ->
     slab_line ("STAT items:" +:+ id +:+ ":number" +:+ rest) = [id]).
Proof.
  intros Hcmd. split_and!.
  - unfold slab_ids. rewrite bind_ret_run, Hcmd.
    rewrite (findall_lines _slab_regex text) by (repeat constructor || reflexivity).
    by rewrite map_flat_map.
  - intros line Hnone. unfold slab_line. by rewrite search_none_findall.
  - intros id rest Hid Hrest. unfold slab_line.
    assert (without [":"%char] rest) as H1
      by (by apply (without_weaken [":"%char; "S"%char])).
    assert (without ["S"%char] rest) as H2
      by (by apply (without_weaken [":"%char; "S"%char])).
    replace ("STAT items:" +:+ id +:+ ":number" +:+ rest)
      with (("STAT items:" +:+ id +:+ ":number") +:+ rest)
      by (by rewrite !append_assoc).
    rewrite (findall_first _ _ _ [id]).
    + rewrite (search_none_findall _ rest); [done|].
      rewrite slab_regex_eq. by apply search_without.
    + done.
    + rewrite !append_assoc. by apply slab_match_line.
Qed.

Lemma slab_ids_lines_witness :
  (slab_ids (fun _ _ => serving) (local 11211) None).1.1 = inr ["1"] /\
  slab_line ("STAT items:" +:+ "1" +:+ ":number" +:+ (" 2" +:+ String cr "")) = ["1"].
Proof.
  destruct (slab_ids_lines (fun _ _ => serving) (local 11211) None
              items_response _ _ eq_refl) as (Hrun & _ & Hline).
  split.
  - rewrite Hrun. vm_compute. reflexivity.
  - apply Hline; reflexivity.
Defined.

Lemma key_regex_eq :
  _key_regex =
  Lit (Piece (lit "I") Once) ::
  lits "TEM " ++ Group [Piece dot Star] ::
  lits " [" ++ Group [Piece dot Star] ::
  lits "; " ++ Group [Piece dot Star] :: lits "]" ++ [].
Proof. reflexivity. Qed.

Lemma item_match_line key size expiry rest :
  all_chars dot key = true ->
  without [nl; "["%char] size ->
  without [nl; "["%char; ";"%char] expiry ->
  without ["["%char; ";"%char; "]"%char] rest ->
  match_at _key_regex ("ITEM " +:+ key +:+ " [" +:+ size +:+ "; " +:+ expiry +:+ "]" +:+ rest)
  = Some ([key; size; expiry], rest).
Proof.
  intros Hkey Hsize Hexp Hrest.
  unfold _key_regex. rewrite match_at_lits.
  change ([Group [Piece dot Star]] ++ lits " [" ++ [Group [Piece dot Star]] ++
          lits "; " ++ [Group [Piece dot Star]] ++ lits "]")
    with (Group [Piece dot Star] :: lits " [" ++ Group [Piece dot Star] ::
          lits "; " ++ Group [Piece dot Star] :: lits "]" ++ []).
  apply group_star_first; [done| |].
  2:{ intros m r' Hm Heq. apply lits_mismatch. intros s' ->.
      destruct m as [|c m]; [done|]. cbn [String.append] in Heq. injection Heq as _ Heq.
      destruct m as [|c' m]; cbn [String.append] in Heq; [done|]. injection Heq as _ Heq.
      eapply (without_occurrence ["["%char] "[" _ (m +:+ " ") s');
        [reflexivity| |rewrite append_assoc; exact Heq].
      apply without_app. split; [by apply (without_weaken [nl; "["%char])|].
      do 2 (apply without_String; [reflexivity|]).
      apply without_app. split; [by apply (without_weaken [nl; "["%char; ";"%char])|].
      apply without_String; [reflexivity|].
      by apply (without_weaken ["["%char; ";"%char; "]"%char]). }
  rewrite match_at_lits.
  apply group_star_first; [by apply (without_dot [nl; "["%char])| |].
  2:{ intros m r' Hm Heq. apply lits_mismatch. intros s' ->.
      destruct m as [|c m]; [done|]. cbn [String.append] in Heq. injection Heq as _ Heq.
      destruct m as [|c' m]; cbn [String.append] in Heq; [done|]. injection Heq as _ Heq.
      eapply (without_occurrence [";"%char] ";" _ m (String " " s'));
        [reflexivity| |exact Heq].
      apply without_app. split; [by apply (without_weaken [nl; "["%char; ";"%char])|].
      apply without_String; [reflexivity|].
      by apply (without_weaken ["["%char; ";"%char; "]"%char]). }
  rewrite match_at_lits.
  apply group_star_first; [by apply (without_dot [nl; "["%char; ";"%char])| |].
  2:{ intros m r' Hm Heq. apply lits_mismatch. intros s' ->.
      destruct m as [|c m]; [done|]. cbn [String.append] in Heq. injection Heq as _ Heq.
      eapply (without_occurrence ["]"%char] "]" _ m s'); [reflexivity| |exact Heq].
      by apply (without_weaken ["["%char; ";"%char; "]"%char]). }
  by rewrite match_at_lits.
Qed.

(** X8. A cache dump line by line: the entries found in a response are
    those of its lines, in order; a line without the pattern gives
    none, and a line [ITEM key [size; expiry]] gives the entry of its
    key, size and expiry. *)
Theorem item_lines text :
  findall _key_regex text = flat_map item_line (split_char nl text) /\
  (forall line, search _key_regex line = None -> item_line line = []) /\
  (forall key size expiry rest,
     all_chars dot key = true ->
     without [nl; "["%char] size ->
     without [nl; "["%char; ";"%char] expiry ->
     without ["["%char; ";"%char; "]"%char; "I"%char] rest ->
     item_line ("ITEM " +:+ key +:+ " [" +:+ size +:+ "; " +:+ expiry +:+ "]" +:+ rest)
     = [[key; size; expiry]]).
Proof.
  split_and!.
  - apply findall_lines; repeat constructor || reflexivity.
  - intros line Hnone. unfold item_line. by rewrite search_none_findall.
  - intros key size expiry rest Hkey Hsize Hexp Hrest. unfold item_line.
    assert (without ["["%char; ";"%char; "]"%char] rest) as H1
      by (by apply (without_weaken ["["%char; ";"%char; "]"%char; "I"%char])).
    assert (without ["I"%char] rest) as H2
      by (by apply (without_weaken ["["%char; ";"%char; "]"%char; "I"%char])).
    replace ("ITEM " +:+ key +:+ " [" +:+ size +:+ "; " +:+ expiry +:+ "]" +:+ rest)
      with (("ITEM " +:+ key +:+ " [" +:+ size +:+ "; " +:+ expiry +:+ "]") +:+ rest)
      by (by rewrite !append_assoc).
    rewrite (findall_first _ _ _ [key; size; expiry]).
    + rewrite (search_none_findall _ rest); [done|].
      rewrite key_regex_eq. by apply search_without.
    + done.
    + rewrite !append_assoc. by apply item_match_line.
Qed.

(** *** One command for each slab *)

Lemma cachedumps_app_run net self ids1 ids2 limit st :
  cachedumps net self (ids1 ++ ids2) limit st =
  match cachedumps net self ids1 limit st with
  | (inr r1, st1, t1) =>
      match cachedumps net self ids2 limit st1 with
      | (inr r2, st2, t2) => (inr (r1 ++ r2), st2, t1 ++ t2)
      | (inl e, st2, t2) => (inl e, st2, t1 ++ t2)
      end
  | (inl e, st1, t1) => (inl e, st1, t1)
  end.
Proof.
  revert st. induction ids1 as [|id ids1 IH]; intros st.
  - cbn [app cachedumps]. unfold ret.
    by destruct (cachedumps net self ids2 limit st) as [[[e|r2] st2] t2].
  - cbn [app cachedumps]. rewrite !bind_run.
    destruct (command _ _ _ _) as [[[e|text] st1] t1]; [done|].
    rewrite !bind_ret_run, IH.
    destruct (cachedumps net self ids1 limit st1) as [[[e|r1] st2] t2]; [done|].
    destruct (cachedumps net self ids2 limit st2) as [[[e|r2] st3] t3].
    + by rewrite List.app_assoc.
    + by rewrite !List.app_assoc.
Qed.


Lemma cachedumps_failure net self ids1 id ids2 limit st r1 st1 t1 e st2 t2 :
  cachedumps net self ids1 limit st = (inr r1, st1, t1) ->
  command net self ("stats cachedump " +:+ id +:+ " " +:+ str_of_int limit) st1
    = (inl e, st2, t2) ->
  cachedumps net self (ids1 ++ id :: ids2) limit st = (inl e, st2, t1 ++ t2).
Proof.
  intros Hdumps Hcmd. rewrite cachedumps_app_run, Hdumps.
  cbn [cachedumps]. by rewrite bind_run, Hcmd.
Qed.

(** X10. [key_details] gives all or nothing: with no slab in use it returns
    the empty list after the one command [stats items]; and when the
    dump of one slab fails, the exception is that of the call, whatever
    the slabs before it gave, and the slabs after it are not asked. *)
Theorem key_details_all_or_nothing net self sort limit st :
  (forall st0 t0,
     slab_ids net self st = (inr [], st0, t0) ->
     key_details net self sort limit st = (inr [], st0, t0) /\
     keys net self sort limit st = (inr [], st0, t0)) /\
  (forall ids1 id ids2 st0 t0 r1 st1 t1 e st2 t2,
     slab_ids net self st = (inr (ids1 ++ id :: ids2), st0, t0) ->
     cachedumps net self ids1 limit st0 = (inr r1, st1, t1) ->
     command net self ("stats cachedump " +:+ id +:+ " " +:+ str_of_int limit) st1
       = (inl e, st2, t2) ->
     key_details net self sort limit st = (inl e, st2, t0 ++ t1 ++ t2) /\
     keys net self sort limit st = (inl e, st2, t0 ++ t1 ++ t2)).
Proof.
  split.
  - intros st0 t0 Hslab.
    assert (key_details net self sort limit st = (inr [], st0, t0)) as Hkd.
    { unfold key_details. rewrite (bind_inr _ _ _ _ _ _ Hslab). cbn [cachedumps].
      unfold bind, ret. cbn. destruct sort; cbn; by rewrite List.app_nil_r. }
    split; [done|]. unfold keys. by rewrite bind_ret_run, Hkd.
  - intros ids1 id ids2 st0 t0 r1 st1 t1 e st2 t2 Hslab Hdumps Hcmd.
    assert (key_details net self sort limit st = (inl e, st2, t0 ++ t1 ++ t2)) as Hkd.
    { unfold key_details. rewrite (bind_inr _ _ _ _ _ _ Hslab).
      rewrite (bind_inl _ _ _ _ _ _ (cachedumps_failure _ _ _ _ ids2 _ _ _ _ _ _ _ _
                                       Hdumps Hcmd)). done. }
    split; [done|]. unfold keys. by rewrite bind_ret_run, Hkd.
Qed.

Lemma ltb_asym (a b : string) : ltb a b = true -> ltb b a = false.
Proof.
  revert b. induction a as [|x a IH]; intros [|y b]; simpl; try done.
  destruct (Nat.ltb_spec (nat_of_ascii x) (nat_of_ascii y)),
           (Nat.ltb_spec (nat_of_ascii y) (nat_of_ascii x)); try done; try lia.
  apply IH.
Qed.

Lemma tuple_ltb_asym a b : tuple_ltb a b = true -> tuple_ltb b a = false.
Proof.
  revert b. induction a as [|x a IH]; intros [|y b]; simpl; try done.
  destruct (ltb x y) eqn:Exy.
  - intros _. by rewrite (ltb_asym _ _ Exy).
  - destruct (ltb y x) eqn:Eyx; [done|]. apply IH.
Qed.

Lemma insert_sorted_perm x l : insert_sorted x l ≡ₚ x :: l.
Proof.
  induction l as [|y l IH]; simpl; [done|].
  destruct (tuple_ltb y x); [|done]. rewrite IH. apply Permutation_swap.
Qed.

Lemma sorted_perm l : sorted l ≡ₚ l.
Proof.
  induction l as [|x l IH]; simpl; [done|]. by rewrite insert_sorted_perm, IH.
Qed.

Lemma insert_sorted_ordered x l : ordered l -> ordered (insert_sorted x l).
Proof.
  induction l as [|y l IH]; [done|]. intros Hl. cbn [insert_sorted].
  destruct (tuple_ltb y x) eqn:Eyx.
  - destruct l as [|z l]; cbn [insert_sorted ordered] in *.
    + split; [|done]. by apply tuple_ltb_asym.
    + destruct Hl as [Hzy Hl]. specialize (IH Hl).
      destruct (tuple_ltb z x); split; try done. by apply tuple_ltb_asym.
  - cbn [ordered]. done.
Qed.

Lemma sorted_ordered l : ordered (sorted l).
Proof. induction l as [|x l IH]; [done|]. simpl. by apply insert_sorted_ordered. Qed.

Lemma key_details_run net self sort limit st :
  key_details net self sort limit st =
  match key_details net self false limit st with
  | (inr r, st', t) => (inr (if sort then sorted r else r), st', t)
  | (inl e, st', t) => (inl e, st', t)
  end.
Proof.
  unfold key_details. rewrite !bind_run.
  destruct (slab_ids net self st) as [[[e|ids] st0] t0]; [done|].
  rewrite !bind_run.
  destruct (cachedumps net self ids limit st0) as [[[e|r] st1] t1]; [done|].
  destruct sort; cbn; by rewrite !List.app_nil_r.
Qed.

(** X11. Sorting changes the order alone: [key_details] with [sort] does
    what it does without, fails when it fails, and returns the same
    entries, rearranged so that none is below the one before it;
    [keys] gives the first field of each entry, in that order. *)
Theorem key_details_sorted net self limit st :
  match key_details net self false limit st with
  | (inr r, st', t) =>
      exists r', key_details net self true limit st = (inr r', st', t) /\
                 r' ≡ₚ r /\ ordered r' /\
                 keys net self true limit st = (inr (map (hd "") r'), st', t) /\
                 keys net self false limit st = (inr (map (hd "") r), st', t)
  | (inl e, st', t) =>
      key_details net self true limit st = (inl e, st', t) /\
      keys net self true limit st = (inl e, st', t) /\
      keys net self false limit st = (inl e, st', t)
  end.
Proof.
  unfold keys. rewrite !bind_ret_run, (key_details_run net self true).
  destruct (key_details net self false limit st) as [[[e|r] st'] t]; [done|].
  exists (sorted r). split_and!; [done|apply sorted_perm|apply sorted_ordered|done..].
Qed.

Lemma get_app k (a b : dict) :
  Dict.get k (a ++ b) = match Dict.get k a with Some v => Some v | None => Dict.get k b end.
Proof.
  induction a as [|[k' v'] a IH]; simpl; [done|]. by destruct (String.eqb k k').
Qed.

Lemma get_set k k' v (d : dict) :
  Dict.get k (Dict.set k' v d) = if String.eqb k k' then Some v else Dict.get k d.
Proof.
  destruct (String.eqb_spec k k') as [->|Hne].
  - apply get_set_eq.
  - apply get_set_ne. congruence.
Qed.

Lemma get_fold_set k l (d : dict) :
  Dict.get k (fold_left (fun d kv => Dict.set kv.1 kv.2 d) l d) =
  match last_value k l with Some v => Some v | None => Dict.get k d end.
Proof.
  unfold last_value. revert d. induction l as [|[k' v'] l IH]; intros d; simpl; [done|].
  rewrite IH, get_app. destruct (Dict.get k (rev l)); [done|].
  simpl. rewrite get_set. by destruct (String.eqb k k').
Qed.

(** X12. When a name stands on several lines of the response, [stats] keeps
    it once, with the value of the last of them. *)
Theorem stats_last_wins net self st text st' t :
  command net self "stats" st = (inr text, st', t) ->
  exists d,
    stats net self st = (inr d, st', t) /\
    NoDup (Dict.keys d) /\
    forall k, Dict.get k d = last_value k (flat_map stat_line (split_char nl text)).
Proof.
  intros Hcmd. eexists. split_and!.
  - rewrite stats_run, Hcmd. reflexivity.
  - apply NoDup_of_pairs.
  - intros k.
    assert (map as_pair (findall _stat_regex text) =
            flat_map stat_line (split_char nl text)) as ->.
    { rewrite (findall_lines _ text stat_regex_nl_free stat_regex_starts).
      by rewrite map_flat_map. }
    unfold Dict.of_pairs. rewrite get_fold_set. by destruct (last_value k _).
Qed.

Lemma stats_last_wins_witness :
  exists d st' t,
    stats (fun _ _ => repeating) (local 11211) None = (inr d, st', t) /\
    Dict.get "threads" d = Some "8" /\ Dict.get "uptime" d = Some "17".
Proof.
  destruct (stats_last_wins (fun _ _ => repeating) (local 11211) None _ _ _ eq_refl)
    as (d & Hrun & _ & Hget).
  exists d. eexists _, _. split; [exact Hrun|].
  rewrite !Hget. split; vm_compute; reflexivity.
Defined.

End ProtocolFacts.

(** ** The statistics normaliser, beyond the missing key *)

Module OutcomeFacts.
Import Dict DictFacts MonadNotions MonadFacts Normalizer NormalizerNotions NormalizerFacts OutcomeNotions.

Lemma normalize_no_pid stats : get "pid" (normalize stats).2 = None.
Proof.
  destruct (mem "pid" stats) eqn:Hp; [destruct (mem "time" stats) eqn:Ht|].
  - by apply normalize_frame.
  - unfold normalize. rewrite Hp, Ht. apply get_remove_eq.
  - unfold normalize. rewrite Hp. by apply mem_false.
Qed.

Lemma normalize_absent stats :
  get "pid" stats = None -> normalize stats = (inl (KeyError "pid"), stats).
Proof. intros H%mem_false. unfold normalize. by rewrite H. Qed.

(** X13. [wrap_stats] does not take its own result: what it returns never
    holds [pid], so that a second call on it stops at the first
    deletion, logs the missing key and returns it as it is. *)
Theorem wrap_stats_twice {S} (stats : dict) (s : S) :
  exists r t,
    wrap_stats stats s = (inr r, s, t) /\
    get "pid" r = None /\
    wrap_stats r s = (inr r, s, [access_error]).
Proof.
  exists (normalize stats).2. eexists. split; [apply wrap_stats_run|].
  pose proof (normalize_no_pid stats) as Hp. split; [done|].
  by rewrite wrap_stats_run, (normalize_absent _ Hp).
Qed.

Lemma normalize_other_keys stats k :
  k ∉ "pid" :: "time" :: derived_keys -> get k (normalize stats).2 = get k stats.
Proof.
  intros Hk.
  destruct (mem "pid" stats) eqn:Hp; [destruct (mem "time" stats) eqn:Ht|].
  - by apply normalize_frame.
  - unfold normalize. rewrite Hp, Ht. cbn [snd].
    apply get_remove_ne. intros <-. apply Hk. left.
  - unfold normalize. by rewrite Hp.
Qed.

Lemma normalize_time stats v :
  get "time" (normalize stats).2 = Some v -> get "time" stats = Some v.
Proof.
  destruct (mem "pid" stats) eqn:Hp; [destruct (mem "time" stats) eqn:Ht|].
  - destruct (normalize_frame stats Hp Ht) as (_ & -> & _). done.
  - unfold normalize. rewrite Hp, Ht. cbn [snd]. by rewrite get_remove_ne.
  - unfold normalize. by rewrite Hp.
Qed.

(** X14. [wrap_stats] adds and changes derived fields only: whatever the
    input, a key that is not [pid], [time] or a derived field has in
    the result the value it had, or none as before, and every entry of
    the result under a key that is not a derived field is an entry of
    the input. *)
Theorem wrap_stats_other_keys {S} (stats : dict) (s : S) :
  exists r t,
    wrap_stats stats s = (inr r, s, t) /\
    (forall k, k ∉ "pid" :: "time" :: derived_keys -> get k r = get k stats) /\
    (forall k v, get k r = Some v -> k ∈ derived_keys \/ get k stats = Some v).
Proof.
  exists (normalize stats).2. eexists. split; [apply wrap_stats_run|].
  split; [apply normalize_other_keys|].
  intros k v Hget. destruct (decide (k ∈ derived_keys)) as [|Hd]; [by left|right].
  destruct (decide (k = "pid")) as [->|Hp].
  { by rewrite normalize_no_pid in Hget. }
  destruct (decide (k = "time")) as [->|Ht]; [by apply normalize_time|].
  rewrite normalize_other_keys in Hget; [done|].
  intros [->|[->|?]%elem_of_cons]%elem_of_cons; done.
Qed.

(** X15. With [limit_maxbytes] zero the division of [usage] raises
    [ZeroDivisionError], which the handler for [KeyError] does not
    take and [finally: return] drops: [wrap_stats] returns the input
    less [pid] and [time], with no derived field added, and logs
    nothing. *)
Theorem wrap_stats_zero_limit {S} (stats : dict) (s : S) (b l : Float.float) :
  mem "pid" stats = true -> mem "time" stats = true ->
  read_float "bytes" stats = inr b ->
  read_float "limit_maxbytes" stats = inr l ->
  Float.is_zero l = true ->
  wrap_stats stats s = (inr (remove "time" (remove "pid" stats)), s, []).
Proof.
  intros Hp Ht Hb Hl Hz. rewrite wrap_stats_run.
  assert (normalize stats = (inl ZeroDivisionError, remove "time" (remove "pid" stats)))
    as ->; [|done].
  unfold normalize, usage_value, set_result. by rewrite Hp, Ht, Hb, Hl, Hz.
Qed.

Lemma wrap_stats_zero_limit_witness :
  wrap_stats (S := unit) stats_no_memory tt =
    (inr [("bytes", "0"); ("limit_maxbytes", "0"); ("get_hits", "3"); ("get_misses", "1")],
     tt, []).
Proof.
  apply (wrap_stats_zero_limit stats_no_memory tt (Float.of_int 0) (Float.of_int 0));
    vm_compute; reflexivity.
Defined.

Ltac listed :=
  unfold required_keys, source_keys, hit_pairs;
  repeat first [apply list_elem_of_here | apply list_elem_of_further].

Lemma read_float_value k d e :
  is_Some (get k d) -> read_float k d = inl e -> e = ValueError.
Proof.
  unfold read_float. intros [v ->]. destruct (Float.of_string v); [done|]. by intros [= <-].
Qed.

Lemma usage_value_inr d u :
  usage_value d = inr u <->
  exists b l, read_float "bytes" d = inr b /\ read_float "limit_maxbytes" d = inr l /\
              Float.is_zero l = false /\ u = usage_text b l.
Proof.
  unfold usage_value. split.
  - destruct (read_float "bytes" d) as [|b]; [done|].
    destruct (read_float "limit_maxbytes" d) as [|l]; [done|].
    destruct (Float.is_zero l) eqn:E; [done|]. intros [= <-]. by exists b, l.
  - intros (b & l & -> & -> & -> & ->). done.
Qed.

Lemma ratio_value_inr h m d v :
  ratio_value h m d = inr v <->
  exists fh fm, read_float h d = inr fh /\ read_float m d = inr fm /\ v = ratio_text fh fm.
Proof.
  unfold ratio_value. split.
  - destruct (read_float h d) as [|fh]; [done|].
    destruct (read_float m d) as [|fm]; [done|]. intros [= <-]. by exists fh, fm.
  - intros (fh & fm & -> & -> & ->). done.
Qed.

Lemma usage_value_no_key d e :
  is_Some (get "bytes" d) -> is_Some (get "limit_maxbytes" d) ->
  usage_value d = inl e -> e = ValueError \/ e = ZeroDivisionError.
Proof.
  intros Hb Hl. unfold usage_value.
  destruct (read_float "bytes" d) as [e'|b] eqn:Eb.
  { intros [= <-]. left. exact (read_float_value _ _ _ Hb Eb). }
  destruct (read_float "limit_maxbytes" d) as [e'|l] eqn:El.
  { intros [= <-]. left. exact (read_float_value _ _ _ Hl El). }
  destruct (Float.is_zero l); [|done]. intros [= <-]. by right.
Qed.

Lemma ratio_value_no_key h m d e :
  is_Some (get h d) -> is_Some (get m d) -> ratio_value h m d = inl e -> e = ValueError.
Proof.
  intros Hh Hm. unfold ratio_value.
  destruct (read_float h d) as [e'|fh] eqn:Eh.
  { intros [= <-]. exact (read_float_value _ _ _ Hh Eh). }
  destruct (read_float m d) as [e'|fm] eqn:Em; [|done].
  intros [= <-]. exact (read_float_value _ _ _ Hm Em).
Qed.

(** X16. Only a missing key is logged. When every key the normaliser asks
    for is present, [wrap_stats] logs nothing, whatever the values: a
    value that is not a number and a zero [limit_maxbytes] stop it
    without a record. It then runs to its end exactly when every source
    value is a number and [limit_maxbytes] is not zero. *)
Theorem wrap_stats_silent {S} (stats : dict) (s : S) :
  (forall k, k ∈ required_keys -> is_Some (get k stats)) ->
  (wrap_stats stats s).2 = [] /\
  (succeeds stats <->
   (forall k, k ∈ source_keys -> exists x, read_float k stats = inr x) /\
   limit_not_zero stats).
Proof.
  intros Hkeys.
  assert (forall k, k ∈ source_keys -> is_Some (get k stats)) as Hsrc.
  { intros k Hk. apply Hkeys. by do 2 right. }
  assert (mem "pid" stats = true) as Hp by (apply mem_get, Hkeys; left).
  assert (mem "time" stats = true) as Ht by (apply mem_get, Hkeys; right; left).
  split.
  - rewrite wrap_stats_run. cbn [snd].
    destruct (normalize stats).1 as [e|] eqn:E; [|done].
    assert (e = ValueError \/ e = ZeroDivisionError) as [-> | ->]; [|done..].
    revert E. unfold normalize, set_result. rewrite Hp, Ht.
    destruct (usage_value stats) as [e1|u] eqn:E1.
    { intros [= <-]. eapply usage_value_no_key; [| |done]; apply Hsrc; listed. }
    destruct (ratio_value "get_hits" "get_misses" stats) as [e2|] eqn:E2.
    { intros [= <-]. left. eapply ratio_value_no_key; [| |done]; apply Hsrc; listed. }
    destruct (ratio_value "incr_hits" "incr_misses" stats) as [e3|] eqn:E3.
    { intros [= <-]. left. eapply ratio_value_no_key; [| |done]; apply Hsrc; listed. }
    destruct (ratio_value "decr_hits" "decr_misses" stats) as [e4|] eqn:E4.
    { intros [= <-]. left. eapply ratio_value_no_key; [| |done]; apply Hsrc; listed. }
    destruct (ratio_value "delete_hits" "delete_misses" stats) as [e5|] eqn:E5; [|done].
    intros [= <-]. left. eapply ratio_value_no_key; [| |done]; apply Hsrc; listed.
  - rewrite succeeds_iff. split.
    + intros (_ & _ & [u Hu] & Hr).
      apply usage_value_inr in Hu as (b & l & Hb & Hl & Hz & _).
      destruct (Hr "get_hits" "get_misses" "get_hit_ratio" ltac:(listed))
        as [? (? & ? & ? & ? & _)%ratio_value_inr].
      destruct (Hr "incr_hits" "incr_misses" "incr_hit_ratio" ltac:(listed))
        as [? (? & ? & ? & ? & _)%ratio_value_inr].
      destruct (Hr "decr_hits" "decr_misses" "decr_hit_ratio" ltac:(listed))
        as [? (? & ? & ? & ? & _)%ratio_value_inr].
      destruct (Hr "delete_hits" "delete_misses" "delete_hit_ratio" ltac:(listed))
        as [? (? & ? & ? & ? & _)%ratio_value_inr].
      split.
      * intros k Hk. unfold source_keys in Hk.
        repeat (apply elem_of_cons in Hk as [->|Hk]; [eauto|]).
        by apply elem_of_nil in Hk.
      * intros v l' Hv Hl'. unfold read_float in Hl. rewrite Hv, Hl' in Hl. congruence.
    + intros [Hnum Hz]. split_and!; [done..| |].
      * destruct (Hnum "bytes") as [b Hb]; [listed|].
        destruct (Hnum "limit_maxbytes") as [l Hl]; [listed|].
        exists (usage_text b l). apply usage_value_inr. exists b, l. split_and!; try done.
        unfold read_float in Hl. destruct (get "limit_maxbytes" stats) as [v|] eqn:Ev; [|done].
        destruct (Float.of_string v) as [l'|] eqn:El; [|done]. injection Hl as ->.
        by apply (Hz v).
      * intros h m r Hhm.
        assert (h ∈ source_keys /\ m ∈ source_keys) as [Hh Hm].
        { unfold hit_pairs in Hhm.
          repeat (apply elem_of_cons in Hhm as [[= -> -> ->]|Hhm]; [split; listed|]).
          by apply elem_of_nil in Hhm. }
        destruct (Hnum h Hh) as [fh Hfh]. destruct (Hnum m Hm) as [fm Hfm].
        exists (ratio_text fh fm). apply ratio_value_inr. by exists fh, fm.
Qed.

Lemma wrap_stats_silent_witness :
  (wrap_stats (S := unit) stats_complete tt).2 = [] /\
  (succeeds stats_complete <->
   (forall k, k ∈ source_keys -> exists x, read_float k stats_complete = inr x) /\
   limit_not_zero stats_complete).
Proof.
  apply (wrap_stats_silent stats_complete tt).
  intros k Hk. unfold required_keys, source_keys in Hk.
  repeat (apply elem_of_cons in Hk as [->|Hk]; [by eexists|]).
  by apply elem_of_nil in Hk.
Defined.

End OutcomeFacts.

(** ** The collector, port by port and as a program *)

Module RunFacts.
Import Text TextFacts Dict DictFacts MonadNotions MonadFacts StatNotions StatFacts FloatNotions FloatFacts NormalizerNotions NormalizerFacts MemcachedStats ClientNotions ClientFacts Collector CollectorNotions CollectorFacts DiscoveryNotions DiscoveryFacts ProtocolNotions ProtocolFacts RunNotions.

(** *** From [wrap_stats] to the points *)

(** X17. What [wrap_stats] returns for statistics that are numbers under
    distinct names is again numbers under distinct names, so that the
    loop over its keys converts every value and raises nothing: it adds
    one point for each entry. *)
Theorem wrap_stats_keeps_numbers {S} (w : World) (port : Z) (stats : dict) (s : S)
    (data : list MetricPoint) :
  numeric stats -> NoDup (Dict.keys stats) ->
  exists r t,
    Normalizer.wrap_stats stats s = (inr r, s, t) /\
    numeric r /\ NoDup (Dict.keys r) /\
    emit_points w port r (Dict.keys r) data tt = (inr (data ++ points_of w port r), tt, []) /\
    length (points_of w port r) = length r.
Proof.
  intros Hnum Hnd. exists (normalize stats).2. eexists.
  split; [apply wrap_stats_run|].
  pose proof (normalize_numeric _ Hnum) as Hnum'.
  pose proof (normalize_NoDup _ Hnd) as Hnd'.
  split_and!; [done|done|by apply emit_points_run|by apply points_of_length].
Qed.

Lemma wrap_stats_keeps_numbers_witness :
  exists r t,
    Normalizer.wrap_stats (S := unit) stats_complete tt = (inr r, tt, t) /\
    numeric r /\ NoDup (Dict.keys r) /\
    emit_points example_world 11211 r (Dict.keys r) [] tt =
      (inr ([] ++ points_of example_world 11211 r), tt, []) /\
    length (points_of example_world 11211 r) = length r.
Proof.
  apply (wrap_stats_keeps_numbers example_world 11211 stats_complete tt []).
  - intros k v Hin. unfold stats_complete in Hin.
    repeat (apply elem_of_cons in Hin as [[= -> ->]|Hin]; [by eexists|]).
    by apply elem_of_nil in Hin.
  - unfold stats_complete. cbn [Dict.keys map fst].
    repeat (apply NoDup_cons; split;
            [intros Hin; repeat (apply elem_of_cons in Hin as [?|Hin]; [done|]);
             by apply elem_of_nil in Hin|]).
    apply NoDup_nil_2.
Defined.

(** *** One port *)

Lemma close_on_open net self h :
  close net self (Some h) =
  match peer_write (net (_host self) (_port self)) h quit_line with
  | Some e => (inl e, Some h, [])
  | None => (inr None, Some (h ++ [TnWrite quit_line]), [])
  end.
Proof.
  unfold close, _write, client, telnet_write, bind, get_state, raise, modify, ret.
  change (ends_with_char nl "quit") with false. cbv iota zeta. unfold quit_line. cbn.
  by destruct (peer_write _ _ _).
Qed.

Lemma query_session_run w timeout port :
  query w timeout port tt =
  ((session w timeout port None).1.1, tt, (session w timeout port None).2).
Proof.
  unfold query, with_instance. fold (instance timeout port).
  fold (session w timeout port). by destruct (session w timeout port None) as [[? ?] ?].
Qed.

(** X18. A query that returns has used one connection for one exchange:
    connect, write [stats], read up to [END], write [quit], and
    nothing else; its records are those of the command and of the
    connection, and that of [wrap_stats] if it logged. *)
Theorem query_session w timeout port stats :
  (query w timeout port tt).1.1 = inr stats ->
  exists raw t,
    session w timeout port None =
      (inr stats,
       Some [TnWrite ("stats" +:+ String nl ""); TnRead "END"; TnWrite quit_line],
       issuing "stats" :: connecting (instance timeout port) :: t) /\
    Normalizer.wrap_stats (S := state) raw
      (Some [TnWrite ("stats" +:+ String nl ""); TnRead "END"])
    = (inr stats, Some [TnWrite ("stats" +:+ String nl ""); TnRead "END"], t).
Proof.
  rewrite query_session_run. cbn [fst snd]. unfold session.
  rewrite bind_run, stats_run, command_run. cbv zeta.
  change (with_newline "stats") with ("stats" +:+ String nl "").
  cbn [history opening app].
  destruct (peer_open _); [done|].
  destruct (peer_write _ _ _); [done|].
  destruct (peer_read_until _ _ _) as [|text]; [done|].
  rewrite bind_run, wrap_stats_run, bind_ret_run, close_on_open.
  destruct (peer_write _ _ _); [done|]. cbn [fst snd app].
  intros [= <-]. eexists _, _. split; [|apply wrap_stats_run].
  by rewrite List.app_nil_r.
Qed.

Lemma query_session_witness :
  exists raw t,
    session example_world two_seconds 11211 None =
      (inr example_stats,
       Some [TnWrite ("stats" +:+ String nl ""); TnRead "END"; TnWrite quit_line],
       issuing "stats" :: connecting (instance two_seconds 11211) :: t) /\
    Normalizer.wrap_stats (S := state) raw
      (Some [TnWrite ("stats" +:+ String nl ""); TnRead "END"])
    = (inr example_stats, Some [TnWrite ("stats" +:+ String nl ""); TnRead "END"], t).
Proof.
  apply (query_session example_world two_seconds 11211 example_stats).
  vm_compute. reflexivity.
Defined.

(** X19. Closing is part of the query: when the statistics have been read
    and [close] then raises, the port counts as failed; its statistics
    are dropped, it gives no point, and its failure is logged. A
    [close] that never returns leaves no record, as nothing comes after
    it. *)
Theorem query_close_failure w timeout port raw st1 t1 e st2 t2 :
  MemcachedStats.stats (network w) (instance timeout port) None = (inr raw, st1, t1) ->
  close (network w) (instance timeout port) st1 = (inl e, st2, t2) ->
  (query w timeout port tt).1.1 = inl e /\
  port_points w timeout port = [] /\
  (e <> Blocked -> failure_record port ∈ port_events w timeout port) /\
  (e = Blocked -> blocks w timeout port).
Proof.
  intros Hstats Hclose.
  assert ((query w timeout port tt).1.1 = inl e) as Hq.
  { rewrite query_session_run. cbn [fst snd]. unfold session.
    rewrite bind_run, Hstats, bind_run, wrap_stats_run, bind_ret_run, Hclose. done. }
  split; [done|]. unfold port_points, port_events, blocks. rewrite Hq.
  split_and!; [done| |by intros ->].
  intros He. apply elem_of_app. right. destruct e; done || left.
Qed.

Lemma query_close_failure_witness :
  (query example_world two_seconds 11214 tt).1.1 = inl OSError /\
  port_points example_world two_seconds 11214 = [] /\
  failure_record 11214 ∈ port_events example_world two_seconds 11214.
Proof.
  edestruct (query_close_failure example_world two_seconds 11214)
    as (Hq & Hpoints & Hlog & _); [reflexivity..|].
  split; [exact Hq|]. split; [exact Hpoints|]. by apply Hlog.
Defined.

(** *** The whole run *)

Lemma elem_of_points_of w port stats p :
  p ∈ points_of w port stats ->
  exists key v x, (key, v) ∈ stats /\ Float.of_string v = Some x /\ p = point_of w port key x.
Proof.
  unfold points_of. intros ([key v] & Hin & Hp)%ReFacts.elem_of_flat_map. cbn [fst snd] in Hp.
  destruct (Float.of_string v) as [x|] eqn:E; [|by apply elem_of_nil in Hp].
  apply list_elem_of_singleton in Hp. by exists key, v, x.
Qed.

(** X20. What [collect_instances] does, case by case. When discovery
    raises, which it does with a [ValueError] only, the call raises it
    and logs nothing. When discovery returns and no query blocks, the
    call returns: [None] exactly when no port was found, and otherwise
    a list in which every point is the point of one statistic of a port
    that was found and whose query returned; no point stands for a port
    that failed or was not listed. Otherwise a query blocks, and the
    call never returns. *)
Theorem collect_instances_provenance w timeout :
  (forall e, ports_of w = inl e ->
     e = ValueError /\ collect_instances w timeout tt = (inl ValueError, tt, [])) /\
  (forall ports, ports_of w = inr ports ->
     (forall port, port ∈ ports -> ~ blocks w timeout port) ->
     exists r t,
       collect_instances w timeout tt = (inr r, tt, t) /\
       (r = None <-> ports = ∅) /\
       forall data p, r = Some data -> p ∈ data ->
         exists port stats key v x,
           port ∈ ports /\ 0 <= port /\
           (query w timeout port tt).1.1 = inr stats /\
           (key, v) ∈ stats /\ Float.of_string v = Some x /\
           p = point_of w port key x) /\
  (forall ports port, ports_of w = inr ports ->
     port ∈ ports -> blocks w timeout port ->
     exists t, collect_instances w timeout tt = (inl Blocked, tt, t)).
Proof.
  split_and!.
  - intros e He. pose proof (get_instances_value_error _ _ He) as ->.
    split; [done|]. by apply collect_instances_raises.
  - intros ports Hports Hanswers. rewrite (collect_instances_run _ _ _ Hports Hanswers).
    destruct (decide (ports = ∅)) as [Hempty|Hne].
    + eexists _, _. split; [done|]. split; [done|]. intros data p [=].
    + eexists _, _. split; [done|]. split; [split; [done|by intros ?]|].
      intros data p [= <-] (port & Hport & Hp)%ReFacts.elem_of_flat_map.
      apply elem_of_set_iter in Hport. unfold port_points in Hp.
      destruct (query w timeout port tt).1.1 as [|stats] eqn:Hq;
        [by apply elem_of_nil in Hp|].
      apply elem_of_points_of in Hp as (key & v & x & ? & ? & ?).
      exists port, stats, key, v, x. split_and!; try done.
      by apply (port_nonneg (ps_output w) ports).
  - intros ports port Hports Hin Hport.
    destruct (first_blocked w timeout (set_iter w ports))
      as [Hall|(before & q & after & Hsplit & Hbefore & Hq)].
    + destruct (Hall port); [by apply elem_of_set_iter|done].
    + eexists. by eapply collect_instances_blocked.
Qed.

Lemma posts_app t1 t2 : posts (t1 ++ t2) = posts t1 ++ posts t2.
Proof. apply flat_map_app. Qed.

Lemma posts_logs t : Forall is_log t -> posts t = [].
Proof.
  induction 1 as [|ev t Hev _ IH]; [done|]. destruct ev; [|done]. exact IH.
Qed.

Lemma collect_instances_outcome w timeout :
  match (collect_instances w timeout tt).1.1 with
  | inr _ =>
      exists ports, ports_of w = inr ports /\
                    forall port, port ∈ ports -> ~ blocks w timeout port
  | inl e =>
      (e = ValueError /\ ports_of w = inl ValueError /\
       (collect_instances w timeout tt).2 = []) \/
      (e = Blocked /\
       exists ports port, ports_of w = inr ports /\ port ∈ ports /\ blocks w timeout port)
  end.
Proof.
  destruct (ports_of w) as [e|ports] eqn:Hports.
  - pose proof (get_instances_value_error _ _ Hports) as ->.
    rewrite (collect_instances_raises _ _ _ Hports). by left.
  - destruct (first_blocked w timeout (set_iter w ports))
      as [Hall|(before & q & after & Hsplit & Hbefore & Hq)].
    + assert (forall port, port ∈ ports -> ~ blocks w timeout port) as Hanswers
        by (intros port ?; by apply Hall, elem_of_set_iter).
      rewrite (collect_instances_run _ _ _ Hports Hanswers).
      destruct (decide (ports = ∅)); cbn [fst snd]; eauto.
    + rewrite (collect_instances_blocked _ _ _ _ _ _ Hports Hsplit Hbefore Hq).
      cbn [fst snd]. right. split; [done|]. exists ports, q. split_and!; [done| |done].
      apply (elem_of_set_iter w). rewrite Hsplit. apply elem_of_app. right. left.
Qed.

(** X21. The program as a whole. It ends with an exception only when
    discovery raises its [ValueError], before anything is logged; it
    never returns exactly when a query of a port found or the post
    waits for ever; in every other case it returns. It posts at most
    once: when the result has points it posts them once, with no retry,
    and a post that raises leaves one record with the size of the body
    as its last event. *)
Theorem main_returns w timeout sendto :
  exists r t,
    main w timeout sendto tt = (r, tt, t) /\
    (length (posts t) <= 1)%nat /\
    (r = inr tt \/
     (r = inl ValueError /\ ports_of w = inl ValueError /\ t = []) \/
     r = inl Blocked) /\
    (r = inl Blocked <-> waits w timeout sendto) /\
    forall p ps,
      (collect_instances w timeout tt).1.1 = inr (Some (p :: ps)) ->
      posts t = [(sendto, json_dumps w (p :: ps))] /\
      forall e, requests_post w sendto (json_dumps w (p :: ps)) timeout = Some e ->
                e <> Blocked ->
                last t = Some (post_failure_record w sendto (p :: ps)).
Proof.
  rewrite main_run. unfold waits.
  pose proof (collect_instances_logs_only w timeout) as Hlog.
  apply posts_logs in Hlog.
  pose proof (collect_instances_outcome w timeout) as Hout.
  destruct (collect_instances w timeout tt) as [[r []] t] eqn:Hrun.
  cbn [fst snd] in *. destruct r as [e|[[|p ps]|]].
  - exists (inl e), t. split; [done|]. rewrite Hlog. split; [cbn; lia|].
    destruct Hout as [(-> & Hports & ->)|(-> & ports & port & Hports & Hin & Hport)].
    + split_and!; [auto| |by intros p ps [=]]. split; [done|].
      intros [(ports & port & Hp & _)|(p & ps & [=] & _)]. congruence.
    + split_and!; [auto| |by intros p ps [=]]. split; [|done].
      intros _. left. by exists ports, port.
  - exists (inr tt), t. split; [done|]. rewrite Hlog. split; [cbn; lia|].
    destruct Hout as (ports & Hports & Hanswers).
    split_and!; [auto| |by intros p ps [=]]. split; [done|].
    intros [(ports' & port & Hp & Hin & Hport)|(p & ps & [=] & _)].
    rewrite Hports in Hp. injection Hp as <-. by destruct (Hanswers port).
  - destruct Hout as (ports & Hports & Hanswers).
    assert (~ exists ports' port,
              ports_of w = inr ports' /\ port ∈ ports' /\ blocks w timeout port) as Hnone.
    { intros (ports' & port & Hp & Hin & Hport).
      rewrite Hports in Hp. injection Hp as <-. by destruct (Hanswers port). }
    destruct (requests_post w sendto (json_dumps w (p :: ps)) timeout) as [e|] eqn:Hpost;
      [destruct e|];
      (eexists _, _; split; [reflexivity|]; rewrite posts_app, Hlog;
       split; [cbn; lia|]; split; [(by left) || (by right; right)|]; split;
       [split;
        [(intros _; right; by exists p, ps) || done
        |(done || (intros [?|(p' & ps' & [= <- <-] & Hb)]; [done|congruence]))]
       |intros p' ps' [= <- <-]; split; [done|]; intros e' He' Hne;
        first [congruence
              |match goal with
               | |- last (?t0 ++ ?a :: [?b]) = _ =>
                   replace (t0 ++ a :: [b]) with ((t0 ++ [a]) ++ [b])
                     by (by rewrite <- List.app_assoc)
               end; apply last_snoc]]).
  - exists (inr tt), t. split; [done|]. rewrite Hlog. split; [cbn; lia|].
    destruct Hout as (ports & Hports & Hanswers).
    split_and!; [auto| |by intros p ps [=]]. split; [done|].
    intros [(ports' & port & Hp & Hin & Hport)|(p & ps & [=] & _)].
    rewrite Hports in Hp. injection Hp as <-. by destruct (Hanswers port).
Qed.

(** *** Order of the ports, and the names of the series *)



Lemma ends_with_app k suffix : ends_with suffix (k +:+ suffix) = true.
Proof.
  induction k as [|c k IH]; cbn [String.append ends_with].
  - destruct suffix; cbn [ends_with]; by rewrite String.eqb_refl.
  - rewrite IH. apply orb_true_r.
Qed.

Lemma gauges_plain g : g ∈ gauges -> ends_with "_cps" g = false.
Proof.
  unfold gauges. intros Hg.
  repeat (apply elem_of_cons in Hg as [->|Hg]; [reflexivity|]).
  by apply elem_of_nil in Hg.
Qed.

Lemma append_inj_r (a b s : string) : a +:+ s = b +:+ s -> a = b.
Proof.
  revert b. induction a as [|x a IH]; intros [|y b] H.
  - done.
  - apply (f_equal String.length) in H. rewrite !length_append in H. simpl in H. lia.
  - apply (f_equal String.length) in H. rewrite !length_append in H. simpl in H. lia.
  - cbn [String.append] in H. injection H as -> H. f_equal. by apply IH.
Qed.

Lemma metric_name_inj k1 k2 : metric_name k1 = metric_name k2 -> k1 = k2.
Proof.
  unfold metric_name. cbn [String.append]. intros [= H].
  destruct (is_gauge k1) eqn:E1, (is_gauge k2) eqn:E2.
  - by rewrite !append_nil_r in H.
  - rewrite append_nil_r in H. apply is_gauge_spec, gauges_plain in E1.
    by rewrite H, ends_with_app in E1.
  - rewrite append_nil_r in H. apply is_gauge_spec, gauges_plain in E2.
    by rewrite <- H, ends_with_app in E2.
  - by apply append_inj_r in H.
Qed.

Lemma str_of_int_inj p q : 0 <= p -> 0 <= q -> str_of_int p = str_of_int q -> p = q.
Proof.
  intros Hp Hq. unfold str_of_int.
  destruct (Z.ltb_spec p 0), (Z.ltb_spec q 0); try lia.
  intros Heq. apply (f_equal int_of_digits) in Heq.
  by rewrite !int_of_str_of_nonneg in Heq.
Qed.

Lemma series_points_of w port stats :
  numeric stats ->
  map series (points_of w port stats) =
  map (fun kv => (metric_name kv.1, "port=" +:+ str_of_int port)) stats.
Proof.
  unfold points_of. induction stats as [|[k v] stats IH]; intros Hn; [done|].
  cbn [flat_map map fst snd]. destruct (Hn k v) as [x ->]; [left|].
  cbn [app map]. f_equal. apply IH. intros k' v' ?. apply (Hn k' v'). by right.
Qed.

Lemma series_port_points w timeout port :
  NoDup (map series (port_points w timeout port)) /\
  forall s, s ∈ map series (port_points w timeout port) -> s.2 = "port=" +:+ str_of_int port.
Proof.
  unfold port_points.
  destruct (query w timeout port tt) as [[[e|stats] []] t] eqn:Hq; cbn [fst snd].
  { split; [apply NoDup_nil_2|]. by intros s ?%elem_of_nil. }
  destruct (query_stats _ _ _ _ _ Hq) as [Hnd Hnum].
  rewrite series_points_of by done. split.
  - clear Hq Hnum. induction stats as [|[k v] stats IH]; [apply NoDup_nil_2|].
    cbn [map fst snd Dict.keys] in *. apply NoDup_cons in Hnd as [Hk Hnd].
    apply NoDup_cons. split; [|by apply IH].
    intros ([k' v'] & Heq & Hin)%list_elem_of_fmap.
    apply (f_equal fst) in Heq. cbn [fst] in Heq. apply metric_name_inj in Heq.
    apply Hk. apply list_elem_of_fmap. exists (k', v'). by subst.
  - by intros s ([k v] & -> & _)%list_elem_of_fmap.
Qed.

Lemma NoDup_series w timeout ports :
  NoDup ports -> (forall port, port ∈ ports -> 0 <= port) ->
  NoDup (map series (flat_map (port_points w timeout) ports)).
Proof.
  induction ports as [|port ports IH]; intros Hnd Hpos; [apply NoDup_nil_2|].
  apply NoDup_cons in Hnd as [Hport Hnd]. cbn [flat_map]. rewrite map_app.
  destruct (series_port_points w timeout port) as [Hblock Htags].
  apply NoDup_app. split_and!.
  - done.
  - intros s Hs Hin. apply Htags in Hs.
    apply list_elem_of_fmap in Hin as (p & -> & Hp).
    apply ReFacts.elem_of_flat_map in Hp as (port' & Hport' & Hp).
    destruct (series_port_points w timeout port') as [_ Htags'].
    rewrite (Htags' (series p)) in Hs by (apply list_elem_of_fmap; eauto).
    cbn [String.append] in Hs. injection Hs as Hs.
    apply str_of_int_inj in Hs; [|apply Hpos; by right|apply Hpos; left].
    by subst.
  - apply IH; [done|]. intros. apply Hpos. by right.
Qed.

(** X23. No series is reported twice: in what [collect_instances] returns,
    no two points have both the same name and the same tags. Within a
    port the names differ, as the keys do and no gauge ends in [_cps];
    between ports the tags differ, as the decimal texts of two ports
    do. *)
Theorem collect_instances_series_distinct w timeout :
  (forall k1 k2, metric_name k1 = metric_name k2 -> k1 = k2) /\
  (forall r t data,
     collect_instances w timeout tt = (inr r, tt, t) ->
     r = Some data -> NoDup (map series data)) /\
  (forall ports,
     ports_of w = inr ports ->
     (forall port, port ∈ ports -> ~ blocks w timeout port) ->
     exists r t,
       collect_instances w timeout tt = (inr r, tt, t) /\
       forall data, r = Some data -> NoDup (map series data)).
Proof.
  assert (forall ports,
            ports_of w = inr ports ->
            (forall port, port ∈ ports -> ~ blocks w timeout port) ->
            exists r t,
              collect_instances w timeout tt = (inr r, tt, t) /\
              forall data, r = Some data -> NoDup (map series data)) as Hrun.
  { intros ports Hports Hanswers. rewrite (collect_instances_run _ _ _ Hports Hanswers).
    destruct (decide (ports = ∅)).
    - eexists _, _. split; [done|]. by intros data [=].
    - eexists _, _. split; [done|]. intros data [= <-]. apply NoDup_series.
      + rewrite (set_iter_perm w). apply NoDup_elements.
      + intros port Hport%elem_of_set_iter.
        by apply (port_nonneg (ps_output w) ports). }
  split_and!; [apply metric_name_inj| |exact Hrun].
  intros r t data Hreturn ->.
  pose proof (collect_instances_outcome w timeout) as Hout. rewrite Hreturn in Hout.
  destruct Hout as (ports & Hports & Hanswers).
  destruct (Hrun ports Hports Hanswers) as (r' & t' & Hr' & Hdistinct).
  rewrite Hreturn in Hr'. injection Hr' as <- _. by apply Hdistinct.
Qed.

End RunFacts.
